(** * Fenced code blocks: the preprocessor of [zerver/lib/bugdown/fenced_code.py]

    A shallow embedding of the two fence patterns ([FENCE_RE] and
    [FENCED_BLOCK_RE]), of the backtracking search that Python's [re]
    module performs on them, and of [FencedBlockPreprocessor]
    ([format_quote], [format_code], [format_fence], [process_fence],
    [run], [_escape]), followed by the properties of the fence syntax
    and of the rewriting loop. *)

From Stdlib Require Import Ascii String DecimalString List Arith Lia Bool.
Import ListNotations.

Open Scope string_scope.
Open Scope nat_scope.
Open Scope list_scope.

(** ** Text *)

(** A Python [str] is a list of characters. *)
Definition str := list ascii.

(** String literals are read as character lists. *)
Coercion list_ascii_of_string : string >-> list.

Definition nl : ascii := "010"%char.
Definition space : ascii := " "%char.
Definition tilde : ascii := "~"%char.
Definition backtick : ascii := "`"%char.

Definition str_eqb (a b : str) : bool :=
  if list_eq_dec ascii_dec a b then true else false.

(** [s.startswith(p)]: the rest of [s] after the prefix [p], when [p]
    is a prefix of [s]. *)
Fixpoint strip_prefix (p s : str) : option str :=
  match p, s with
  | [], _ => Some s
  | _ :: _, [] => None
  | a :: p', b :: s' => if Ascii.eqb a b then strip_prefix p' s' else None
  end.

Definition cons_head (c : ascii) (l : list str) : list str :=
  match l with
  | [] => [[c]]
  | w :: ws => (c :: w) :: ws
  end.

(** [s.split(sep)] for a non-empty separator: left to right, occurrences
    of [sep] do not overlap.  [skip] counts the characters of an
    occurrence already recognised that are still to be dropped. *)
Fixpoint split_go (sep : str) (skip : nat) (s : str) : list str :=
  match s with
  | [] => [[]]
  | c :: s' =>
      match skip with
      | S k => split_go sep k s'
      | O =>
          match strip_prefix sep s with
          | Some _ => [] :: split_go sep (length sep - 1) s'
          | None => cons_head c (split_go sep 0 s')
          end
      end
  end.

Definition split (sep s : str) : list str := split_go sep 0 s.

(** [sep.join(parts)] *)
Fixpoint join (sep : str) (parts : list str) : str :=
  match parts with
  | [] => []
  | [w] => w
  | w :: ws => w ++ sep ++ join sep ws
  end.

(** [s.replace(old, new)] for a non-empty [old]. *)
Fixpoint replace_go (old new : str) (skip : nat) (s : str) : str :=
  match s with
  | [] => []
  | c :: s' =>
      match skip with
      | S k => replace_go old new k s'
      | O =>
          match strip_prefix old s with
          | Some _ => new ++ replace_go old new (length old - 1) s'
          | None => c :: replace_go old new 0 s'
          end
      end
  end.

Definition replace (old new s : str) : str := replace_go old new 0 s.

(** [s[-n:]] and [s[:-n]] for [n > 0]. *)
Definition last_n (n : nat) (s : str) : str := skipn (length s - n) s.
Definition drop_last_n (n : nat) (s : str) : str := firstn (length s - n) s.

(** ** Patterns *)

(** The groups of the two patterns: [fence], the unnamed group around the
    decorated language annotation, [lang] and [code]. *)
Inductive gname := Gfence | Gdeco | Glang | Gcode.

Definition gname_eqb (a b : gname) : bool :=
  match a, b with
  | Gfence, Gfence | Gdeco, Gdeco | Glang, Glang | Gcode, Gcode => true
  | _, _ => false
  end.

(** The fragment of Python's pattern language the two patterns use.
    Every repeated item of the source is a single character or a
    character class, so repetition takes a predicate on characters. *)
Inductive regex :=
| Eps                                   (* empty pattern *)
| One (p : ascii -> bool)               (* a literal, a class [[...]] or [.] *)
| Bol                                   (* [^] under MULTILINE *)
| Eol                                   (* [$] under MULTILINE *)
| Seq (a b : regex)
| Alt (a b : regex)                     (* [a|b] *)
| Opt (a : regex)                       (* [a?] *)
| Many (p : ascii -> bool) (n : nat)    (* [p{n,}], greedy; [p*] is [Many p 0] *)
| Few (p : ascii -> bool)               (* [p*?], lazy *)
| Group (g : gname) (a : regex)
| Backref (g : gname)                   (* [(?P=g)] *)
| Behind (c : ascii).                   (* [(?<=c)] *)

Definition captures := gname -> option str.

Definition no_captures : captures := fun _ => None.

Definition set_capture (g : gname) (w : str) (cp : captures) : captures :=
  fun g' => if gname_eqb g g' then Some w else cp g'.

(** The text of a group, empty when the group took no part in the
    match. *)
Definition cap_text (cp : captures) (g : gname) : str :=
  match cp g with
  | Some w => w
  | None => []
  end.

(** The matcher walks the text with a cursor: the text already consumed
    (latest character first), the text still ahead, and the groups
    captured so far. *)
Record cursor := Cursor {
  seen : str;
  todo : str;
  caps : captures
}.

(** What was consumed between cursor [a] and a later cursor [b]. *)
Definition consumed (a b : cursor) : str :=
  rev (firstn (length (seen b) - length (seen a)) (seen b)).

Definition capture (g : gname) (a b : cursor) : cursor :=
  Cursor (seen b) (todo b) (set_capture g (consumed a b) (caps b)).

Definition at_bound (c : ascii) (s : str) : bool :=
  match s with
  | [] => true
  | x :: _ => Ascii.eqb x c
  end.

(** [p{n,}]: take as many as possible, give back one at a time. *)
Fixpoint greedy (p : ascii -> bool) (n : nat) (k : cursor -> option cursor)
    (sn td : str) (cp : captures) : option cursor :=
  let stop := if n =? 0 then k (Cursor sn td cp) else None in
  match td with
  | x :: t =>
      if p x then
        match greedy p (pred n) k (x :: sn) t cp with
        | Some r => Some r
        | None => stop
        end
      else stop
  | [] => stop
  end.

(** [p*?]: take as few as possible, one more on each failure. *)
Fixpoint lazy (p : ascii -> bool) (k : cursor -> option cursor)
    (sn td : str) (cp : captures) : option cursor :=
  match k (Cursor sn td cp) with
  | Some r => Some r
  | None =>
      match td with
      | x :: t => if p x then lazy p k (x :: sn) t cp else None
      | [] => None
      end
  end.

(** Backtracking match of [r] at cursor [st]; [k] is the rest of the
    pattern.  The first success in Python's order of alternatives is
    returned. *)
Fixpoint rmatch (r : regex) (st : cursor) (k : cursor -> option cursor)
    : option cursor :=
  match r with
  | Eps => k st
  | One p =>
      match todo st with
      | x :: t => if p x then k (Cursor (x :: seen st) t (caps st)) else None
      | [] => None
      end
  | Bol => if at_bound nl (seen st) then k st else None
  | Eol => if at_bound nl (todo st) then k st else None
  | Seq a b => rmatch a st (fun st1 => rmatch b st1 k)
  | Alt a b =>
      match rmatch a st k with
      | Some res => Some res
      | None => rmatch b st k
      end
  | Opt a =>
      match rmatch a st k with
      | Some res => Some res
      | None => k st
      end
  | Many p n => greedy p n k (seen st) (todo st) (caps st)
  | Few p => lazy p k (seen st) (todo st) (caps st)
  | Group g a => rmatch a st (fun st1 => k (capture g st st1))
  | Backref g =>
      match caps st g with
      | Some w =>
          match strip_prefix w (todo st) with
          | Some t => k (Cursor (rev w ++ seen st) t (caps st))
          | None => None
          end
      | None => None
      end
  | Behind c =>
      match seen st with
      | x :: _ => if Ascii.eqb x c then k st else None
      | [] => None
      end
  end.

(** A match object: [m.start()], [m.end()] and [m.group(g)]. *)
Record match_obj := Match {
  m_start : nat;
  m_end : nat;
  m_group : gname -> option str
}.

(** [pattern.search(text)]: the first position, from the left, at which
    the pattern matches. *)
Fixpoint search_at (r : regex) (sn td : str) : option match_obj :=
  match rmatch r (Cursor sn td no_captures) Some with
  | Some c => Some (Match (length sn) (length (seen c)) (caps c))
  | None =>
      match td with
      | [] => None
      | x :: t => search_at r (x :: sn) t
      end
  end.

Definition search (r : regex) (text : str) : option match_obj :=
  search_at r [] text.

(** *** The two patterns of the module *)

Definition lit (c : ascii) : regex := One (Ascii.eqb c).
Definition any : ascii -> bool := fun _ => true.
Definition is_space : ascii -> bool := Ascii.eqb space.
Definition is_tilde : ascii -> bool := Ascii.eqb tilde.
Definition is_backtick : ascii -> bool := Ascii.eqb backtick.

Definition in_range (lo hi c : ascii) : bool :=
  (nat_of_ascii lo <=? nat_of_ascii c) && (nat_of_ascii c <=? nat_of_ascii hi).

(** [[a-zA-Z0-9_+-]] *)
Definition lang_char (c : ascii) : bool :=
  in_range "a" "z" c || in_range "A" "Z" c || in_range "0" "9" c
  || Ascii.eqb c "_" || Ascii.eqb c "+" || Ascii.eqb c "-".

(** [(?P<fence>^(?:~{3,}|`{3,}))] *)
Definition fence_group : regex :=
  Group Gfence (Seq Bol (Alt (Many is_tilde 3) (Many is_backtick 3))).

(** The second group of both patterns: an optional [{], an optional [.],
    the group [lang] (any number of characters of [[a-zA-Z0-9_+-]]) and an
    optional [}]. *)
Definition deco_group : regex :=
  Group Gdeco
    (Seq (Opt (lit "{"))
      (Seq (Opt (lit "."))
        (Seq (Group Glang (Many lang_char 0))
             (Opt (lit "}"))))).

Definition FENCE_RE : regex :=
  Seq fence_group (Seq (Many is_space 0) (Seq deco_group Eol)).

Definition FENCED_BLOCK_RE : regex :=
  Seq fence_group
    (Seq (Many is_space 0)
      (Seq (Opt deco_group)
        (Seq (Many is_space 0)
          (Seq (lit nl)
            (Seq (Group Gcode (Few any))
              (Seq (Behind nl)
                (Seq (Backref Gfence)
                  (Seq (Many is_space 0) Eol)))))))).

(** ** The preprocessor *)

Definition dquote : ascii := "034"%char.

(** [CODE_WRAP % (langclass, body)] *)
Definition CODE_WRAP (langclass body : str) : str :=
  "<pre><code" ++ langclass ++ ">" ++ body ++ "</code></pre>".

(** [LANG_TAG % lang] *)
Definition LANG_TAG (lang : str) : str :=
  " class=" ++ [dquote] ++ lang ++ [dquote].

(** [m.group(g)]; a group that took no part in the match reads as the
    empty string, which the module treats like [None] everywhere
    ([if m.group('lang')], [lang or None]). *)
Definition group (m : match_obj) (g : gname) : str := cap_text (m_group m) g.

Definition truthy (s : str) : bool :=
  match s with
  | [] => false
  | _ :: _ => true
  end.

(** [FencedBlockPreprocessor._escape] *)
Definition _escape (txt : str) : str :=
  let txt := replace "&" "&amp;" txt in
  let txt := replace "<" "&lt;" txt in
  let txt := replace ">" "&gt;" txt in
  let txt := replace [dquote] "&quot;" txt in
  txt.

(** [FencedBlockPreprocessor.format_quote] *)
Definition format_quote (text : str) : str :=
  let paragraphs := split [nl; nl] text in
  let quoted_paragraphs :=
    map (fun paragraph =>
           let lines := split [nl] paragraph in
           join [nl] (map (fun line => "> " ++ line) (filter truthy lines)))
        paragraphs in
  join [nl; nl] quoted_paragraphs.

(** The configuration of a [CodeHiliteExtension] as this module uses it:
    the empty dictionary ([None]), or the settings with which
    [CodeHilite(text, ..., lang=...).hilite()] renders a text and an
    optional language ([Some]). *)
Definition hiliter := str -> option str -> str.
Definition config := option hiliter.

(** The state of a [FencedBlockPreprocessor]: its two attributes, and the
    blocks held by [markdown.htmlStash]. *)
Record preprocessor := Preprocessor {
  checked_for_codehilite : bool;
  codehilite_conf : config;
  rawHtmlBlocks : list str
}.

(** [FencedBlockPreprocessor.__init__] *)
Definition init : preprocessor := Preprocessor false None [].

Definition stash_block (self : preprocessor) (html : str) : preprocessor :=
  Preprocessor (checked_for_codehilite self) (codehilite_conf self)
               (rawHtmlBlocks self ++ [html]).

Section Host.

(** The placeholder [markdown.htmlStash] hands out for its [k]-th block. *)
Variable placeholder : nat -> str.

(** The configuration of the first [CodeHiliteExtension] among
    [markdown.registeredExtensions], if there is one. *)
Variable registered : option config.

(** [self.markdown.htmlStash.store(html, safe=True)] *)
Definition store (self : preprocessor) (html : str) : str * preprocessor :=
  (placeholder (length (rawHtmlBlocks self)), stash_block self html).

(** The first lines of [format_code]: look for the extension, once. *)
Definition check_codehilite (self : preprocessor) : preprocessor :=
  if checked_for_codehilite self then self
  else Preprocessor true
         (match registered with
          | Some conf => conf
          | None => codehilite_conf self
          end)
         (rawHtmlBlocks self).

(** [FencedBlockPreprocessor.format_code] *)
Definition format_code (self : preprocessor) (langclass lang text : str)
    : str * preprocessor :=
  let self := check_codehilite self in
  match codehilite_conf self with
  | Some highliter =>
      (highliter text (if truthy lang then Some lang else None), self)
  | None => (CODE_WRAP langclass (_escape text), self)
  end.

(** [FencedBlockPreprocessor.format_fence] *)
Definition format_fence (self : preprocessor) (m : match_obj)
    : str * preprocessor :=
  let langclass := if truthy (group m Glang) then LANG_TAG (group m Glang) else [] in
  if truthy (group m Glang)
     && (str_eqb (group m Glang) "quote" || str_eqb (group m Glang) "quoted")
  then (format_quote (group m Gcode), self)
  else
    let (code, self) := format_code self langclass (group m Glang) (group m Gcode) in
    store self code.

(** [FencedBlockPreprocessor.process_fence] *)
Definition process_fence (self : preprocessor) (m : match_obj) (text : str)
    : str * preprocessor :=
  let (fence_text, self) := format_fence self m in
  (firstn (m_start m) text ++ [nl] ++ fence_text ++ [nl] ++ skipn (m_end m) text,
   self).

(** The [while 1] loop of [run]: replace the first fenced block until
    none is left.  The loop of the source need not stop (a placeholder
    may itself read as a fenced block), so the model counts the turns
    and gives [None] when they run out. *)
Fixpoint run_loop (turns : nat) (self : preprocessor) (text : str)
    : option (str * preprocessor) :=
  match search FENCED_BLOCK_RE text with
  | Some m =>
      match turns with
      | O => None
      | S turns' =>
          let (text, self) := process_fence self m text in
          run_loop turns' self text
      end
  | None => Some (text, self)
  end.

(** The end of [run]: a starting fence without an ending fence gets one. *)
Definition close_dangling (self : preprocessor) (text : str)
    : str * preprocessor :=
  match search FENCE_RE text with
  | Some fence =>
      let text :=
        if str_eqb (last_n 2 text) [nl; nl]
        then drop_last_n 2 text ++ [nl] ++ group fence Gfence ++ last_n 2 text
        else text ++ group fence Gfence in
      match search FENCED_BLOCK_RE text with
      | Some m => process_fence self m text
      | None => (text, self)
      end
  | None => (text, self)
  end.

(** [FencedBlockPreprocessor.run] *)
Definition run (turns : nat) (self : preprocessor) (lines : list str)
    : option (list str * preprocessor) :=
  let text := join [nl] lines in
  match run_loop turns self text with
  | Some (text, self) =>
      let (text, self) := close_dangling self text in
      Some (split [nl] text, self)
  | None => None
  end.

End Host.

(** The placeholders of Python-Markdown's [HtmlStash]. *)
Definition html_placeholder (k : nat) : str :=
  ["002"%char] ++ "wzxhzdk:"
  ++ list_ascii_of_string (NilEmpty.string_of_uint (Nat.to_uint k))
  ++ ["003"%char].

(** Lines written as string literals. *)
Definition py_lines (l : list string) : list str := map list_ascii_of_string l.

(** * Notions for the statements *)

(** ** What a pattern denotes *)

(** [den r a b]: pattern [r] can take the cursor from [a] to [b].  This is
    the declarative reading of a pattern; the matcher [rmatch] explores
    these moves in Python's order. *)
Fixpoint den (r : regex) (a b : cursor) : Prop :=
  match r with
  | Eps => b = a
  | One p =>
      exists x t, p x = true /\ todo a = x :: t
                  /\ b = Cursor (x :: seen a) t (caps a)
  | Bol => at_bound nl (seen a) = true /\ b = a
  | Eol => at_bound nl (todo a) = true /\ b = a
  | Seq r1 r2 => exists c, den r1 a c /\ den r2 c b
  | Alt r1 r2 => den r1 a b \/ den r2 a b
  | Opt r1 => den r1 a b \/ b = a
  | Many p n =>
      exists w t, forallb p w = true /\ n <= length w /\ todo a = w ++ t
                  /\ b = Cursor (rev w ++ seen a) t (caps a)
  | Few p =>
      exists w t, forallb p w = true /\ todo a = w ++ t
                  /\ b = Cursor (rev w ++ seen a) t (caps a)
  | Group g r1 => exists c, den r1 a c /\ b = capture g a c
  | Backref g =>
      exists w t, caps a g = Some w /\ todo a = w ++ t
                  /\ b = Cursor (rev w ++ seen a) t (caps a)
  | Behind c => (exists s, seen a = c :: s) /\ b = a
  end.

(** The pattern up to the newline that ends the opening line, and the
    pattern of the closing line. *)
Definition block_head : regex :=
  Seq fence_group
    (Seq (Many is_space 0)
      (Seq (Opt deco_group)
        (Seq (Many is_space 0) (lit nl)))).

Definition block_close : regex :=
  Seq (Behind nl) (Seq (Backref Gfence) (Seq (Many is_space 0) Eol)).

(** ** The shape of a fenced region *)

Definition is_marker (c : ascii) : bool := is_tilde c || is_backtick c.

(** Three or more copies of one marker character. *)
Definition fence_string (f : str) : Prop :=
  exists c n, is_marker c = true /\ 3 <= n /\ f = repeat c n.

Definition blank (s : str) : Prop := forallb is_space s = true.

Definition opt_char (c : ascii) (s : str) : Prop := s = [] \/ s = [c].

(** The language annotation of an opening line: the tag, with the three
    decoration characters each present or not. *)
Definition annotation (deco lang : str) : Prop :=
  exists o d c,
    opt_char "{" o /\ opt_char "." d /\ opt_char "}" c
    /\ deco = o ++ d ++ lang ++ c /\ forallb lang_char lang = true.

Definition line_start (pre : str) : Prop := pre = [] \/ exists p, pre = p ++ [nl].

Definition line_end (post : str) : Prop := post = [] \/ exists q, post = nl :: q.

Definition nl_free (w : str) : bool :=
  forallb (fun c => negb (Ascii.eqb c nl)) w.

(** [p] holds of the first character of [s]. *)
Definition head_is (p : ascii -> bool) (s : str) : bool :=
  match s with
  | [] => false
  | x :: _ => p x
  end.

(** The pieces of a text around one fenced region, in order. *)
Record region := Region {
  r_pre : str;      (* the text before the opening fence *)
  r_fence : str;    (* the marker string *)
  r_sp1 : str;
  r_deco : str;     (* the annotation as written *)
  r_lang : str;     (* the tag inside it *)
  r_sp2 : str;
  r_code : str;     (* the body *)
  r_sp3 : str;      (* what follows the closing marker on its line *)
  r_post : str      (* the text after the closing line *)
}.

Definition open_line (R : region) : str :=
  r_fence R ++ r_sp1 R ++ r_deco R ++ r_sp2 R.

Definition close_line (R : region) : str := r_fence R ++ r_sp3 R.

Definition region_span (R : region) : str :=
  open_line R ++ [nl] ++ r_code R ++ close_line R.

Definition region_text (R : region) : str :=
  r_pre R ++ region_span R ++ r_post R.

Record well_formed (R : region) : Prop := WellFormed {
  wf_start : line_start (r_pre R);
  wf_fence : fence_string (r_fence R);
  wf_sp1 : blank (r_sp1 R);
  wf_deco : annotation (r_deco R) (r_lang R);
  wf_sp2 : blank (r_sp2 R);
  wf_code : line_start (r_code R);
  wf_sp3 : blank (r_sp3 R);
  wf_end : line_end (r_post R)
}.

(** No line of [code] reads as a closing line for the marker [f]. *)
Definition no_close_inside (f code : str) : Prop :=
  forall c1 sp c2,
    code = c1 ++ f ++ sp ++ nl :: c2 -> line_start c1 -> blank sp -> False.

(** [line] reads as a closing line for the marker [f]. *)
Definition closes (f line : str) : Prop :=
  exists sp, blank sp /\ line = f ++ sp.

(** Lines, each with its newline. *)
Definition unlines (ls : list str) : str :=
  concat (map (fun l => l ++ [nl]) ls).

(** A document that ends with an opening fence: lines without fences,
    the opening line, and the lines below it, each with its newline. *)
Definition dangling_doc (above : list str) (opening : str) (below : list str)
    : str :=
  unlines above ++ opening ++ [nl] ++ unlines below.

(** ** The tag of an opening line *)

Fixpoint skip_while (p : ascii -> bool) (s : str) : str :=
  match s with
  | x :: t => if p x then skip_while p t else s
  | [] => []
  end.

Fixpoint take_while (p : ascii -> bool) (s : str) : str :=
  match s with
  | x :: t => if p x then x :: take_while p t else []
  | [] => []
  end.

Definition skip_opt (c : ascii) (s : str) : str :=
  match s with
  | x :: t => if Ascii.eqb x c then t else s
  | [] => []
  end.

(** The tag of an opening line, read off the text that follows the
    marker string: skip the blanks, an opening brace, a dot, and take the
    tag characters. *)
Definition scan_lang (s : str) : str :=
  take_while lang_char (skip_opt "." (skip_opt "{" (skip_while is_space s))).

(** ** Runs of marker characters *)

Fixpoint count_run (c : ascii) (s : str) : nat :=
  match s with
  | x :: t => if Ascii.eqb x c then S (count_run c t) else 0
  | [] => 0
  end.

(** The length of the run of one repeated backtick or tilde that starts a
    line. *)
Definition leading_run (line : str) : nat :=
  match line with
  | c :: _ => if is_marker c then count_run c line else 0
  | [] => 0
  end.

(** A line that starts with three or more copies of one marker
    character. *)
Definition fence_line (line : str) : bool := 3 <=? leading_run line.

(** The number of lines of a text that start like a fence.  Every turn
    of the loop removes at least the opening line of a region and puts
    none back, as long as no placeholder has such a line. *)
Definition fence_lines (text : str) : nat :=
  length (filter fence_line (split [nl] text)).

(** ** Escaping and quoting, piece by piece *)

(** What [_escape] does to one character. *)
Definition escape_char (x : ascii) : str :=
  if Ascii.eqb x "&" then "&amp;"
  else if Ascii.eqb x "<" then "&lt;"
  else if Ascii.eqb x ">" then "&gt;"
  else if Ascii.eqb x dquote then "&quot;"
  else [x].

(** The rendering of one paragraph in [format_quote]. *)
Definition quote_paragraph (paragraph : str) : str :=
  join [nl] (map (fun line => "> " ++ line) (filter truthy (split [nl] paragraph))).

(** Every newline of [w] is followed by another character of its line:
    [w] has no blank line and no newline at its end. *)
Fixpoint tidy (w : str) : bool :=
  match w with
  | [] => true
  | x :: t =>
      (negb (Ascii.eqb x nl) || head_is (fun c => negb (Ascii.eqb c nl)) t)
      && tidy t
  end.

(** A line of a paragraph: not empty, and without a newline. *)
Definition proper_line (l : str) : Prop := l <> [] /\ nl_free l = true.

(** A paragraph: one or more proper lines. *)
Definition proper_paragraph (ls : list str) : Prop :=
  ls <> [] /\ Forall proper_line ls.

(** ** Concrete documents *)

Definition text_of (lines : list string) : str := join [nl] (py_lines lines).

(** The match object of a search known to succeed. *)
Definition the_match (o : option match_obj) : match_obj :=
  match o with
  | Some m => m
  | None => Match 0 0 no_captures
  end.

Definition hello_text : str := text_of ["~~~"; "hello"; "~~~"].

Definition hello_match : match_obj := the_match (search FENCED_BLOCK_RE hello_text).

Definition python_text : str := text_of ["~~~~{.python}"; "x = 1"; "~~~~"].

Definition python_match : match_obj := the_match (search FENCED_BLOCK_RE python_text).

Definition bad_tag_text : str := text_of ["~~~py!"; "x"; "~~~"].

Definition markup_text : str := text_of ["~~~~{.python}"; "a < b && c > d"; "~~~~"].

Definition markup_match : match_obj := the_match (search FENCED_BLOCK_RE markup_text).

Definition dangling_text : str := text_of ["~~~"; "hello"].

Definition dangling_fence : match_obj := the_match (search FENCE_RE dangling_text).

Definition glued_text : str := text_of ["~~~"; "~~~~"; "~"].

Definition glued_fence : match_obj := the_match (search FENCE_RE glued_text).

Definition quote_text : str :=
  text_of ["~~~quote"; "first line"; ""; "second paragraph"; "~~~"].

Definition quote_match : match_obj := the_match (search FENCED_BLOCK_RE quote_text).

(** ** Further documents and notions *)

(** A text with two fenced blocks; the second one as a region. *)
Definition two_blocks : region :=
  Region ("a" ++ [nl] ++ "~~~" ++ [nl] ++ "b" ++ [nl] ++ "~~~" ++ [nl])
         "```" [] [] [] [] ("c" ++ [nl]) [] [].

Definition twice_closed_text : str := text_of ["~~~"; "a"; "~~~"; "b"; "~~~"].

Definition twice_closed_match : match_obj :=
  the_match (search FENCED_BLOCK_RE twice_closed_text).

(** The characters [_escape] rewrites. *)
Definition markup_char (c : ascii) : bool :=
  Ascii.eqb c "&" || Ascii.eqb c "<" || Ascii.eqb c ">" || Ascii.eqb c dquote.

(** Reading the four entities of [_escape] back.  [skip] counts the
    characters of an entity already recognised that are still to be
    dropped. *)
Fixpoint unescape_go (skip : nat) (s : str) : str :=
  match s with
  | [] => []
  | c :: s' =>
      match skip with
      | S k => unescape_go k s'
      | O =>
          match strip_prefix "&amp;" s, strip_prefix "&lt;" s,
                strip_prefix "&gt;" s, strip_prefix "&quot;" s with
          | Some _, _, _, _ => "&"%char :: unescape_go 4 s'
          | _, Some _, _, _ => "<"%char :: unescape_go 3 s'
          | _, _, Some _, _ => ">"%char :: unescape_go 3 s'
          | _, _, _, Some _ => dquote :: unescape_go 5 s'
          | _, _, _, _ => c :: unescape_go 0 s'
          end
      end
  end.

Definition unescape (s : str) : str := unescape_go 0 s.

(** A fenced block with a line above it and a line below it. *)
Definition framed_block : region :=
  Region ("intro" ++ [nl]) "~~~" [] "py" "py" [] ("x = 1" ++ [nl]) []
         (nl :: "outro").

(** A stash whose placeholders would themselves read as a fenced block. *)
Definition fence_like_placeholder (k : nat) : str := "~~~" ++ [nl] ++ "~~~".

(** The smallest fenced region: an opening line and a closing line. *)
Definition empty_block : region := Region [] "~~~" [] [] [] [] [] [] [].

(** A region whose span, standing alone among empty lines, is found by
    the search and rendered as code. *)
Definition code_span (P : region) : Prop :=
  well_formed P /\ r_pre P = [] /\ r_post P = []
  /\ no_close_inside (r_fence P) (r_code P)
  /\ r_lang P <> "quote" /\ r_lang P <> "quoted".

(** A document with two fenced blocks, as two regions: the lower one is
    the text after the upper one. *)
Definition lower_block : region :=
  Region [nl] "```" [] "py" "py" [] ("b" ++ [nl]) [] [].

Definition upper_block : region :=
  Region [] "~~~" [] [] [] [] ("a" ++ [nl]) [] (region_text lower_block).


(** * Properties *)

(** ** Tactics *)

(** Split a conjunction into its parts, and nothing else. *)
Ltac conj_split := repeat match goal with |- _ /\ _ => split end.

(** Concatenations, associated to the right. *)
Ltac app_norm :=
  repeat (progress (try rewrite <- !app_assoc; cbn [app])).

(** ** Text lemmas *)

Lemma strip_prefix_app (p t : str) : strip_prefix p (p ++ t) = Some t.
Proof.
  induction p as [|a p IH]; simpl; [reflexivity|].
  now rewrite Ascii.eqb_refl.
Qed.

Lemma strip_prefix_Some (p s t : str) :
  strip_prefix p s = Some t -> s = p ++ t.
Proof.
  revert s; induction p as [|a p IH]; intros s H; simpl in *.
  - now inversion H.
  - destruct s as [|b s]; [discriminate|].
    destruct (Ascii.eqb a b) eqn:E; [|discriminate].
    apply Ascii.eqb_eq in E; subst b. f_equal. now apply IH.
Qed.

Lemma at_bound_spec (c : ascii) (s : str) :
  at_bound c s = true <-> s = [] \/ exists t, s = c :: t.
Proof.
  destruct s as [|x s]; simpl.
  - split; auto.
  - rewrite Ascii.eqb_eq. split.
    + intros ->. right. now exists s.
    + intros [H|[t H]]; [discriminate|now inversion H].
Qed.

(** ** The matcher explores exactly the moves of [den] *)

Lemma greedy_sound (p : ascii -> bool) (k : cursor -> option cursor)
    (cp : captures) (td : str) :
  forall (n : nat) (sn : str) (res : cursor),
    greedy p n k sn td cp = Some res ->
    exists w t, forallb p w = true /\ n <= length w /\ td = w ++ t
                /\ k (Cursor (rev w ++ sn) t cp) = Some res.
Proof.
  induction td as [|x td IH]; intros n sn res H; simpl in H.
  - destruct (Nat.eqb_spec n 0); [|discriminate].
    exists [], []. subst n. auto.
  - assert (Hstop : (if n =? 0 then k (Cursor sn (x :: td) cp) else None) = Some res ->
                    exists w t, forallb p w = true /\ n <= length w
                                /\ x :: td = w ++ t
                                /\ k (Cursor (rev w ++ sn) t cp) = Some res).
    { destruct (Nat.eqb_spec n 0); [|discriminate].
      intros Hk. exists [], (x :: td). subst n. auto. }
    destruct (p x) eqn:Hp; [|now apply Hstop].
    destruct (greedy p (pred n) k (x :: sn) td cp) as [r|] eqn:G;
      [|now apply Hstop].
    inversion H; subst r.
    destruct (IH _ _ _ G) as (w & t & Hw & Hn & Htd & Hk).
    exists (x :: w), t. simpl. rewrite Hp, Hw, <- app_assoc. simpl.
    repeat split; auto; [lia|now subst td].
Qed.

Lemma greedy_complete (p : ascii -> bool) (k : cursor -> option cursor)
    (cp : captures) (t : str) (w : str) :
  forall (n : nat) (sn : str),
    forallb p w = true -> n <= length w ->
    k (Cursor (rev w ++ sn) t cp) <> None ->
    greedy p n k sn (w ++ t) cp <> None.
Proof.
  induction w as [|x w IH]; intros n sn Hw Hn Hk; simpl in *.
  - assert (n = 0) by lia; subst n.
    destruct t as [|y t]; simpl; [assumption|].
    destruct (p y); [|assumption].
    now destruct (greedy p 0 k (y :: sn) t cp).
  - apply andb_prop in Hw as [Hx Hw]. rewrite Hx.
    rewrite <- app_assoc in Hk. simpl in Hk.
    specialize (IH (pred n) (x :: sn) Hw ltac:(lia) Hk).
    now destruct (greedy p (pred n) k (x :: sn) (w ++ t) cp).
Qed.

Lemma lazy_sound (p : ascii -> bool) (k : cursor -> option cursor)
    (cp : captures) (td : str) :
  forall (sn : str) (res : cursor),
    lazy p k sn td cp = Some res ->
    exists w t, forallb p w = true /\ td = w ++ t
                /\ k (Cursor (rev w ++ sn) t cp) = Some res.
Proof.
  induction td as [|x td IH]; intros sn res H; simpl in H.
  - destruct (k (Cursor sn [] cp)) as [r|] eqn:K; [|discriminate].
    exists [], []. simpl. rewrite K. auto.
  - destruct (k (Cursor sn (x :: td) cp)) as [r|] eqn:K.
    + exists [], (x :: td). simpl. rewrite K. auto.
    + destruct (p x) eqn:Hp; [|discriminate].
      destruct (IH _ _ H) as (w & t & Hw & Htd & Hk).
      exists (x :: w), t. simpl. rewrite Hp, Hw, <- app_assoc. simpl.
      repeat split; auto. now subst td.
Qed.

Lemma lazy_complete (p : ascii -> bool) (k : cursor -> option cursor)
    (cp : captures) (t : str) (w : str) :
  forall (sn : str),
    forallb p w = true ->
    k (Cursor (rev w ++ sn) t cp) <> None ->
    lazy p k sn (w ++ t) cp <> None.
Proof.
  induction w as [|x w IH]; intros sn Hw Hk; simpl in *.
  - destruct t as [|y t]; simpl; now destruct (k _).
  - apply andb_prop in Hw as [Hx Hw].
    destruct (k (Cursor sn (x :: w ++ t) cp)); [discriminate|].
    rewrite Hx. apply IH; auto.
    now rewrite <- app_assoc in Hk.
Qed.

Theorem rmatch_sound (r : regex) :
  forall (a : cursor) (k : cursor -> option cursor) (res : cursor),
    rmatch r a k = Some res -> exists b, den r a b /\ k b = Some res.
Proof.
  induction r as [|p| | |r1 IH1 r2 IH2|r1 IH1 r2 IH2|r1 IH1|p n|p|g r1 IH1|g|c];
    intros a k res H; simpl in H |- *.
  - now exists a.
  - destruct (todo a) as [|x t] eqn:T; [discriminate|].
    destruct (p x) eqn:Hp; [|discriminate].
    eexists; split; [|exact H]. now exists x, t.
  - destruct (at_bound nl (seen a)) eqn:B; [|discriminate]. now exists a.
  - destruct (at_bound nl (todo a)) eqn:B; [|discriminate]. now exists a.
  - destruct (IH1 _ _ _ H) as (c & Hc & H2).
    destruct (IH2 _ _ _ H2) as (b & Hb & Hk).
    exists b. split; [now exists c|assumption].
  - destruct (rmatch r1 a k) as [r|] eqn:M.
    + inversion H; subst r. destruct (IH1 _ _ _ M) as (b & Hb & Hk).
      exists b. auto.
    + destruct (IH2 _ _ _ H) as (b & Hb & Hk). exists b. auto.
  - destruct (rmatch r1 a k) as [r|] eqn:M.
    + inversion H; subst r. destruct (IH1 _ _ _ M) as (b & Hb & Hk).
      exists b. auto.
    + exists a. auto.
  - destruct (greedy_sound _ _ _ _ _ _ _ H) as (w & t & Hw & Hn & Htd & Hk).
    eexists; split; [|exact Hk]. now exists w, t.
  - destruct (lazy_sound _ _ _ _ _ _ H) as (w & t & Hw & Htd & Hk).
    eexists; split; [|exact Hk]. now exists w, t.
  - destruct (IH1 _ _ _ H) as (c & Hc & Hk).
    exists (capture g a c). split; [now exists c|assumption].
  - destruct (caps a g) as [w|] eqn:C; [|discriminate].
    destruct (strip_prefix w (todo a)) as [t|] eqn:P; [|discriminate].
    apply strip_prefix_Some in P.
    eexists; split; [|exact H]. now exists w, t.
  - destruct (seen a) as [|x s] eqn:S; [discriminate|].
    destruct (Ascii.eqb x c) eqn:E; [|discriminate].
    apply Ascii.eqb_eq in E; subst x.
    exists a. split; [split; [now exists s|reflexivity]|assumption].
Qed.

Theorem rmatch_complete (r : regex) :
  forall (a b : cursor) (k : cursor -> option cursor),
    den r a b -> k b <> None -> rmatch r a k <> None.
Proof.
  induction r as [|p| | |r1 IH1 r2 IH2|r1 IH1 r2 IH2|r1 IH1|p n|p|g r1 IH1|g|c];
    intros a b k D K; simpl in D |- *.
  - now subst b.
  - destruct D as (x & t & Hp & T & ->). now rewrite T, Hp.
  - destruct D as [B ->]. now rewrite B.
  - destruct D as [B ->]. now rewrite B.
  - destruct D as (c & D1 & D2).
    apply (IH1 a c); [assumption|]. now apply (IH2 c b).
  - destruct (rmatch r1 a k) eqn:M; [discriminate|].
    destruct D as [D|D]; [|now apply (IH2 a b)].
    exfalso. now apply (IH1 a b k D K).
  - destruct (rmatch r1 a k) eqn:M; [discriminate|].
    destruct D as [D| ->]; [|assumption].
    exfalso. now apply (IH1 a b k D K).
  - destruct D as (w & t & Hw & Hn & T & ->). rewrite T.
    now apply greedy_complete.
  - destruct D as (w & t & Hw & T & ->). rewrite T.
    now apply lazy_complete.
  - destruct D as (c & D & ->). now apply (IH1 a c).
  - destruct D as (w & t & C & T & ->).
    now rewrite C, T, strip_prefix_app.
  - destruct D as [[s S] ->]. now rewrite S, Ascii.eqb_refl.
Qed.

(** A move of a pattern consumes a piece of the text ahead. *)
Lemma den_moves (r : regex) :
  forall a b, den r a b ->
    exists w, todo a = w ++ todo b /\ seen b = rev w ++ seen a.
Proof.
  induction r as [|p| | |r1 IH1 r2 IH2|r1 IH1 r2 IH2|r1 IH1|p n|p|g r1 IH1|g|c];
    intros a b D; simpl in D.
  - subst b. now exists [].
  - destruct D as (x & t & _ & T & ->). now exists [x].
  - destruct D as [_ ->]. now exists [].
  - destruct D as [_ ->]. now exists [].
  - destruct D as (c & D1 & D2).
    destruct (IH1 _ _ D1) as (w1 & T1 & S1).
    destruct (IH2 _ _ D2) as (w2 & T2 & S2).
    exists (w1 ++ w2).
    now rewrite T1, T2, S2, S1, rev_app_distr, <- !app_assoc.
  - destruct D as [D|D]; auto.
  - destruct D as [D| ->]; auto. now exists [].
  - destruct D as (w & t & _ & _ & T & ->). now exists w.
  - destruct D as (w & t & _ & T & ->). now exists w.
  - destruct D as (c & D & ->). simpl. auto.
  - destruct D as (w & t & _ & T & ->). now exists w.
  - destruct D as [_ ->]. now exists [].
Qed.

Lemma consumed_eq (a : cursor) (w t : str) (cp : captures) :
  consumed a (Cursor (rev w ++ seen a) t cp) = w.
Proof.
  unfold consumed; simpl.
  rewrite length_app, length_rev, Nat.add_sub.
  rewrite <- (length_rev w) at 1.
  now rewrite firstn_app, Nat.sub_diag, firstn_all, firstn_O, app_nil_r, rev_involutive.
Qed.

Lemma consumed_den (r : regex) (a b : cursor) :
  den r a b -> todo a = consumed a b ++ todo b.
Proof.
  intros D. destruct (den_moves _ _ _ D) as (w & T & S).
  destruct b as [sb tb cb]; simpl in *. subst sb.
  now rewrite consumed_eq.
Qed.

(** ** [search] finds a match exactly when there is one *)

Lemma search_at_sound (r : regex) (td : str) :
  forall (sn : str) (m : match_obj),
    search_at r sn td = Some m ->
    exists pre post b,
      td = pre ++ post
      /\ den r (Cursor (rev pre ++ sn) post no_captures) b
      /\ m = Match (length sn + length pre) (length (seen b)) (caps b).
Proof.
  induction td as [|x td IH]; intros sn m H; simpl in H.
  - destruct (rmatch r (Cursor sn [] no_captures) Some) as [c|] eqn:M;
      [|discriminate].
    destruct (rmatch_sound _ _ _ _ M) as (b & D & K).
    inversion K; subst c. inversion H; subst m.
    exists [], [], b. simpl. now rewrite Nat.add_0_r.
  - destruct (rmatch r (Cursor sn (x :: td) no_captures) Some) as [c|] eqn:M.
    + destruct (rmatch_sound _ _ _ _ M) as (b & D & K).
      inversion K; subst c. inversion H; subst m.
      exists [], (x :: td), b. simpl. now rewrite Nat.add_0_r.
    + destruct (IH _ _ H) as (pre & post & b & T & D & ->).
      exists (x :: pre), post, b. simpl.
      rewrite <- app_assoc. simpl.
      repeat split; auto; [now subst td|].
      f_equal. lia.
Qed.

Lemma search_at_complete (r : regex) (pre : str) :
  forall (sn post : str) (b : cursor),
    den r (Cursor (rev pre ++ sn) post no_captures) b ->
    search_at r sn (pre ++ post) <> None.
Proof.
  induction pre as [|x pre IH]; intros sn post b D; simpl in *.
  - pose proof (rmatch_complete r _ b Some D ltac:(discriminate)) as M.
    destruct post; simpl;
      destruct (rmatch r _ Some); try discriminate; now elim M.
  - destruct (rmatch r _ Some); [discriminate|].
    apply (IH (x :: sn) post b).
    now rewrite <- app_assoc in D.
Qed.

Theorem search_sound (r : regex) (text : str) (m : match_obj) :
  search r text = Some m ->
  exists pre post b,
    text = pre ++ post
    /\ den r (Cursor (rev pre) post no_captures) b
    /\ m_start m = length pre
    /\ m_end m = length (seen b)
    /\ m_group m = caps b.
Proof.
  intros H. destruct (search_at_sound _ _ _ _ H) as (pre & post & b & T & D & ->).
  exists pre, post, b. rewrite app_nil_r in D. simpl. auto.
Qed.

Theorem search_complete (r : regex) (pre post : str) (b : cursor) :
  den r (Cursor (rev pre) post no_captures) b ->
  search r (pre ++ post) <> None.
Proof.
  intros D. apply (search_at_complete r pre [] post b).
  now rewrite app_nil_r.
Qed.

(** The search is leftmost: a match at the very start is the one
    returned. *)
Lemma search_first (r : regex) (text : str) (b : cursor) :
  den r (Cursor [] text no_captures) b ->
  exists c, rmatch r (Cursor [] text no_captures) Some = Some c
            /\ search r text = Some (Match 0 (length (seen c)) (caps c)).
Proof.
  intros D. pose proof (rmatch_complete r _ b Some D ltac:(discriminate)) as M.
  destruct (rmatch r (Cursor [] text no_captures) Some) as [c|] eqn:E;
    [|contradiction].
  exists c. split; [reflexivity|].
  unfold search. destruct text; simpl; now rewrite E.
Qed.

(** *** The sub-patterns, read declaratively *)

Lemma consumed_cursor (sn td t w : str) (cp cp' : captures) :
  consumed (Cursor sn td cp) (Cursor (rev w ++ sn) t cp') = w.
Proof. apply (consumed_eq (Cursor sn td cp)). Qed.

Lemma forallb_eqb_repeat (c : ascii) (w : str) :
  forallb (Ascii.eqb c) w = true -> w = repeat c (length w).
Proof.
  induction w as [|x w IH]; simpl; [reflexivity|].
  intros H. apply andb_prop in H as [E H].
  apply Ascii.eqb_eq in E. subst x. f_equal. auto.
Qed.

Lemma forallb_repeat (p : ascii -> bool) (c : ascii) (n : nat) :
  p c = true -> forallb p (repeat c n) = true.
Proof. intros H. induction n; simpl; [reflexivity|]. now rewrite H. Qed.

Lemma is_marker_cases (c : ascii) :
  is_marker c = true <-> c = tilde \/ c = backtick.
Proof.
  unfold is_marker, is_tilde, is_backtick.
  rewrite orb_true_iff, !Ascii.eqb_eq. intuition congruence.
Qed.

Lemma line_start_bound (pre : str) :
  at_bound nl (rev pre) = true <-> line_start pre.
Proof.
  rewrite at_bound_spec. unfold line_start. split.
  - intros [H|[t H]].
    + left. apply (f_equal (@rev ascii)) in H. now rewrite rev_involutive in H.
    + right. exists (rev t). apply (f_equal (@rev ascii)) in H.
      now rewrite rev_involutive in H.
  - intros [->|[p ->]]; [now left|right].
    exists (rev p). now rewrite rev_app_distr.
Qed.

Lemma line_end_bound (post : str) :
  at_bound nl post = true <-> line_end post.
Proof. apply at_bound_spec. Qed.

Lemma den_fence_group_elim (sn td : str) (cp : captures) (b : cursor) :
  den fence_group (Cursor sn td cp) b ->
  exists f t, fence_string f /\ at_bound nl sn = true /\ td = f ++ t
              /\ b = Cursor (rev f ++ sn) t (set_capture Gfence f cp).
Proof.
  simpl. intros (c & (c0 & (B & ->) & D) & ->).
  assert (exists x w t, is_marker x = true /\ forallb (Ascii.eqb x) w = true
                        /\ 3 <= length w /\ td = w ++ t
                        /\ c = Cursor (rev w ++ sn) t cp) as
      (x & w & t & Hx & Hw & Hn & T & ->).
  { destruct D as [D|D]; destruct D as (w & t & Hw & Hn & T & ->); simpl in *.
    - exists tilde, w, t. auto.
    - exists backtick, w, t. auto. }
  exists w, t. unfold capture. rewrite consumed_cursor. simpl.
  repeat split; auto.
  exists x, (length w). repeat split; auto. now apply forallb_eqb_repeat.
Qed.

Lemma den_fence_group_intro (sn f t : str) (cp : captures) :
  fence_string f -> at_bound nl sn = true ->
  den fence_group (Cursor sn (f ++ t) cp)
      (Cursor (rev f ++ sn) t (set_capture Gfence f cp)).
Proof.
  intros (x & n & Hx & Hn & ->) B. simpl.
  exists (Cursor (rev (repeat x n) ++ sn) t cp). split.
  - exists (Cursor sn (repeat x n ++ t) cp). split; [auto|].
    apply is_marker_cases in Hx as [-> | ->]; [left|right].
    + exists (repeat tilde n), t. simpl.
      repeat split; [now apply forallb_repeat|now rewrite repeat_length].
    + exists (repeat backtick n), t. simpl.
      repeat split; [now apply forallb_repeat|now rewrite repeat_length].
  - unfold capture. now rewrite consumed_cursor.
Qed.

Lemma den_opt_lit_elim (x : ascii) (sn td : str) (cp : captures) (b : cursor) :
  den (Opt (lit x)) (Cursor sn td cp) b ->
  exists o t, opt_char x o /\ td = o ++ t /\ b = Cursor (rev o ++ sn) t cp.
Proof.
  simpl. intros [(y & t & E & T & ->)| ->].
  - apply Ascii.eqb_eq in E. subst y. exists [x], t. unfold opt_char. auto.
  - exists [], td. unfold opt_char. auto.
Qed.

Lemma den_opt_lit_intro (x : ascii) (sn o t : str) (cp : captures) :
  opt_char x o ->
  den (Opt (lit x)) (Cursor sn (o ++ t) cp) (Cursor (rev o ++ sn) t cp).
Proof.
  intros [-> | ->]; simpl; [now right|left].
  exists x, t. now rewrite Ascii.eqb_refl.
Qed.

Lemma den_deco_group_elim (sn td : str) (cp : captures) (b : cursor) :
  den deco_group (Cursor sn td cp) b ->
  exists deco lang t,
    annotation deco lang /\ td = deco ++ t
    /\ b = Cursor (rev deco ++ sn) t
                  (set_capture Gdeco deco (set_capture Glang lang cp)).
Proof.
  change (den deco_group (Cursor sn td cp) b) with
    (exists c4, (exists c1, den (Opt (lit "{")) (Cursor sn td cp) c1 /\
       exists c2, den (Opt (lit ".")) c1 c2 /\
       exists c3, (exists c', den (Many lang_char 0) c2 c'
                              /\ c3 = capture Glang c2 c')
                  /\ den (Opt (lit "}")) c3 c4)
     /\ b = capture Gdeco (Cursor sn td cp) c4).
  intros (c4 & (c1 & D1 & c2 & D2 & c3 & (c' & D3 & ->) & D4) & ->).
  apply den_opt_lit_elim in D1 as (o & t1 & Ho & -> & ->).
  apply den_opt_lit_elim in D2 as (d & t2 & Hd & -> & ->).
  destruct D3 as (lang & t3 & Hl & _ & T & ->). simpl in T. subst t2.
  unfold capture at 1 in D4. rewrite consumed_cursor in D4.
  cbn [seen todo caps] in D4.
  apply den_opt_lit_elim in D4 as (c & t4 & Hc & -> & ->).
  exists (o ++ d ++ lang ++ c), lang, t4.
  split; [now exists o, d, c|].
  split; [now rewrite <- !app_assoc|].
  unfold capture.
  replace (rev c ++ rev lang ++ rev d ++ rev o ++ sn)
    with (rev (o ++ d ++ lang ++ c) ++ sn)
    by now rewrite !rev_app_distr, <- !app_assoc.
  now rewrite consumed_cursor.
Qed.

Lemma den_deco_group_intro (sn deco lang t : str) (cp : captures) :
  annotation deco lang ->
  den deco_group (Cursor sn (deco ++ t) cp)
      (Cursor (rev deco ++ sn) t
              (set_capture Gdeco deco (set_capture Glang lang cp))).
Proof.
  intros (o & d & c & Ho & Hd & Hc & -> & Hl).
  change (exists c4, (exists c1,
       den (Opt (lit "{")) (Cursor sn ((o ++ d ++ lang ++ c) ++ t) cp) c1 /\
       exists c2, den (Opt (lit ".")) c1 c2 /\
       exists c3, (exists c', den (Many lang_char 0) c2 c'
                              /\ c3 = capture Glang c2 c')
                  /\ den (Opt (lit "}")) c3 c4)
     /\ Cursor (rev (o ++ d ++ lang ++ c) ++ sn) t
               (set_capture Gdeco (o ++ d ++ lang ++ c)
                  (set_capture Glang lang cp))
        = capture Gdeco (Cursor sn ((o ++ d ++ lang ++ c) ++ t) cp) c4).
  rewrite <- !app_assoc.
  eexists. split.
  - eexists. split; [now apply den_opt_lit_intro|].
    eexists. split; [now apply den_opt_lit_intro|].
    eexists. split.
    + eexists. split; [|reflexivity].
      exists lang, (c ++ t). simpl. repeat split; auto. lia.
    + unfold capture. rewrite consumed_cursor. cbn [seen todo caps].
      now apply den_opt_lit_intro.
  - unfold capture. cbn [seen todo caps].
    replace (rev c ++ rev lang ++ rev d ++ rev o ++ sn)
      with (rev (o ++ d ++ lang ++ c) ++ sn)
      by now rewrite !rev_app_distr, <- !app_assoc.
    now rewrite consumed_cursor.
Qed.

Lemma den_many_intro (p : ascii -> bool) (n : nat) (sn w t : str) (cp : captures) :
  forallb p w = true -> n <= length w ->
  den (Many p n) (Cursor sn (w ++ t) cp) (Cursor (rev w ++ sn) t cp).
Proof. intros Hw Hn. exists w, t. auto. Qed.

Lemma den_few_intro (p : ascii -> bool) (sn w t : str) (cp : captures) :
  forallb p w = true ->
  den (Few p) (Cursor sn (w ++ t) cp) (Cursor (rev w ++ sn) t cp).
Proof. intros Hw. exists w, t. auto. Qed.

Lemma den_lit_intro (x : ascii) (sn t : str) (cp : captures) :
  den (lit x) (Cursor sn (x :: t) cp) (Cursor (x :: sn) t cp).
Proof. exists x, t. simpl. now rewrite Ascii.eqb_refl. Qed.

Lemma forallb_any (w : str) : forallb any w = true.
Proof. induction w; simpl; auto. Qed.

Lemma lookbehind_line_start (code rest s : str) :
  rev code ++ nl :: rest = nl :: s -> line_start code.
Proof.
  intros H. destruct (rev code) as [|x rc] eqn:E.
  - left. apply (f_equal (@rev ascii)) in E. now rewrite rev_involutive in E.
  - right. simpl in H. inversion H; subst x.
    exists (rev rc). apply (f_equal (@rev ascii)) in E.
    now rewrite rev_involutive in E.
Qed.

(** Every move of [FENCED_BLOCK_RE] reads a well-formed region. *)
Lemma block_elim (sn td : str) (b : cursor) :
  den FENCED_BLOCK_RE (Cursor sn td no_captures) b ->
  exists f sp1 deco lang sp2 code sp3 post,
    at_bound nl sn = true /\ fence_string f /\ blank sp1
    /\ annotation deco lang /\ blank sp2 /\ line_start code
    /\ blank sp3 /\ line_end post
    /\ td = (f ++ sp1 ++ deco ++ sp2) ++ [nl] ++ code ++ (f ++ sp3) ++ post
    /\ seen b = rev ((f ++ sp1 ++ deco ++ sp2) ++ [nl] ++ code ++ f ++ sp3) ++ sn
    /\ todo b = post
    /\ caps b Gfence = Some f
    /\ cap_text (caps b) Glang = lang
    /\ caps b Gcode = Some code.
Proof.
  unfold FENCED_BLOCK_RE. intros D.
  destruct D as (c1 & D1 & D).
  apply den_fence_group_elim in D1 as (f & t1 & Hf & B & -> & ->).
  destruct D as (c2 & (sp1 & t2 & Hsp1 & _ & T & ->) & D).
  cbn [seen todo caps] in *. subst t1.
  destruct D as (c3 & D3 & D).
  assert (exists deco lang t3 cp3,
             annotation deco lang /\ t2 = deco ++ t3
             /\ c3 = Cursor (rev deco ++ rev sp1 ++ rev f ++ sn) t3 cp3
             /\ cp3 Gfence = Some f /\ cap_text cp3 Glang = lang)
    as (deco & lang & t3 & cp3 & Hdeco & -> & -> & Cf & Cl).
  { destruct D3 as [D3| ->].
    - apply den_deco_group_elim in D3 as (deco & lang & t3 & Hd & -> & ->).
      exists deco, lang, t3. eexists. repeat split; auto.
    - exists [], [], t2. eexists. repeat split; auto.
      exists [], [], []. unfold opt_char. auto. }
  destruct D as (c4 & (sp2 & t4 & Hsp2 & _ & T & ->) & D).
  cbn [seen todo caps] in *. subst t3.
  destruct D as (c5 & (x & t5 & E & T & ->) & D).
  cbn [seen todo caps] in *. apply Ascii.eqb_eq in E. subst x t4.
  destruct D as (c6 & (c & (code & t6 & _ & T & ->) & ->) & D).
  cbn [seen todo caps] in *. subst t5.
  unfold capture in D.
  rewrite consumed_cursor in D. cbn [seen todo caps] in D.
  destruct D as (c7 & ((s & S) & ->) & D).
  cbn [seen todo caps] in *.
  apply lookbehind_line_start in S.
  destruct D as (c8 & (w & t8 & C & T & ->) & D).
  cbn [seen todo caps] in *.
  unfold set_capture in C. simpl in C. rewrite Cf in C. inversion C; subst w t6.
  destruct D as (c9 & (sp3 & post & Hsp3 & _ & T & ->) & D).
  cbn [seen todo caps] in *. subst t8.
  destruct D as [E ->]. cbn [seen todo caps] in *.
  apply line_end_bound in E.
  exists f, sp1, deco, lang, sp2, code, sp3, post.
  repeat split; auto.
  - now rewrite <- !app_assoc.
  - rewrite !rev_app_distr. simpl. now rewrite <- !app_assoc.
Qed.

(** Conversely a text of that shape is matched at that place. *)
Lemma block_intro (sn f sp1 deco lang sp2 code sp3 post : str) :
  at_bound nl sn = true -> fence_string f -> blank sp1 ->
  annotation deco lang -> blank sp2 -> line_start code ->
  blank sp3 -> line_end post ->
  exists b,
    den FENCED_BLOCK_RE
        (Cursor sn ((f ++ sp1 ++ deco ++ sp2) ++ [nl] ++ code ++ (f ++ sp3) ++ post)
                no_captures) b.
Proof.
  intros B Hf H1 Hd H2 Hc H3 He.
  rewrite <- !app_assoc. unfold FENCED_BLOCK_RE.
  eexists. eexists. split; [now apply den_fence_group_intro|].
  eexists. split; [now apply den_many_intro; [|lia]|].
  eexists. split; [left; now apply den_deco_group_intro; eauto|].
  eexists. split; [now apply den_many_intro; [|lia]|].
  eexists. split; [apply den_lit_intro|].
  eexists. split.
  { eexists. split; [apply den_few_intro, forallb_any|reflexivity]. }
  unfold capture. rewrite consumed_cursor. cbn [seen todo caps].
  eexists. split.
  { split; [|reflexivity]. cbn [seen].
    destruct Hc as [->|[p ->]]; [simpl; eauto|].
    rewrite rev_app_distr. simpl. eauto. }
  eexists. split.
  { exists f, (sp3 ++ post). cbn [seen todo caps]. repeat split. }
  eexists. split; [now apply den_many_intro; [|lia]|].
  split; [|reflexivity]. cbn [todo]. now apply line_end_bound.
Qed.

(** Every move of [FENCE_RE] reads an opening line up to its end. *)
Lemma fence_elim (sn td : str) (b : cursor) :
  den FENCE_RE (Cursor sn td no_captures) b ->
  exists f sp1 deco lang post,
    at_bound nl sn = true /\ fence_string f /\ blank sp1
    /\ annotation deco lang /\ line_end post
    /\ td = f ++ sp1 ++ deco ++ post
    /\ caps b Gfence = Some f.
Proof.
  unfold FENCE_RE. intros D.
  destruct D as (c1 & D1 & D).
  apply den_fence_group_elim in D1 as (f & t1 & Hf & B & -> & ->).
  destruct D as (c2 & (sp1 & t2 & Hsp1 & _ & T & ->) & D).
  cbn [seen todo caps] in *. subst t1.
  destruct D as (c3 & D3 & D).
  apply den_deco_group_elim in D3 as (deco & lang & post & Hd & -> & ->).
  destruct D as [E ->]. cbn [seen todo caps] in *.
  apply line_end_bound in E.
  exists f, sp1, deco, lang, post. repeat split; auto.
Qed.

Lemma length_region_prefix (pre span : str) :
  length (rev span ++ rev pre) = length (pre ++ span).
Proof. rewrite !length_app, !length_rev. lia. Qed.

(** What [FENCED_BLOCK_RE.search] returns is a well-formed region of the
    text, and the groups of the match are its pieces. *)
Theorem search_block (text : str) (m : match_obj) :
  search FENCED_BLOCK_RE text = Some m ->
  exists R,
    well_formed R /\ text = region_text R
    /\ m_start m = length (r_pre R)
    /\ m_end m = length (r_pre R ++ region_span R)
    /\ m_group m Gfence = Some (r_fence R)
    /\ cap_text (m_group m) Glang = r_lang R
    /\ m_group m Gcode = Some (r_code R).
Proof.
  intros H.
  destruct (search_sound _ _ _ H) as (pre & post0 & b & -> & D & Hs & He & Hg).
  destruct (block_elim _ _ _ D)
    as (f & sp1 & deco & lang & sp2 & code & sp3 & post & B & Hf & H1 & Hd
        & H2 & Hc & H3 & Hp & T & S & _ & Cf & Cl & Cc).
  exists (Region pre f sp1 deco lang sp2 code sp3 post).
  split; [constructor; simpl; auto; now apply line_start_bound|].
  unfold region_text, region_span, open_line, close_line; simpl.
  rewrite Hg, Hs, He, S, T.
  repeat split; auto.
  - now app_norm.
  - rewrite length_region_prefix. now app_norm.
Qed.

(** A text that contains a well-formed region has a match (not
    necessarily that one: an earlier or shorter one wins). *)
Theorem block_found (R : region) :
  well_formed R -> search FENCED_BLOCK_RE (region_text R) <> None.
Proof.
  intros [Hs Hf H1 Hd H2 Hc H3 He].
  destruct (block_intro (rev (r_pre R)) (r_fence R) (r_sp1 R) (r_deco R)
              (r_lang R) (r_sp2 R) (r_code R) (r_sp3 R) (r_post R))
    as (b & D); auto.
  { now apply line_start_bound. }
  unfold region_text, region_span, open_line, close_line.
  rewrite <- !app_assoc in *.
  exact (search_complete _ _ _ _ D).
Qed.

(** What [FENCE_RE.search] returns is an opening line. *)
Theorem search_fence (text : str) (m : match_obj) :
  search FENCE_RE text = Some m ->
  exists pre f sp1 deco lang post,
    text = pre ++ f ++ sp1 ++ deco ++ post
    /\ line_start pre /\ fence_string f /\ blank sp1
    /\ annotation deco lang /\ line_end post
    /\ m_start m = length pre
    /\ m_group m Gfence = Some f.
Proof.
  intros H.
  destruct (search_sound _ _ _ H) as (pre & post0 & b & -> & D & Hs & He & Hg).
  destruct (fence_elim _ _ _ D)
    as (f & sp1 & deco & lang & post & B & Hf & H1 & Hd & Hp & -> & Cf).
  exists pre, f, sp1, deco, lang, post. rewrite Hg.
  repeat split; auto. now apply line_start_bound.
Qed.

(** ** Reading an opening line is unambiguous *)

Lemma nl_free_app (a b : str) :
  nl_free (a ++ b) = nl_free a && nl_free b.
Proof. apply forallb_app. Qed.

Lemma forallb_impl (p q : ascii -> bool) (w : str) :
  (forall c, p c = true -> q c = true) ->
  forallb p w = true -> forallb q w = true.
Proof.
  intros Hpq. induction w as [|x w IH]; simpl; [auto|].
  intros H. apply andb_prop in H as [Hx Hw]. now rewrite (Hpq _ Hx), IH.
Qed.

(** The first newline of a text splits it in one way only. *)
Lemma first_nl (l : str) :
  forall (p X Y : str),
    nl_free l = true -> l ++ nl :: X = p ++ nl :: Y ->
    (p = l /\ X = Y) \/ (exists p', p = l ++ nl :: p' /\ X = p' ++ nl :: Y).
Proof.
  induction l as [|c l IH]; intros p X Y Hl E; simpl in *.
  - destruct p as [|d p]; simpl in E.
    + left. now inversion E.
    + right. inversion E; subst d. now exists p.
  - apply andb_prop in Hl as [Hc Hl].
    destruct p as [|d p]; simpl in E.
    + inversion E; subst c. now rewrite Ascii.eqb_refl in Hc.
    + inversion E; subst d.
      destruct (IH p X Y Hl H1) as [[-> ->]|(p' & -> & ->)]; [now left|right].
      now exists p'.
Qed.

Lemma first_nl_unique (l l' X Y : str) :
  nl_free l = true -> nl_free l' = true ->
  l ++ nl :: X = l' ++ nl :: Y -> l = l' /\ X = Y.
Proof.
  intros Hl Hl' E. destruct (first_nl _ _ _ _ Hl E) as [[-> ->]|(p' & -> & _)];
    [auto|].
  rewrite nl_free_app in Hl'. apply andb_prop in Hl' as [_ Hl'].
  discriminate Hl'.
Qed.

Lemma is_marker_not_nl (c : ascii) : is_marker c = true -> Ascii.eqb c nl = false.
Proof. intros H. apply is_marker_cases in H as [-> | ->]; reflexivity. Qed.

Lemma fence_string_nl_free (f : str) : fence_string f -> nl_free f = true.
Proof.
  intros (c & n & Hc & _ & ->). apply forallb_repeat.
  now rewrite is_marker_not_nl.
Qed.

Lemma blank_nl_free (s : str) : blank s -> nl_free s = true.
Proof.
  apply forallb_impl. intros c H. apply Ascii.eqb_eq in H. now subst c.
Qed.

Lemma lang_char_cases (c : ascii) :
  lang_char c = true ->
  Ascii.eqb c nl = false /\ is_space c = false /\ is_marker c = false
  /\ Ascii.eqb c "{" = false /\ Ascii.eqb c "." = false
  /\ Ascii.eqb c "}" = false.
Proof.
  destruct c as [b0 b1 b2 b3 b4 b5 b6 b7].
  destruct b0, b1, b2, b3, b4, b5, b6, b7; vm_compute; intros H;
    try discriminate H; repeat split.
Qed.

Lemma lang_nl_free (lang : str) :
  forallb lang_char lang = true -> nl_free lang = true.
Proof.
  apply forallb_impl. intros c H.
  destruct (lang_char_cases _ H) as (E & _). now rewrite E.
Qed.

Lemma opt_char_nl_free (c : ascii) (o : str) :
  Ascii.eqb c nl = false -> opt_char c o -> nl_free o = true.
Proof. intros E [-> | ->]; simpl; [reflexivity|]. now rewrite E. Qed.

Lemma annotation_nl_free (deco lang : str) :
  annotation deco lang -> nl_free deco = true.
Proof.
  intros (o & d & c & Ho & Hd & Hc & -> & Hl).
  rewrite !nl_free_app, (lang_nl_free _ Hl).
  now rewrite (opt_char_nl_free "{" o eq_refl Ho),
    (opt_char_nl_free "." d eq_refl Hd), (opt_char_nl_free "}" c eq_refl Hc).
Qed.

Lemma open_line_nl_free (R : region) :
  well_formed R -> nl_free (open_line R) = true.
Proof.
  intros W. unfold open_line. rewrite !nl_free_app.
  rewrite (fence_string_nl_free _ (wf_fence _ W)), (blank_nl_free _ (wf_sp1 _ W)),
    (annotation_nl_free _ _ (wf_deco _ W)), (blank_nl_free _ (wf_sp2 _ W)).
  reflexivity.
Qed.

Lemma after_fence_head (sp1 deco lang sp2 rest : str) :
  blank sp1 -> annotation deco lang -> blank sp2 ->
  head_is (fun c => negb (is_marker c)) (sp1 ++ deco ++ sp2 ++ nl :: rest) = true.
Proof.
  intros H1 (o & d & c & Ho & Hd & Hc & -> & Hl) H2.
  destruct sp1 as [|x sp1]; simpl.
  2:{ apply andb_prop in H1 as [E _]. apply Ascii.eqb_eq in E. now subst x. }
  destruct Ho as [-> | ->]; [|reflexivity].
  destruct Hd as [-> | ->]; [|reflexivity].
  destruct lang as [|x lang]; simpl.
  2:{ apply andb_prop in Hl as [E _].
      destruct (lang_char_cases _ E) as (_ & _ & M & _). now rewrite M. }
  destruct Hc as [-> | ->]; [|reflexivity].
  destruct sp2 as [|x sp2]; simpl; [reflexivity|].
  apply andb_prop in H2 as [E _]. apply Ascii.eqb_eq in E. now subst x.
Qed.

(** The marker string of an opening line is its whole leading run. *)
Lemma fence_run_unique (c c' : ascii) (n n' : nat) (X X' : str) :
  is_marker c = true -> is_marker c' = true ->
  0 < n -> 0 < n' ->
  head_is (fun c => negb (is_marker c)) X = true ->
  head_is (fun c => negb (is_marker c)) X' = true ->
  repeat c n ++ X = repeat c' n' ++ X' ->
  repeat c n = repeat c' n' /\ X = X'.
Proof.
  intros Hc Hc' Hn Hn' HX HX'.
  assert (G : forall k k', repeat c k ++ X = repeat c k' ++ X' ->
                           repeat c k = repeat c k' /\ X = X').
  { induction k as [|k IH]; intros [|k'] E; simpl in *.
    - auto.
    - subst X. simpl in HX. now rewrite Hc in HX.
    - subst X'. simpl in HX'. now rewrite Hc in HX'.
    - inversion E. destruct (IH _ H0) as [-> ->]. auto. }
  intros E. destruct n as [|n]; [lia|]. destruct n' as [|n']; [lia|].
  simpl in E. assert (c' = c) by now inversion E. subst c'.
  now apply G.
Qed.

Lemma skip_while_app (p : ascii -> bool) (w s : str) :
  forallb p w = true -> skip_while p (w ++ s) = skip_while p s.
Proof.
  induction w as [|x w IH]; simpl; [reflexivity|].
  intros H. apply andb_prop in H as [Hx Hw]. now rewrite Hx, IH.
Qed.

Lemma take_while_app (p : ascii -> bool) (w s : str) :
  forallb p w = true -> head_is p s = false ->
  take_while p (w ++ s) = w.
Proof.
  induction w as [|x w IH]; simpl; intros Hw Hs.
  - destruct s as [|y s]; simpl in *; [reflexivity|now rewrite Hs].
  - apply andb_prop in Hw as [Hx Hw]. now rewrite Hx, IH.
Qed.

Lemma after_lang_head (c sp2 rest : str) :
  opt_char "}" c -> blank sp2 ->
  exists z Z, c ++ sp2 ++ nl :: rest = z :: Z
              /\ (z = "}"%char \/ z = space \/ z = nl).
Proof.
  intros [-> | ->] H2; [|now exists "}"%char, (sp2 ++ nl :: rest); auto].
  destruct sp2 as [|x sp2]; [exists nl, rest; auto|].
  apply andb_prop in H2 as [E _]. apply Ascii.eqb_eq in E. subst x.
  exists space, (sp2 ++ nl :: rest). auto.
Qed.

Lemma scan_tag (lang Z : str) :
  forallb lang_char lang = true ->
  (exists z Z', Z = z :: Z' /\ (z = "}"%char \/ z = space \/ z = nl)) ->
  take_while lang_char (skip_opt "." (lang ++ Z)) = lang.
Proof.
  intros Hl (z & Z' & -> & Hz).
  assert (Hend : head_is lang_char (z :: Z') = false)
    by (destruct Hz as [-> |[-> | ->]]; reflexivity).
  destruct lang as [|x lang].
  - destruct Hz as [-> |[-> | ->]]; reflexivity.
  - cbn [app skip_opt]. pose proof Hl as Hl'.
    apply andb_prop in Hl' as [Hx _].
    destruct (lang_char_cases _ Hx) as (_ & _ & _ & _ & E & _). rewrite E.
    now apply (take_while_app lang_char (x :: lang)).
Qed.

Lemma scan_lang_spec (sp1 deco lang sp2 rest : str) :
  blank sp1 -> annotation deco lang -> blank sp2 ->
  scan_lang (sp1 ++ deco ++ sp2 ++ nl :: rest) = lang.
Proof.
  intros H1 (o & d & c & Ho & Hd & Hc & -> & Hl) H2.
  unfold scan_lang. rewrite (skip_while_app _ _ _ H1).
  pose proof (after_lang_head c sp2 rest Hc H2) as HZ.
  app_norm. set (Z := c ++ sp2 ++ nl :: rest) in *.
  destruct Ho as [-> | ->]; cbn [app].
  2:{ (* an opening brace *)
      change (skip_opt "{" (skip_while is_space ("{"%char :: d ++ lang ++ Z)))
        with (d ++ lang ++ Z).
      destruct Hd as [-> | ->]; cbn [app]; [now apply scan_tag|].
      change (skip_opt "." ("."%char :: lang ++ Z)) with (skip_opt "." ("." ++ lang ++ Z)).
      change (skip_opt "." ("." ++ lang ++ Z)) with (lang ++ Z).
      destruct HZ as (z & Z' & E & Hz).
      apply take_while_app; [assumption|]. rewrite E.
      destruct Hz as [-> |[-> | ->]]; reflexivity. }
  destruct Hd as [-> | ->]; cbn [app].
  2:{ (* a dot, no brace *)
      change (skip_opt "." (skip_opt "{" (skip_while is_space ("."%char :: lang ++ Z))))
        with (lang ++ Z).
      destruct HZ as (z & Z' & E & Hz).
      apply take_while_app; [assumption|]. rewrite E.
      destruct Hz as [-> |[-> | ->]]; reflexivity. }
  destruct lang as [|x lang]; cbn [app].
  2:{ (* a bare tag *)
      pose proof Hl as Hl'. apply andb_prop in Hl' as [Hx _].
      destruct (lang_char_cases _ Hx) as (_ & Es & _ & Eb & Ed & _).
      cbn [skip_while]. rewrite Es. cbn [skip_opt]. rewrite Eb.
      now apply (scan_tag (x :: lang)). }
  (* no tag at all *)
  subst Z. destruct Hc as [-> | ->]; cbn [app]; [|reflexivity].
  rewrite (skip_while_app _ _ _ H2). reflexivity.
Qed.

Lemma app_eq_length (a b a' b' : str) :
  a ++ b = a' ++ b' -> length a = length a' -> a = a' /\ b = b'.
Proof.
  revert a'. induction a as [|x a IH]; intros [|y a'] E L; simpl in *;
    try discriminate L; [auto|].
  inversion E; subst y. destruct (IH a' H1 ltac:(lia)) as [-> ->]. auto.
Qed.

(** A run of blanks up to the end of a line is read in one way only. *)
Lemma blank_run_unique (sp sp' post post' : str) :
  blank sp -> blank sp' -> line_end post -> line_end post' ->
  sp ++ post = sp' ++ post' -> sp = sp' /\ post = post'.
Proof.
  revert sp'. induction sp as [|x sp IH]; intros [|y sp'] B B' E E' H;
    simpl in *.
  - auto.
  - subst post. apply andb_prop in B' as [Hy _]. apply Ascii.eqb_eq in Hy.
    subst y. destruct E as [E|[q E]]; discriminate E.
  - subst post'. apply andb_prop in B as [Hx _]. apply Ascii.eqb_eq in Hx.
    subst x. destruct E' as [E'|[q E']]; discriminate E'.
  - apply andb_prop in B as [_ B]. apply andb_prop in B' as [_ B'].
    inversion H; subst y. destruct (IH sp' B B' E E' H2) as [-> ->]. auto.
Qed.

(** ** The body is the shortest one: the first closing line wins *)

(** [lazy] stops at the first place where the rest of the pattern
    succeeds. *)
Lemma lazy_first (p : ascii -> bool) (k : cursor -> option cursor)
    (cp : captures) (td : str) :
  forall (sn : str) (res : cursor),
    lazy p k sn td cp = Some res ->
    exists w t,
      td = w ++ t
      /\ k (Cursor (rev w ++ sn) t cp) = Some res
      /\ forall w1 w2, w = w1 ++ w2 -> w2 <> [] ->
                       k (Cursor (rev w1 ++ sn) (w2 ++ t) cp) = None.
Proof.
  induction td as [|x td IH]; intros sn res H; simpl in H.
  - destruct (k (Cursor sn [] cp)) as [r|] eqn:K; [|discriminate].
    exists [], []. simpl. rewrite K. repeat split; auto.
    intros w1 w2 E N. symmetry in E. apply app_eq_nil in E as [_ ->].
    contradiction.
  - destruct (k (Cursor sn (x :: td) cp)) as [r|] eqn:K.
    + exists [], (x :: td). simpl. rewrite K. repeat split; auto.
      intros w1 w2 E N. symmetry in E. apply app_eq_nil in E as [_ ->].
      contradiction.
    + destruct (p x) eqn:Hp; [|discriminate].
      destruct (IH _ _ H) as (w & t & -> & Hk & First).
      exists (x :: w), t. simpl. rewrite <- app_assoc. simpl.
      repeat split; auto.
      intros [|y w1] w2 E N; simpl in *.
      * now subst w2.
      * inversion E; subst y w. rewrite <- app_assoc. simpl.
        now apply First.
Qed.

Lemma rmatch_block (a : cursor) (k : cursor -> option cursor) :
  rmatch FENCED_BLOCK_RE a k =
  rmatch block_head a
    (fun mid =>
       lazy any (fun st1 => rmatch block_close (capture Gcode mid st1) k)
            (seen mid) (todo mid) (caps mid)).
Proof. reflexivity. Qed.

Lemma head_elim (sn td : str) (mid : cursor) :
  den block_head (Cursor sn td no_captures) mid ->
  exists f sp1 deco lang sp2 rest cp,
    at_bound nl sn = true /\ fence_string f /\ blank sp1
    /\ annotation deco lang /\ blank sp2
    /\ td = f ++ (sp1 ++ deco ++ sp2 ++ nl :: rest)
    /\ mid = Cursor (nl :: rev (f ++ sp1 ++ deco ++ sp2) ++ sn) rest cp
    /\ cp Gfence = Some f
    /\ cap_text cp Glang = lang.
Proof.
  unfold block_head. intros D.
  destruct D as (c1 & D1 & D).
  apply den_fence_group_elim in D1 as (f & t1 & Hf & B & -> & ->).
  destruct D as (c2 & (sp1 & t2 & Hsp1 & _ & T & ->) & D).
  cbn [seen todo caps] in *. subst t1.
  destruct D as (c3 & D3 & D).
  assert (exists deco lang t3 cp3,
             annotation deco lang /\ t2 = deco ++ t3
             /\ c3 = Cursor (rev deco ++ rev sp1 ++ rev f ++ sn) t3 cp3
             /\ cp3 Gfence = Some f /\ cap_text cp3 Glang = lang)
    as (deco & lang & t3 & cp3 & Hdeco & -> & -> & Cf & Cl).
  { destruct D3 as [D3| ->].
    - apply den_deco_group_elim in D3 as (deco & lang & t3 & Hd & -> & ->).
      exists deco, lang, t3. eexists. repeat split; auto.
    - exists [], [], t2. eexists. repeat split; auto.
      exists [], [], []. unfold opt_char. auto. }
  destruct D as (c4 & (sp2 & t4 & Hsp2 & _ & T & ->) & D).
  cbn [seen todo caps] in *. subst t3.
  destruct D as (x & t5 & E & T & ->).
  cbn [seen todo caps] in *. apply Ascii.eqb_eq in E. subst x t4.
  exists f, sp1, deco, lang, sp2, t5, cp3.
  repeat split; auto.
  rewrite !rev_app_distr. now app_norm.
Qed.

Lemma close_elim (f sn td : str) (cp : captures) (b : cursor) :
  cp Gfence = Some f ->
  den block_close (Cursor sn td cp) b ->
  exists sp3 post s,
    sn = nl :: s /\ blank sp3 /\ line_end post
    /\ td = f ++ sp3 ++ post
    /\ b = Cursor (rev sp3 ++ rev f ++ sn) post cp.
Proof.
  unfold block_close. intros Cf D.
  destruct D as (c7 & ((s & S) & ->) & D). cbn [seen todo caps] in *.
  destruct D as (c8 & (w & t8 & C & T & ->) & D). cbn [seen todo caps] in *.
  rewrite Cf in C. inversion C; subst w.
  destruct D as (c9 & (sp3 & post & Hsp3 & _ & T' & ->) & D).
  cbn [seen todo caps] in *. subst t8.
  destruct D as [E ->]. cbn [seen todo caps] in *.
  apply line_end_bound in E.
  exists sp3, post, s. repeat split; auto.
Qed.

Lemma close_intro (f s sp3 post : str) (cp : captures) :
  cp Gfence = Some f -> blank sp3 -> line_end post ->
  den block_close (Cursor (nl :: s) (f ++ sp3 ++ post) cp)
      (Cursor (rev sp3 ++ rev f ++ nl :: s) post cp).
Proof.
  intros Cf H3 He. unfold block_close.
  eexists. split; [split; [now exists s|reflexivity]|].
  eexists. split; [exists f, (sp3 ++ post); cbn [seen todo caps]; auto|].
  eexists. split; [now apply den_many_intro; [|lia]|].
  split; [|reflexivity]. cbn [todo]. now apply line_end_bound.
Qed.

Lemma line_start_suffix (w l : str) :
  line_start (w ++ l) -> l <> [] -> exists l', l = l' ++ [nl].
Proof.
  intros [E|[p E]] N.
  - apply app_eq_nil in E as [_ ->]. contradiction.
  - destruct (exists_last N) as (l' & x & ->).
    rewrite app_assoc in E. apply app_inj_tail in E as [_ ->]. now exists l'.
Qed.

Lemma line_start_seen (code s : str) :
  line_start code -> exists s', rev code ++ nl :: s = nl :: s'.
Proof.
  intros [->|[p ->]]; [simpl; eauto|].
  rewrite rev_app_distr. simpl. eauto.
Qed.

(** At the start of a well-formed region whose body holds no closing
    line, the matcher returns exactly that region. *)
Lemma rmatch_region (R : region) (sn : str) :
  well_formed R -> at_bound nl sn = true ->
  no_close_inside (r_fence R) (r_code R) ->
  exists c,
    rmatch FENCED_BLOCK_RE (Cursor sn (region_span R ++ r_post R) no_captures) Some
    = Some c
    /\ seen c = rev (region_span R) ++ sn
    /\ caps c Gfence = Some (r_fence R)
    /\ cap_text (caps c) Glang = r_lang R
    /\ caps c Gcode = Some (r_code R).
Proof.
  intros W B NC. destruct W as [Hs Hf H1 Hd H2 Hc H3 He].
  destruct R as [pre f sp1 deco lang sp2 code sp3 post].
  unfold region_span, open_line, close_line in *. cbn in *.
  (* there is a match here *)
  destruct (block_intro sn f sp1 deco lang sp2 code sp3 post)
    as (b & D); auto.
  pose proof (rmatch_complete _ _ _ Some D ltac:(discriminate)) as M.
  destruct (rmatch FENCED_BLOCK_RE _ Some) as [c|] eqn:E in M; [clear M|contradiction].
  revert E. app_norm. intros E.
  exists c. split; [exact E|].
  (* the opening line is read as written *)
  rewrite rmatch_block in E.
  apply rmatch_sound in E as (mid & Dh & L).
  apply head_elim in Dh
    as (f' & sp1' & deco' & lang' & sp2' & rest & cp & _ & Hf' & H1' & Hd'
        & H2' & T & -> & Cf & Cl).
  cbn [seen todo caps] in L.
  assert (f' = f /\ sp1' ++ deco' ++ sp2' = sp1 ++ deco ++ sp2
          /\ lang' = lang /\ rest = code ++ f ++ sp3 ++ post)
    as (-> & Eo & -> & ->).
  { destruct Hf as (x & n & Hx & Hn & ->).
    destruct Hf' as (x' & n' & Hx' & Hn' & ->).
    assert (HX : head_is (fun c => negb (is_marker c))
                   (sp1 ++ deco ++ sp2 ++ nl :: code ++ repeat x n ++ sp3 ++ post)
                 = true) by now apply after_fence_head with (lang := lang).
    assert (HX' : head_is (fun c => negb (is_marker c))
                    (sp1' ++ deco' ++ sp2' ++ nl :: rest) = true)
      by now apply after_fence_head with (lang := lang').
    destruct (fence_run_unique x x' n n' _ _ Hx Hx' ltac:(lia) ltac:(lia) HX HX' T)
      as [Ef T2]. clear T. rename T2 into T.
    split; [auto|].
    pose proof (f_equal scan_lang T) as El.
    change (nl :: code ++ repeat x n ++ sp3 ++ post)
      with (nl :: (code ++ repeat x n ++ sp3 ++ post)) in El.
    rewrite (scan_lang_spec sp1 deco lang sp2 _ H1 Hd H2) in El.
    rewrite (scan_lang_spec sp1' deco' lang' sp2' _ H1' Hd' H2') in El.
    rewrite !app_assoc in T.
    apply first_nl_unique in T as [Eo Er].
    - rewrite <- !app_assoc in Eo. subst rest.
      repeat split; auto. now app_norm.
    - rewrite !nl_free_app. now rewrite (blank_nl_free _ H1),
        (annotation_nl_free _ _ Hd), (blank_nl_free _ H2).
    - rewrite !nl_free_app. now rewrite (blank_nl_free _ H1'),
        (annotation_nl_free _ _ Hd'), (blank_nl_free _ H2'). }
  (* the body stops at the first closing line *)
  apply lazy_first in L as (w & t & T' & K & First).
  assert (Kclose : forall cur, cur = Cursor (rev code ++ nl :: rev (f ++ sp1' ++ deco' ++ sp2') ++ sn)
                             (f ++ sp3 ++ post) cp ->
            rmatch block_close
              (capture Gcode (Cursor (nl :: rev (f ++ sp1' ++ deco' ++ sp2') ++ sn)
                                     (code ++ f ++ sp3 ++ post) cp) cur) Some
            <> None).
  { intros cur ->. unfold capture. cbn [seen todo caps].
    destruct (line_start_seen code (rev (f ++ sp1' ++ deco' ++ sp2') ++ sn) Hc)
      as (s' & Es). rewrite Es.
    eapply rmatch_complete; [|discriminate].
    apply close_intro; auto. }
  assert (w = code /\ t = f ++ sp3 ++ post) as [-> ->].
  { apply app_eq_app in T' as (l & [[-> El]|[-> El]]).
    - (* the match stopped inside the body *)
      destruct l as [|y l]; [rewrite app_nil_r; simpl in El; auto|exfalso].
      destruct (line_start_suffix w (y :: l) Hc ltac:(discriminate))
        as (l' & El').
      unfold capture in K. cbn [seen todo caps] in K.
      apply rmatch_sound in K as (b' & Dc & _).
      apply (close_elim f) in Dc as (sp & post' & s & Es & Hsp & Hp' & Et & _);
        [|exact Cf].
      apply lookbehind_line_start in Es.
      subst t. rewrite El' in *.
      destruct Hp' as [->|[q ->]].
      + apply (f_equal nl_free) in Et.
        rewrite app_nil_r, !nl_free_app in Et.
        rewrite (fence_string_nl_free _ Hf), (blank_nl_free _ Hsp) in Et.
        simpl in Et. rewrite andb_false_r in Et. discriminate Et.
      + assert (Et' : (f ++ sp) ++ nl :: q = l' ++ nl :: (f ++ sp3 ++ post)).
        { app_norm. rewrite <- Et. now app_norm. }
        apply first_nl in Et'.
        2:{ rewrite nl_free_app.
            now rewrite (fence_string_nl_free _ Hf), (blank_nl_free _ Hsp). }
        destruct Et' as [[-> _]|(p' & -> & _)].
        * apply (NC w sp []); auto. now app_norm.
        * apply (NC w sp (p' ++ [nl])); auto. now app_norm.
    - (* the match went past the closing line *)
      destruct l as [|y l]; [rewrite app_nil_r in *; simpl in El; auto|exfalso].
      specialize (First code (y :: l) eq_refl ltac:(discriminate)).
      rewrite <- El in First.
      apply (Kclose _ eq_refl). exact First. }
  (* the closing line is read as written *)
  unfold capture in K. cbn [seen todo caps] in K.
  rewrite consumed_cursor in K.
  apply rmatch_sound in K as (b' & Dc & Eb). inversion Eb; subst b'; clear Eb.
  apply (close_elim f) in Dc as (sp & post' & s & Es & Hsp & Hp' & Et & ->);
    [|exact Cf].
  apply app_inv_head in Et.
  destruct (blank_run_unique _ _ _ _ H3 Hsp He Hp' Et) as [<- <-].
  cbn [seen todo caps].
  repeat split; auto.
  rewrite Eo.
  repeat (rewrite ?rev_app_distr; cbn [rev]). now app_norm.
Qed.

(** A text that starts with a well-formed region whose body holds no
    closing line: [search] returns that region. *)
Theorem first_close_wins (R : region) :
  well_formed R -> r_pre R = [] ->
  no_close_inside (r_fence R) (r_code R) ->
  exists m,
    search FENCED_BLOCK_RE (region_text R) = Some m
    /\ m_start m = 0
    /\ m_end m = length (region_span R)
    /\ group m Gfence = r_fence R
    /\ group m Glang = r_lang R
    /\ group m Gcode = r_code R.
Proof.
  intros W P NC.
  destruct (rmatch_region R [] W eq_refl NC) as (c & M & S & Cf & Cl & Cc).
  unfold region_text. rewrite P. cbn [app].
  exists (Match 0 (length (seen c)) (caps c)).
  split.
  - unfold search. set (t := region_span R ++ r_post R) in *.
    clearbody t. destruct t; cbn [search_at]; now rewrite M.
  - unfold group, cap_text in *. cbn [m_start m_end m_group].
    rewrite S, Cf, Cc, app_nil_r, length_rev. auto.
Qed.

(** ** Runs of marker characters *)

Lemma count_run_repeat (c : ascii) (n : nat) (rest : str) :
  n <= count_run c (repeat c n ++ rest).
Proof.
  induction n as [|n IH]; simpl; [lia|]. rewrite Ascii.eqb_refl. lia.
Qed.

Lemma leading_run_fence (f rest : str) :
  fence_string f -> 3 <= leading_run (f ++ rest).
Proof.
  intros (c & n & Hc & Hn & ->).
  destruct n as [|n]; [lia|]. unfold leading_run. cbn [repeat app].
  rewrite Hc. apply (Nat.le_trans _ _ _ Hn).
  apply (count_run_repeat c (S n) rest).
Qed.

(** ** Properties of the fence syntax *)

(** C1, as the code has it: for every region [FENCED_BLOCK_RE.search]
    recognizes, the body (group [code]) is everything between the newline
    that ends the opening line and the closing marker string; it is empty
    or it ends with the newline that precedes the closing line, which the
    lookbehind checks but leaves in the body. *)
Theorem body_text_extent (text : str) (m : match_obj) :
  search FENCED_BLOCK_RE text = Some m ->
  exists R,
    well_formed R /\ text = region_text R
    /\ m_start m = length (r_pre R)
    /\ m_end m = length (r_pre R ++ region_span R)
    /\ group m Gcode = r_code R
    /\ (r_code R = [] \/ exists body, r_code R = body ++ [nl]).
Proof.
  intros H. destruct (search_block text m H) as (R & W & T & Hs & He & _ & _ & Cc).
  exists R. unfold group, cap_text. rewrite Cc.
  conj_split; auto. exact (wf_code R W).
Qed.

Lemma body_text_extent_witness :
  search FENCED_BLOCK_RE hello_text = Some hello_match
  /\ exists R,
       well_formed R /\ hello_text = region_text R
       /\ m_start hello_match = length (r_pre R)
       /\ m_end hello_match = length (r_pre R ++ region_span R)
       /\ group hello_match Gcode = r_code R
       /\ (r_code R = [] \/ exists body, r_code R = body ++ [nl]).
Proof.
  assert (H : search FENCED_BLOCK_RE hello_text = Some hello_match)
    by (vm_compute; reflexivity).
  split; [exact H|]. exact (body_text_extent hello_text hello_match H).
Defined.

(** C1, as stated, fails: the body of ["~~~\nhello\n~~~"] is ["hello\n"],
    with the newline that precedes the closing line. *)
Lemma body_includes_final_newline :
  search FENCED_BLOCK_RE hello_text = Some hello_match
  /\ group hello_match Gcode = "hello" ++ [nl]
  /\ ~ (forall text m, search FENCED_BLOCK_RE text = Some m ->
        forall body, group m Gcode <> body ++ [nl]).
Proof.
  assert (H : search FENCED_BLOCK_RE hello_text = Some hello_match)
    by (vm_compute; reflexivity).
  assert (G : group hello_match Gcode = "hello" ++ [nl])
    by (vm_compute; reflexivity).
  repeat split; auto.
  intros C. exact (C hello_text hello_match H "hello" G).
Qed.

(** C6, as the code has it: the language annotation of an opening line
    is the tag, bare or with the decoration characters around it, between
    optional blanks, and nothing else up to the end of the line; the tag
    (group [lang]) is taken as written and is made of characters of
    [[a-zA-Z0-9_+-]] only.  A line with any other character after the
    marker string is not an opening line at all. *)
Theorem language_tag_shape (text : str) (m : match_obj) :
  search FENCED_BLOCK_RE text = Some m ->
  exists R,
    well_formed R /\ text = region_text R
    /\ m_start m = length (r_pre R)
    /\ open_line R = r_fence R ++ r_sp1 R ++ r_deco R ++ r_sp2 R
    /\ blank (r_sp1 R) /\ blank (r_sp2 R)
    /\ annotation (r_deco R) (r_lang R)
    /\ forallb lang_char (r_lang R) = true
    /\ group m Glang = r_lang R.
Proof.
  intros H. destruct (search_block text m H) as (R & W & T & Hs & _ & _ & Cl & _).
  exists R. conj_split; auto; try apply W.
  destruct (wf_deco R W) as (o & d & c & _ & _ & _ & _ & Hl). exact Hl.
Qed.

Lemma language_tag_shape_witness :
  search FENCED_BLOCK_RE python_text = Some python_match
  /\ group python_match Glang = "python"
  /\ group python_match Gcode = "x = 1" ++ [nl]
  /\ exists R,
       well_formed R /\ python_text = region_text R
       /\ m_start python_match = length (r_pre R)
       /\ open_line R = r_fence R ++ r_sp1 R ++ r_deco R ++ r_sp2 R
       /\ blank (r_sp1 R) /\ blank (r_sp2 R)
       /\ annotation (r_deco R) (r_lang R)
       /\ forallb lang_char (r_lang R) = true
       /\ group python_match Glang = r_lang R.
Proof.
  assert (H : search FENCED_BLOCK_RE python_text = Some python_match)
    by (vm_compute; reflexivity).
  split; [exact H|].
  split; [vm_compute; reflexivity|].
  split; [vm_compute; reflexivity|].
  exact (language_tag_shape python_text python_match H).
Defined.

(** C6, as stated, fails: with a character outside the class in the tag
    position the fence does not match with an empty tag, it does not match
    at all. *)
Lemma bad_tag_is_no_fence :
  search FENCED_BLOCK_RE bad_tag_text = None
  /\ ~ (exists m, search FENCED_BLOCK_RE bad_tag_text = Some m
                  /\ group m Glang = []).
Proof.
  assert (H : search FENCED_BLOCK_RE bad_tag_text = None)
    by (vm_compute; reflexivity).
  split; [exact H|]. intros (m & Hm & _). rewrite H in Hm. discriminate Hm.
Qed.

(** C8: a line recognized as an opening fence, by either pattern, or as
    a closing fence starts with a run of at least three copies of one
    marker character; so a line whose leading run is shorter than three
    is recognized as neither. *)
Theorem fence_lines_have_long_runs (text : str) (m : match_obj) :
  search FENCED_BLOCK_RE text = Some m \/ search FENCE_RE text = Some m ->
  exists pre line post,
    text = pre ++ line ++ post
    /\ line_start pre /\ nl_free line = true /\ line_end post
    /\ m_start m = length pre
    /\ 3 <= leading_run line
    /\ (search FENCED_BLOCK_RE text = Some m ->
        exists R,
          well_formed R /\ text = region_text R
          /\ pre = r_pre R /\ line = open_line R
          /\ line_start (r_pre R ++ open_line R ++ [nl] ++ r_code R)
          /\ m_end m = length (r_pre R ++ region_span R)
          /\ 3 <= leading_run (close_line R)).
Proof.
  intros [H|H].
  - destruct (search_block text m H) as (R & W & T & Hs & He & _ & _ & _).
    exists (r_pre R), (open_line R), ([nl] ++ r_code R ++ close_line R ++ r_post R).
    conj_split; auto.
    + rewrite T. unfold region_text, region_span. now app_norm.
    + apply W.
    + now apply open_line_nl_free.
    + right. now exists (r_code R ++ close_line R ++ r_post R).
    + apply leading_run_fence, W.
    + intros _. exists R. conj_split; auto.
      * destruct (wf_code R W) as [E|[p E]]; rewrite E.
        -- right. exists (r_pre R ++ open_line R). now app_norm.
        -- right. exists (r_pre R ++ open_line R ++ [nl] ++ p). now app_norm.
      * apply leading_run_fence, W.
  - destruct (search_fence text m H)
      as (pre & f & sp1 & deco & lang & post & T & Hs & Hf & H1 & Hd & He & Hm & _).
    exists pre, (f ++ sp1 ++ deco), post.
    conj_split; auto.
    + rewrite T. now app_norm.
    + rewrite !nl_free_app.
      now rewrite (fence_string_nl_free _ Hf), (blank_nl_free _ H1),
        (annotation_nl_free _ _ Hd).
    + now apply leading_run_fence.
    + intros H'. destruct (search_block text m H') as (R & W & T' & Hs' & He' & _).
      (* both patterns matched at the same place *)
      assert (E : pre ++ (f ++ sp1 ++ deco) ++ post
                  = r_pre R ++ open_line R
                    ++ nl :: (r_code R ++ close_line R ++ r_post R)).
      { transitivity text; [rewrite T; now app_norm|].
        rewrite T' at 1. unfold region_text, region_span. now app_norm. }
      apply app_eq_length in E as [Ep E]; [|congruence].
      assert (Hl : nl_free (f ++ sp1 ++ deco) = true).
      { rewrite !nl_free_app.
        now rewrite (fence_string_nl_free _ Hf), (blank_nl_free _ H1),
          (annotation_nl_free _ _ Hd). }
      assert (El : f ++ sp1 ++ deco = open_line R).
      { destruct He as [->|[q ->]].
        - rewrite app_nil_r in E. rewrite E, nl_free_app in Hl.
          apply andb_prop in Hl as [_ Hl]. discriminate Hl.
        - apply first_nl_unique in E as [E _]; auto.
          now apply open_line_nl_free. }
      exists R. conj_split; auto.
      * destruct (wf_code R W) as [Ec|[p Ec]]; rewrite Ec.
        -- right. exists (r_pre R ++ open_line R). now app_norm.
        -- right. exists (r_pre R ++ open_line R ++ [nl] ++ p). now app_norm.
      * apply leading_run_fence, W.
Qed.

Lemma fence_lines_have_long_runs_witness :
  (search FENCED_BLOCK_RE hello_text = Some hello_match
   \/ search FENCE_RE hello_text = Some hello_match)
  /\ exists pre line post,
       hello_text = pre ++ line ++ post
       /\ line_start pre /\ nl_free line = true /\ line_end post
       /\ m_start hello_match = length pre
       /\ 3 <= leading_run line
       /\ (search FENCED_BLOCK_RE hello_text = Some hello_match ->
           exists R,
             well_formed R /\ hello_text = region_text R
             /\ pre = r_pre R /\ line = open_line R
             /\ line_start (r_pre R ++ open_line R ++ [nl] ++ r_code R)
             /\ m_end hello_match = length (r_pre R ++ region_span R)
             /\ 3 <= leading_run (close_line R)).
Proof.
  assert (H : search FENCED_BLOCK_RE hello_text = Some hello_match)
    by (vm_compute; reflexivity).
  split; [now left|].
  exact (fence_lines_have_long_runs hello_text hello_match (or_introl H)).
Defined.

Lemma line_start_unlines (ls : list str) : line_start (unlines ls).
Proof.
  induction ls as [|l ls IH]; [now left|right].
  unfold unlines in *. simpl.
  destruct IH as [-> |[p ->]].
  - exists l. now rewrite app_nil_r.
  - exists (l ++ [nl] ++ p). now app_norm.
Qed.

Lemma no_close_unlines (f : str) (ls : list str) :
  fence_string f ->
  Forall (fun l => nl_free l = true /\ ~ closes f l) ls ->
  no_close_inside f (unlines ls).
Proof.
  intros Hf. induction ls as [|l ls IH]; intros HF c1 sp c2 E Hc Hsp.
  - destruct c1; [destruct Hf as (x & [|n] & _ & Hn & ->); [lia|]|];
      discriminate E.
  - inversion HF as [|? ? [Hl Hn] HF']; subst.
    assert (Hfs : nl_free (f ++ sp) = true).
    { rewrite nl_free_app.
      now rewrite (fence_string_nl_free _ Hf), (blank_nl_free _ Hsp). }
    unfold unlines in E. simpl in E. fold (unlines ls) in E.
    rewrite <- app_assoc in E. simpl in E.
    destruct Hc as [-> |[p ->]].
    + simpl in E. rewrite app_assoc in E.
      apply first_nl_unique in E as [E _]; auto.
      apply Hn. now exists sp.
    + rewrite <- app_assoc in E. simpl in E.
      apply first_nl in E; auto.
      destruct E as [[-> E]|(p' & -> & E)].
      * apply (IH HF' [] sp c2); auto. now left.
      * apply (IH HF' (p' ++ [nl]) sp c2); auto.
        -- rewrite E. now app_norm.
        -- right. now exists p'.
Qed.

Lemma no_close_inside_short (f code : str) :
  length code <= length f -> no_close_inside f code.
Proof.
  intros L c1 sp c2 E _ _. apply (f_equal (@length ascii)) in E.
  rewrite !length_app in E. simpl in E. lia.
Qed.

(** C9: each of the three decoration characters of the language
    annotation may be there or not, independently: an opening line made of
    the marker string, an optional [{], an optional [.], the tag and an
    optional [}] opens a fenced region whose language tag is the tag. *)
Theorem decoration_parts_optional (f o d c lang code : str) :
  fence_string f ->
  opt_char "{" o -> opt_char "." d -> opt_char "}" c ->
  forallb lang_char lang = true ->
  line_start code -> no_close_inside f code ->
  exists m,
    search FENCED_BLOCK_RE ((f ++ o ++ d ++ lang ++ c) ++ [nl] ++ code ++ f)
    = Some m
    /\ m_start m = 0
    /\ m_end m = length ((f ++ o ++ d ++ lang ++ c) ++ [nl] ++ code ++ f)
    /\ group m Gfence = f
    /\ group m Glang = lang
    /\ group m Gcode = code.
Proof.
  intros Hf Ho Hd Hc Hl Hcode NC.
  pose (R := Region [] f [] (o ++ d ++ lang ++ c) lang [] code [] []).
  assert (W : well_formed R).
  { constructor; simpl; auto; try reflexivity; try now left.
    now exists o, d, c. }
  destruct (first_close_wins R W eq_refl NC) as (m & S & Hs & He & Gf & Gl & Gc).
  exists m.
  assert (T : region_text R = (f ++ o ++ d ++ lang ++ c) ++ [nl] ++ code ++ f).
  { unfold region_text, region_span, open_line, close_line, R. simpl.
    rewrite !app_nil_r. now app_norm. }
  assert (T' : region_span R = (f ++ o ++ d ++ lang ++ c) ++ [nl] ++ code ++ f).
  { unfold region_span, open_line, close_line, R. simpl.
    rewrite !app_nil_r. now app_norm. }
  rewrite T in S. rewrite T' in He. auto 10.
Qed.

Lemma decoration_parts_optional_witness :
  exists m,
    search FENCED_BLOCK_RE
      (("~~~~" ++ "{" ++ [] ++ "python" ++ []) ++ [nl] ++ ("x" ++ [nl]) ++ "~~~~")
    = Some m
    /\ m_start m = 0
    /\ m_end m = length (("~~~~" ++ "{" ++ [] ++ "python" ++ [])
                         ++ [nl] ++ ("x" ++ [nl]) ++ "~~~~")
    /\ group m Gfence = "~~~~"
    /\ group m Glang = "python"
    /\ group m Gcode = "x" ++ [nl].
Proof.
  apply (decoration_parts_optional "~~~~" "{" [] [] "python" ("x" ++ [nl])).
  - exists tilde, 4. repeat split; try reflexivity; lia.
  - now right.
  - now left.
  - now left.
  - reflexivity.
  - right. now exists "x".
  - apply no_close_inside_short. simpl. lia.
Defined.

(** The three partly decorated opening lines of C9, and the two usual
    ones. *)
Example partly_decorated_tags :
  map (fun open => group (the_match (search FENCED_BLOCK_RE
                                       (text_of [open; "x"; "~~~~"]))) Glang)
      ["~~~~{python"; "~~~~.python}"; "~~~~{python}"; "~~~~python";
       "~~~~{.python}"]%string
  = py_lines ["python"; "python"; "python"; "python"; "python"].
Proof. vm_compute. reflexivity. Qed.

(** ** Escaping *)

Lemma str_eqb_spec (a b : str) : str_eqb a b = true <-> a = b.
Proof.
  unfold str_eqb. destruct (list_eq_dec ascii_dec a b); split; auto.
  discriminate.
Qed.

Lemma str_eqb_neq (a b : str) : a <> b -> str_eqb a b = false.
Proof.
  intros N. unfold str_eqb. now destruct (list_eq_dec ascii_dec a b).
Qed.

(** Replacing one character is a character-by-character substitution. *)
Lemma replace_single (c : ascii) (new s : str) :
  replace [c] new s = flat_map (fun x => if Ascii.eqb x c then new else [x]) s.
Proof.
  unfold replace. induction s as [|x s IH]; [reflexivity|].
  cbn [replace_go strip_prefix flat_map length Nat.sub].
  rewrite (Ascii.eqb_sym c x). now destruct (Ascii.eqb x c); rewrite IH.
Qed.

Lemma flat_map_compose (f g : ascii -> str) (s : str) :
  flat_map g (flat_map f s) = flat_map (fun x => flat_map g (f x)) s.
Proof.
  induction s as [|x s IH]; [reflexivity|].
  simpl. now rewrite flat_map_app, IH.
Qed.

(** The four replacements in a row escape each character of the text
    once: what an earlier replacement wrote is not escaped again. *)
Lemma escape_each_char (txt : str) : _escape txt = flat_map escape_char txt.
Proof.
  unfold _escape.
  change (list_ascii_of_string "&") with ["&"%char].
  change (list_ascii_of_string "<") with ["<"%char].
  change (list_ascii_of_string ">") with [">"%char].
  rewrite !replace_single, !flat_map_compose.
  apply flat_map_ext. intros [b0 b1 b2 b3 b4 b5 b6 b7].
  destruct b0, b1, b2, b3, b4, b5, b6, b7; reflexivity.
Qed.

Lemma escape_app (a b : str) : _escape (a ++ b) = _escape a ++ _escape b.
Proof. rewrite !escape_each_char. apply flat_map_app. Qed.

Lemma check_codehilite_blocks (exts : option config) (self : preprocessor) :
  rawHtmlBlocks (check_codehilite exts self) = rawHtmlBlocks self.
Proof. unfold check_codehilite. now destruct (checked_for_codehilite self). Qed.

(** The markup stored for a code region when no highlighter is
    configured. *)
Lemma format_fence_plain (placeholder : nat -> str) (exts : option config)
    (self : preprocessor) (m : match_obj) :
  codehilite_conf (check_codehilite exts self) = None ->
  group m Glang <> "quote" -> group m Glang <> "quoted" ->
  format_fence placeholder exts self m =
  (placeholder (length (rawHtmlBlocks self)),
   stash_block (check_codehilite exts self)
     (CODE_WRAP (if truthy (group m Glang) then LANG_TAG (group m Glang) else [])
                (flat_map escape_char (group m Gcode)))).
Proof.
  intros Hconf Hq Hqd. unfold format_fence.
  rewrite (str_eqb_neq _ _ Hq), (str_eqb_neq _ _ Hqd), andb_false_r.
  unfold format_code. rewrite Hconf. unfold store.
  rewrite check_codehilite_blocks, escape_each_char.
  reflexivity.
Qed.

(** C5: without a configured highlighter (no extension registered, or
    one with an empty configuration), a code region is stored as
    [<pre><code class="LANG">ESCAPED</code></pre>]: the language tag goes
    into the class attribute as it is, there is no class attribute when
    there is no tag, and every character of the body is escaped once. *)
Theorem plain_code_markup (placeholder : nat -> str) (exts : option config)
    (self : preprocessor) (m : match_obj) :
  codehilite_conf (check_codehilite exts self) = None ->
  group m Glang <> "quote" -> group m Glang <> "quoted" ->
  format_fence placeholder exts self m =
  (placeholder (length (rawHtmlBlocks self)),
   stash_block (check_codehilite exts self)
     ("<pre><code"
      ++ (if truthy (group m Glang)
          then " class=" ++ [dquote] ++ group m Glang ++ [dquote]
          else [])
      ++ ">" ++ flat_map escape_char (group m Gcode)
      ++ "</code></pre>")).
Proof. exact (format_fence_plain placeholder exts self m). Qed.

Lemma plain_code_markup_witness :
  format_fence html_placeholder None init markup_match =
  (html_placeholder 0,
   Preprocessor true None
     ["<pre><code class=" ++ [dquote] ++ "python" ++ [dquote] ++ ">"
      ++ "a &lt; b &amp;&amp; c &gt; d" ++ [nl] ++ "</code></pre>"]).
Proof.
  rewrite (plain_code_markup html_placeholder None init markup_match).
  - vm_compute. reflexivity.
  - reflexivity.
  - vm_compute. discriminate.
  - vm_compute. discriminate.
Defined.

Lemma escape_unlines (ls : list str) :
  _escape (unlines ls) = unlines (map _escape ls).
Proof.
  unfold unlines. induction ls as [|l ls IH]; [reflexivity|].
  simpl. rewrite !escape_app, IH. reflexivity.
Qed.

Lemma escape_marker_run (c : ascii) (k : nat) :
  is_marker c = true -> _escape (repeat c k) = repeat c k.
Proof.
  intros Hc. rewrite escape_each_char.
  induction k as [|k IH]; [reflexivity|]. simpl. rewrite IH.
  apply is_marker_cases in Hc as [-> | ->]; reflexivity.
Qed.

Lemma shorter_run_not_closing (c : ascii) (n k : nat) :
  k < n -> ~ closes (repeat c n) (repeat c k).
Proof.
  intros L (sp & _ & E). apply (f_equal (@length ascii)) in E.
  rewrite length_app, !repeat_length in E. lia.
Qed.

Example docstring_tildes :
  run html_placeholder None 1 init (py_lines ["~~~~~~~~"; ""; "~~~~"; "~~~~~~~~"])
  = Some ([[]; html_placeholder 0; []],
          Preprocessor true None
            [CODE_WRAP [] (unlines (py_lines [""; "~~~~"]))]).
Proof. vm_compute. reflexivity. Qed.

(** ** Lines *)

Lemma split_nl_cons (x : ascii) (s : str) :
  split [nl] (x :: s) =
  if Ascii.eqb x nl then [] :: split [nl] s else cons_head x (split [nl] s).
Proof.
  unfold split. cbn [split_go strip_prefix length Nat.sub].
  rewrite (Ascii.eqb_sym nl x). now destruct (Ascii.eqb x nl).
Qed.

Lemma split_nonempty (s : str) : exists l ls, split [nl] s = l :: ls.
Proof.
  induction s as [|x s (l & ls & IH)]; [now exists [], []|].
  rewrite split_nl_cons, IH. destruct (Ascii.eqb x nl); simpl; eauto.
Qed.

Lemma join_cons (sep w w' : str) (ws : list str) :
  join sep (w :: w' :: ws) = w ++ sep ++ join sep (w' :: ws).
Proof. reflexivity. Qed.

Lemma join_cons_head (sep : str) (x : ascii) (l : str) (ls : list str) :
  join sep (cons_head x (l :: ls)) = x :: join sep (l :: ls).
Proof. destruct ls; reflexivity. Qed.

(** Splitting into lines and joining them again gives the text back. *)
Lemma join_split (s : str) : join [nl] (split [nl] s) = s.
Proof.
  induction s as [|x s IH]; [reflexivity|].
  rewrite split_nl_cons. destruct (split_nonempty s) as (l & ls & E).
  rewrite E in *. destruct (Ascii.eqb_spec x nl) as [-> |N].
  - now rewrite join_cons, IH.
  - now rewrite join_cons_head, IH.
Qed.

Lemma split_app_nl (p s : str) :
  split [nl] (p ++ nl :: s) = split [nl] p ++ split [nl] s.
Proof.
  induction p as [|x p IH]; cbn [app].
  - now rewrite split_nl_cons.
  - rewrite !split_nl_cons, IH. destruct (Ascii.eqb x nl); [reflexivity|].
    destruct (split_nonempty p) as (l & ls & ->). reflexivity.
Qed.

Lemma split_first_line (w rest : str) :
  nl_free w = true -> exists l ls, split [nl] (w ++ rest) = (w ++ l) :: ls.
Proof.
  induction w as [|x w IH]; intros H; simpl in *.
  - apply split_nonempty.
  - apply andb_prop in H as [Hx Hw]. destruct (IH Hw) as (l & ls & E).
    rewrite split_nl_cons, E.
    apply negb_true_iff in Hx. rewrite Hx. simpl. eauto.
Qed.

(** Where a pattern can match there is such a line. *)
Lemma has_fence_line (pre f rest : str) :
  line_start pre -> fence_string f ->
  existsb fence_line (split [nl] (pre ++ f ++ rest)) = true.
Proof.
  intros Hs Hf.
  destruct (split_first_line f rest (fence_string_nl_free _ Hf)) as (l & ls & E).
  assert (Hl : fence_line (f ++ l) = true)
    by (apply Nat.leb_le; now apply leading_run_fence).
  destruct Hs as [-> |[p ->]].
  - simpl. rewrite E. simpl. now rewrite Hl.
  - rewrite <- app_assoc. simpl. rewrite split_app_nl, existsb_app, E.
    simpl. rewrite Hl. apply orb_true_r.
Qed.

Lemma no_fence_line_no_match (text : str) :
  forallb (fun l => negb (fence_line l)) (split [nl] text) = true ->
  search FENCED_BLOCK_RE text = None /\ search FENCE_RE text = None.
Proof.
  intros H.
  assert (N : existsb fence_line (split [nl] text) = false).
  { destruct (existsb _ _) eqn:E; [|reflexivity].
    apply existsb_exists in E as (l & Hin & Hl).
    rewrite forallb_forall in H. specialize (H l Hin).
    now rewrite Hl in H. }
  split.
  - destruct (search FENCED_BLOCK_RE text) as [m|] eqn:S; [|reflexivity].
    destruct (search_block text m S) as (R & W & T & _).
    rewrite T in N. unfold region_text, region_span, open_line in N.
    rewrite <- !app_assoc in N.
    rewrite (has_fence_line _ _ _ (wf_start R W) (wf_fence R W)) in N.
    discriminate N.
  - destruct (search FENCE_RE text) as [m|] eqn:S; [|reflexivity].
    destruct (search_fence text m S)
      as (pre & f & sp1 & deco & lang & post & T & Hs & Hf & _).
    rewrite T, (has_fence_line _ _ _ Hs Hf) in N. discriminate N.
Qed.

(** ** The loop *)

(** More turns do not change a result. *)
Lemma run_loop_more (placeholder : nat -> str) (exts : option config) (n : nat) :
  forall (self : preprocessor) (text : str) (r : str * preprocessor) (k : nat),
    run_loop placeholder exts n self text = Some r ->
    run_loop placeholder exts (n + k) self text = Some r.
Proof.
  induction n as [|n IH]; intros self text r k H; simpl in *.
  - destruct (search FENCED_BLOCK_RE text) eqn:S; [discriminate|].
    destruct k; simpl; now rewrite S.
  - destruct (search FENCED_BLOCK_RE text) as [m|] eqn:S; [|exact H].
    destruct (process_fence placeholder exts self m text) as [text' self'].
    now apply IH.
Qed.

(** The loop ends on a text without a complete fenced region. *)
Lemma run_loop_done (placeholder : nat -> str) (exts : option config) (n : nat) :
  forall (self self' : preprocessor) (text text' : str),
    run_loop placeholder exts n self text = Some (text', self') ->
    search FENCED_BLOCK_RE text' = None.
Proof.
  induction n as [|n IH]; intros self self' text text' H; simpl in *.
  - destruct (search FENCED_BLOCK_RE text) eqn:S; [discriminate|].
    now inversion H; subst.
  - destruct (search FENCED_BLOCK_RE text) as [m|] eqn:S.
    + destruct (process_fence placeholder exts self m text) as [t1 s1].
      now apply (IH s1 self' t1).
    + now inversion H; subst.
Qed.

Lemma run_loop_none (placeholder : nat -> str) (exts : option config)
    (n : nat) (self : preprocessor) (text : str) :
  search FENCED_BLOCK_RE text = None ->
  run_loop placeholder exts n self text = Some (text, self).
Proof. intros S. destruct n; simpl; now rewrite S. Qed.

(** C7: when the output of a run holds no line that starts with three or
    more copies of a marker character (only placeholders and ordinary
    text are left), running again finds neither a fenced region nor a
    dangling opening fence and returns the lines unchanged. *)
Theorem second_run_is_noop (placeholder : nat -> str) (exts : option config)
    (turns turns' : nat) (self self' : preprocessor) (lines out : list str) :
  run placeholder exts turns self lines = Some (out, self') ->
  forallb (fun l => negb (fence_line l)) out = true ->
  search FENCED_BLOCK_RE (join [nl] out) = None
  /\ search FENCE_RE (join [nl] out) = None
  /\ run placeholder exts turns' self' out = Some (out, self').
Proof.
  intros H Hout. unfold run in H.
  destruct (run_loop placeholder exts turns self (join [nl] lines))
    as [[t1 s1]|]; [|discriminate].
  destruct (close_dangling placeholder exts s1 t1) as [t2 s2].
  inversion H; subst out self'; clear H.
  rewrite join_split.
  destruct (no_fence_line_no_match t2 Hout) as [S1 S2].
  conj_split; auto.
  unfold run. rewrite join_split, (run_loop_none _ _ _ _ _ S1).
  unfold close_dangling. now rewrite S2.
Qed.

Lemma second_run_is_noop_witness :
  search FENCED_BLOCK_RE (join [nl] [[]; html_placeholder 0; []]) = None
  /\ search FENCE_RE (join [nl] [[]; html_placeholder 0; []]) = None
  /\ run html_placeholder None 0
       (Preprocessor true None [CODE_WRAP [] ("hello" ++ [nl])])
       [[]; html_placeholder 0; []]
     = Some ([[]; html_placeholder 0; []],
             Preprocessor true None [CODE_WRAP [] ("hello" ++ [nl])]).
Proof.
  apply (second_run_is_noop html_placeholder None 1 0 init
           (Preprocessor true None [CODE_WRAP [] ("hello" ++ [nl])])
           (py_lines ["~~~"; "hello"; "~~~"])
           [[]; html_placeholder 0; []]).
  - vm_compute. reflexivity.
  - vm_compute. reflexivity.
Defined.

(** ** The dangling fence *)

Lemma fence_string_last (f : str) :
  fence_string f -> exists f' c, f = f' ++ [c] /\ is_marker c = true.
Proof.
  intros (c & n & Hc & Hn & ->). destruct n as [|n]; [lia|].
  exists (repeat c n), c. split; [|exact Hc].
  now rewrite <- repeat_cons.
Qed.

Lemma fence_string_head (x : ascii) (s : str) :
  fence_string (x :: s) -> is_marker x = true.
Proof.
  intros (c & n & Hc & Hn & E). destruct n as [|n]; [lia|].
  simpl in E. now inversion E; subst.
Qed.

Lemma last_two_newlines (text : str) :
  last_n 2 text = [nl; nl] -> exists p, text = p ++ [nl].
Proof.
  unfold last_n. intros E.
  exists (firstn (length text - 2) text ++ [nl]).
  rewrite <- (firstn_skipn (length text - 2) text) at 1.
  rewrite E. now app_norm.
Qed.

(** Gluing a marker string onto the last line of a text without a
    fenced region does not make one, unless the last line becomes a
    marker string itself. *)
Lemma glued_marker (text f : str) :
  search FENCED_BLOCK_RE text = None ->
  fence_string f ->
  (forall p run, text = p ++ nl :: run -> ~ fence_string (run ++ f)) ->
  search FENCED_BLOCK_RE (text ++ f) = None.
Proof.
  intros S Hf H2.
  destruct (search FENCED_BLOCK_RE (text ++ f)) as [m|] eqn:S'; [exfalso|reflexivity].
  destruct (search_block _ m S') as (R & W & T & _).
  pose proof (fence_string_nl_free _ Hf) as Nf.
  destruct R as [pre g sp1 deco lang sp2 code sp3 post].
  destruct W as [Hs Hg H1 Hd H2' Hc H3 He]. cbn in *.
  unfold region_text, region_span, open_line, close_line in T. cbn in T.
  destruct He as [-> |[q ->]].
  - (* the region ends with the text: its closing line is the glued one *)
    rewrite app_nil_r in T.
    assert (sp3 = []) as ->.
    { destruct (fence_string_last _ Hf) as (f' & c & -> & Hc').
      destruct sp3 as [|y sp3]; [reflexivity|exfalso].
      destruct (exists_last (l := y :: sp3) ltac:(discriminate)) as (sp & x & E).
      rewrite E in T, H3.
      replace (text ++ f' ++ [c]) with ((text ++ f') ++ [c]) in T by now app_norm.
      replace (pre ++ (g ++ sp1 ++ deco ++ sp2) ++ nl :: code ++ g ++ sp ++ [x])
        with ((pre ++ (g ++ sp1 ++ deco ++ sp2) ++ nl :: code ++ g ++ sp) ++ [x])
        in T by now app_norm.
      apply app_inj_tail in T as [_ <-].
      unfold blank in H3. rewrite forallb_app in H3.
      apply andb_prop in H3 as [_ H3]. simpl in H3.
      rewrite andb_true_r in H3. apply Ascii.eqb_eq in H3. subst c.
      discriminate Hc'. }
    rewrite app_nil_r in T.
    assert (exists X, text ++ f = (X ++ [nl]) ++ g) as (X & E).
    { destruct Hc as [-> |[p ->]].
      - exists (pre ++ g ++ sp1 ++ deco ++ sp2). rewrite T. now app_norm.
      - exists (pre ++ (g ++ sp1 ++ deco ++ sp2) ++ [nl] ++ p).
        rewrite T. now app_norm. }
    apply app_eq_app in E as (l & [[E1 E2]|[E1 E2]]).
    + apply (H2 X l); [rewrite E1; now app_norm|]. now rewrite <- E2.
    + destruct l as [|y l].
      * rewrite app_nil_r in E1. apply (H2 X []); [now rewrite <- E1; app_norm|].
        exact Hf.
      * destruct (exists_last (l := y :: l) ltac:(discriminate)) as (l' & x & E).
        rewrite E in E1, E2. rewrite app_assoc in E1.
        apply app_inj_tail in E1 as [_ <-].
        rewrite E2, !nl_free_app in Nf. simpl in Nf.
        rewrite andb_false_r in Nf. discriminate Nf.
  - (* the region ends before: it was in the text already *)
    assert (E : text ++ f
                = (pre ++ (g ++ sp1 ++ deco ++ sp2) ++ [nl] ++ code ++ g ++ sp3)
                  ++ nl :: q) by (rewrite T; now app_norm).
    apply app_eq_app in E as (l & [[E1 E2]|[E1 E2]]).
    + destruct l as [|y l].
      * simpl in E2. rewrite <- E2 in Nf. discriminate Nf.
      * inversion E2; subst y q.
        apply (block_found (Region pre g sp1 deco lang sp2 code sp3 (nl :: l))).
        -- constructor; cbn; auto. right. now exists l.
        -- unfold region_text, region_span, open_line, close_line. cbn.
           rewrite <- S. f_equal. rewrite E1. now app_norm.
    + rewrite E2, nl_free_app in Nf. simpl in Nf.
      rewrite andb_false_r in Nf. discriminate Nf.
Qed.

(** C10, as the code has it: when the text left by the loop has an
    opening fence, does not end with a newline, and its last line with the
    marker string appended is not itself a marker string, the marker is
    glued to the last line, the last search finds no region and [run]
    returns the text with the marker characters at its end. *)
Theorem glued_marker_closes_nothing (placeholder : nat -> str)
    (exts : option config) (turns : nat) (self0 self : preprocessor)
    (lines : list str) (text : str) (fence : match_obj) :
  run_loop placeholder exts turns self0 (join [nl] lines) = Some (text, self) ->
  search FENCE_RE text = Some fence ->
  (forall p, text <> p ++ [nl]) ->
  (forall p run, text = p ++ nl :: run ->
                 ~ fence_string (run ++ group fence Gfence)) ->
  search FENCED_BLOCK_RE (text ++ group fence Gfence) = None
  /\ close_dangling placeholder exts self text = (text ++ group fence Gfence, self)
  /\ run placeholder exts turns self0 lines
     = Some (split [nl] (text ++ group fence Gfence), self).
Proof.
  intros L F H1 H2.
  pose proof (run_loop_done _ _ _ _ _ _ _ L) as S.
  destruct (search_fence text fence F)
    as (pre & f & sp1 & deco & lang & post & _ & _ & Hf & _ & _ & _ & _ & Gf).
  assert (G : group fence Gfence = f) by (unfold group, cap_text; now rewrite Gf).
  rewrite G in *.
  pose proof (glued_marker text f S Hf H2) as S'.
  assert (C : close_dangling placeholder exts self text = (text ++ f, self)).
  { unfold close_dangling. rewrite F, G.
    destruct (str_eqb (last_n 2 text) [nl; nl]) eqn:E.
    - apply str_eqb_spec, last_two_newlines in E as (p & E).
      now elim (H1 p).
    - now rewrite S'. }
  conj_split; auto.
  unfold run. now rewrite L, C.
Qed.

Lemma glued_marker_closes_nothing_witness :
  search FENCED_BLOCK_RE (dangling_text ++ group dangling_fence Gfence) = None
  /\ close_dangling html_placeholder None init dangling_text
     = (dangling_text ++ group dangling_fence Gfence, init)
  /\ run html_placeholder None 0 init (py_lines ["~~~"; "hello"])
     = Some (split [nl] (dangling_text ++ group dangling_fence Gfence), init).
Proof.
  apply (glued_marker_closes_nothing html_placeholder None 0 init init
           (py_lines ["~~~"; "hello"]) dangling_text dangling_fence).
  - vm_compute. reflexivity.
  - vm_compute. reflexivity.
  - intros p E. apply (f_equal (@rev ascii)) in E.
    rewrite rev_app_distr in E. discriminate E.
  - intros p run E Hfs.
    change dangling_text with ("~~~" ++ nl :: "hello") in E.
    apply (first_nl "~~~" p "hello" run eq_refl) in E.
    destruct E as [[_ <-]|(p' & _ & E)].
    + apply fence_string_head in Hfs. discriminate Hfs.
    + apply (f_equal nl_free) in E. rewrite nl_free_app in E.
      simpl in E. rewrite andb_false_r in E. discriminate E.
Defined.

(** C10, as stated, fails: this text has a dangling opening fence and no
    newline at its end, yet the marker glued to its last line makes that
    line close the four-tilde fence above it, and a block is rendered. *)
Lemma glued_marker_can_close :
  search FENCED_BLOCK_RE glued_text = None
  /\ search FENCE_RE glued_text = Some glued_fence
  /\ group glued_fence Gfence = "~~~"
  /\ (forall p, glued_text <> p ++ [nl])
  /\ search FENCED_BLOCK_RE (glued_text ++ group glued_fence Gfence) <> None
  /\ run html_placeholder None 0 init (py_lines ["~~~"; "~~~~"; "~"])
     = Some ([list_ascii_of_string "~~~"; []; html_placeholder 0; []],
             Preprocessor true None [CODE_WRAP [] []]).
Proof.
  conj_split; try (vm_compute; reflexivity).
  - intros p E. apply (f_equal (@rev ascii)) in E.
    rewrite rev_app_distr in E. discriminate E.
  - vm_compute. discriminate.
Qed.

(** ** Quotes *)

Lemma format_quote_paragraphs (text : str) :
  format_quote text = join [nl; nl] (map quote_paragraph (split [nl; nl] text)).
Proof. reflexivity. Qed.

Lemma split2_sep (s : str) :
  split [nl; nl] (nl :: nl :: s) = [] :: split [nl; nl] s.
Proof. reflexivity. Qed.

Lemma split2_other (x : ascii) (s : str) :
  negb (Ascii.eqb x nl) || head_is (fun c => negb (Ascii.eqb c nl)) s = true ->
  split [nl; nl] (x :: s) = cons_head x (split [nl; nl] s).
Proof.
  intros H. unfold split. cbn [split_go strip_prefix].
  rewrite (Ascii.eqb_sym nl x).
  destruct (Ascii.eqb x nl); [|reflexivity].
  destruct s as [|y s]; [reflexivity|]. simpl in H.
  rewrite (Ascii.eqb_sym nl y). apply negb_true_iff in H. now rewrite H.
Qed.

Lemma head_is_app (p : ascii -> bool) (a b : str) :
  head_is p a = true -> head_is p (a ++ b) = true.
Proof. destruct a; [discriminate|auto]. Qed.

Lemma split2_tidy (w rest : str) :
  tidy w = true ->
  split [nl; nl] (w ++ nl :: nl :: rest) = w :: split [nl; nl] rest.
Proof.
  induction w as [|x t IH]; intros H; [apply split2_sep|].
  simpl in H. apply andb_prop in H as [Hx Ht].
  cbn [app]. rewrite split2_other, (IH Ht); [reflexivity|].
  apply orb_prop in Hx as [Hx|Hx]; [now rewrite Hx|].
  rewrite (head_is_app _ _ _ Hx). apply orb_true_r.
Qed.

Lemma split2_tidy_end (w : str) :
  tidy w = true -> split [nl; nl] (w ++ [nl]) = [w ++ [nl]].
Proof.
  induction w as [|x t IH]; intros H; [reflexivity|].
  simpl in H. apply andb_prop in H as [Hx Ht].
  cbn [app]. rewrite split2_other, (IH Ht); [reflexivity|].
  apply orb_prop in Hx as [Hx|Hx]; [now rewrite Hx|].
  rewrite (head_is_app _ _ _ Hx). apply orb_true_r.
Qed.

(** A newline at the end of a paragraph makes an empty line, which is
    dropped. *)
Lemma quote_paragraph_nl (p : str) :
  quote_paragraph (p ++ [nl]) = quote_paragraph p.
Proof.
  unfold quote_paragraph. rewrite split_app_nl, filter_app.
  simpl. now rewrite app_nil_r.
Qed.

Lemma quote_tidy_paragraphs (ps : list str) :
  ps <> [] -> Forall (fun p => tidy p = true) ps ->
  map quote_paragraph (split [nl; nl] (join [nl; nl] ps ++ [nl]))
  = map quote_paragraph ps.
Proof.
  induction ps as [|p ps IH]; intros N H; [contradiction|].
  inversion H as [|? ? Hp Hps]; subst.
  destruct ps as [|p' ps].
  - cbn [join]. rewrite (split2_tidy_end _ Hp). simpl.
    now rewrite quote_paragraph_nl.
  - rewrite join_cons. app_norm. rewrite (split2_tidy _ _ Hp).
    cbn [map]. f_equal. apply IH; [discriminate|exact Hps].
Qed.

Lemma split_nl_free (l : str) : nl_free l = true -> split [nl] l = [l].
Proof.
  intros H. destruct (split_first_line l [] H) as (x & xs & E).
  rewrite app_nil_r in E. pose proof (join_split l) as J.
  rewrite E in J. rewrite E. destruct xs as [|y ys].
  - simpl in J. now rewrite J.
  - rewrite join_cons in J. apply (f_equal (@length ascii)) in J.
    rewrite !length_app in J. simpl in J. lia.
Qed.

Lemma split_join_lines (ls : list str) :
  ls <> [] -> Forall (fun l => nl_free l = true) ls ->
  split [nl] (join [nl] ls) = ls.
Proof.
  induction ls as [|l ls IH]; intros N H; [contradiction|].
  inversion H as [|? ? Hl Hls]; subst.
  destruct ls as [|l' ls]; [now apply split_nl_free|].
  rewrite join_cons. cbn [app]. rewrite split_app_nl, (split_nl_free _ Hl).
  rewrite IH; [reflexivity|discriminate|exact Hls].
Qed.

Lemma tidy_nl_free (l : str) : nl_free l = true -> tidy l = true.
Proof.
  induction l as [|x l IH]; [reflexivity|]. simpl. intros H.
  apply andb_prop in H as [Hx Hl]. now rewrite Hx, IH.
Qed.

Lemma tidy_app_line (l rest : str) :
  nl_free l = true -> tidy rest = true ->
  head_is (fun c => negb (Ascii.eqb c nl)) rest = true ->
  tidy (l ++ nl :: rest) = true.
Proof.
  intros Hl Hr Hh. induction l as [|x l IH]; simpl in *.
  - now rewrite Hh, Hr.
  - apply andb_prop in Hl as [Hx Hl]. now rewrite Hx, IH.
Qed.

Lemma proper_line_head (l rest : str) :
  proper_line l -> head_is (fun c => negb (Ascii.eqb c nl)) (l ++ rest) = true.
Proof.
  intros [N H]. destruct l as [|x l]; [contradiction|].
  simpl in *. now apply andb_prop in H as [Hx _].
Qed.

Lemma tidy_join_lines (ls : list str) :
  Forall proper_line ls -> tidy (join [nl] ls) = true.
Proof.
  induction ls as [|l ls IH]; intros H; [reflexivity|].
  inversion H as [|? ? Hl Hls]; subst.
  destruct ls as [|l' ls]; [apply tidy_nl_free, Hl|].
  rewrite join_cons. cbn [app]. apply tidy_app_line; [apply Hl|now apply IH|].
  inversion Hls as [|? ? Hl' _]; subst.
  destruct ls; [cbn [join]; rewrite <- (app_nil_r l')|rewrite join_cons];
    now apply proper_line_head.
Qed.

Lemma filter_truthy_proper (ls : list str) :
  Forall proper_line ls -> filter truthy ls = ls.
Proof.
  induction ls as [|l ls IH]; intros H; [reflexivity|].
  inversion H as [|? ? [N _] Hls]; subst. simpl.
  destruct l; [contradiction|]. simpl. now rewrite IH.
Qed.

Lemma quote_paragraph_lines (ls : list str) :
  ls <> [] -> Forall proper_line ls ->
  quote_paragraph (join [nl] ls) = join [nl] (map (fun line => "> " ++ line) ls).
Proof.
  intros N H. unfold quote_paragraph.
  rewrite split_join_lines, filter_truthy_proper; auto.
  eapply Forall_impl; [|exact H]. now intros l [_ Hl].
Qed.

(** [format_quote] on a body made of paragraphs separated by one blank
    line: every line gets the prefix, the blank lines stay. *)
Theorem format_quote_spec (paras : list (list str)) :
  paras <> [] -> Forall proper_paragraph paras ->
  format_quote (join [nl; nl] (map (join [nl]) paras) ++ [nl])
  = join [nl; nl]
      (map (fun ls => join [nl] (map (fun line => "> " ++ line) ls)) paras).
Proof.
  intros N H. rewrite format_quote_paragraphs, quote_tidy_paragraphs.
  - rewrite map_map. f_equal. apply map_ext_in. intros ls Hin.
    rewrite Forall_forall in H. destruct (H ls Hin) as [Nl Hl].
    now apply quote_paragraph_lines.
  - destruct paras; [contradiction|discriminate].
  - rewrite Forall_map. eapply Forall_impl; [|exact H].
    intros ls [_ Hl]. now apply tidy_join_lines.
Qed.

(** C4: a region tagged [quote] or [quoted] stores nothing; its body,
    paragraphs of lines separated by a blank line, becomes the same
    paragraphs with ["> "] before every line and a blank line between
    them, and this markup itself is what [process_fence] puts into the
    text, between two newlines. *)
Theorem quote_region_markup (placeholder : nat -> str) (exts : option config)
    (self : preprocessor) (m : match_obj) (text : str)
    (paras : list (list str)) :
  group m Glang = "quote" \/ group m Glang = "quoted" ->
  group m Gcode = join [nl; nl] (map (join [nl]) paras) ++ [nl] ->
  paras <> [] -> Forall proper_paragraph paras ->
  format_fence placeholder exts self m
  = (join [nl; nl]
       (map (fun ls => join [nl] (map (fun line => "> " ++ line) ls)) paras),
     self)
  /\ process_fence placeholder exts self m text
     = (firstn (m_start m) text ++ [nl]
        ++ join [nl; nl]
             (map (fun ls => join [nl] (map (fun line => "> " ++ line) ls)) paras)
        ++ [nl] ++ skipn (m_end m) text,
        self).
Proof.
  intros Hq Hc N H.
  assert (F : format_fence placeholder exts self m
              = (join [nl; nl]
                   (map (fun ls => join [nl] (map (fun line => "> " ++ line) ls))
                        paras), self)).
  { unfold format_fence. rewrite Hc, (format_quote_spec paras N H).
    destruct Hq as [-> | ->]; reflexivity. }
  split; [exact F|]. unfold process_fence. now rewrite F.
Qed.

(** The scenario of the specification: the markup of the region is
    ["> first line\n\n> second paragraph"]. *)
Lemma quote_region_markup_witness :
  format_fence html_placeholder None init quote_match
  = ("> first line" ++ [nl; nl] ++ "> second paragraph", init)
  /\ process_fence html_placeholder None init quote_match quote_text
     = ([nl] ++ "> first line" ++ [nl; nl] ++ "> second paragraph" ++ [nl], init).
Proof.
  apply (quote_region_markup html_placeholder None init quote_match quote_text
           [py_lines ["first line"]; py_lines ["second paragraph"]]).
  - left. vm_compute. reflexivity.
  - vm_compute. reflexivity.
  - discriminate.
  - repeat constructor; discriminate.
Defined.

Example quote_scenario_run :
  run html_placeholder None 1 init
      (py_lines ["~~~quote"; "first line"; ""; "second paragraph"; "~~~"])
  = Some (py_lines [""; "> first line"; ""; "> second paragraph"; ""], init).
Proof. vm_compute. reflexivity. Qed.

(** ** Regions further down the text *)

(** Both patterns start with the marker string at the start of a line. *)
Lemma den_starts_with_fence (r : regex) (sn td : str) (cp : captures) (b : cursor) :
  den (Seq fence_group r) (Cursor sn td cp) b ->
  at_bound nl sn = true /\ exists f t, fence_string f /\ td = f ++ t.
Proof.
  intros (c & D & _).
  apply den_fence_group_elim in D as (f & t & Hf & B & -> & _).
  split; [exact B|]. now exists f, t.
Qed.

Lemma nl_free_prefix (f X l rest : str) :
  nl_free f = true -> f ++ X = l ++ nl :: rest -> exists Y, l ++ [nl] = f ++ Y.
Proof.
  intros Nf E. apply app_eq_app in E as (z & [[E1 E2]|[E1 E2]]).
  - destruct z as [|y z].
    + simpl in E2. rewrite app_nil_r in E1. subst f. exists [nl]. reflexivity.
    + inversion E2; subst y. rewrite E1, nl_free_app in Nf.
      apply andb_prop in Nf as [_ Nf]. discriminate Nf.
  - exists (z ++ [nl]). rewrite E1. now app_norm.
Qed.

(** In a stretch of whole lines none of which starts like a fence, no
    pattern matches. *)
Lemma no_match_before (r : regex) (pre rest p1 p2 : str) :
  line_start pre ->
  forallb (fun l => negb (fence_line l)) (split [nl] pre) = true ->
  pre = p1 ++ p2 -> p2 <> [] ->
  rmatch (Seq fence_group r) (Cursor (rev p1) (p2 ++ rest) no_captures) Some
  = None.
Proof.
  intros Hs Hno E N.
  destruct (rmatch _ _ Some) as [c|] eqn:M; [exfalso|reflexivity].
  apply rmatch_sound in M as (b & D & _).
  apply den_starts_with_fence in D as (B & f & t & Hf & T).
  apply line_start_bound in B.
  rewrite E in Hs. destruct (line_start_suffix p1 p2 Hs N) as (l & ->).
  rewrite <- app_assoc in T. simpl in T. symmetry in T.
  apply nl_free_prefix in T as (Y & EY); [|now apply fence_string_nl_free].
  assert (X : existsb fence_line (split [nl] pre) = true).
  { rewrite E, EY. now apply has_fence_line. }
  apply existsb_exists in X as (x & Hin & Hx).
  rewrite forallb_forall in Hno. specialize (Hno x Hin).
  now rewrite Hx in Hno.
Qed.

Lemma search_at_skip (r : regex) (pre : str) :
  forall (sn rest : str),
    (forall p1 p2, pre = p1 ++ p2 -> p2 <> [] ->
       rmatch r (Cursor (rev p1 ++ sn) (p2 ++ rest) no_captures) Some = None) ->
    search_at r sn (pre ++ rest) = search_at r (rev pre ++ sn) rest.
Proof.
  induction pre as [|x pre IH]; intros sn rest H; [reflexivity|].
  cbn [app search_at].
  pose proof (H [] (x :: pre) eq_refl ltac:(discriminate)) as H0.
  cbn [rev app] in H0. rewrite H0.
  rewrite IH; [simpl; now rewrite <- app_assoc|].
  intros p1 p2 E N. specialize (H (x :: p1) p2).
  simpl in H. rewrite <- app_assoc in H. simpl in H.
  apply H; [now rewrite E|exact N].
Qed.

(** The search skips a stretch of lines without fences. *)
Lemma search_skip (r : regex) (pre rest : str) :
  line_start pre ->
  forallb (fun l => negb (fence_line l)) (split [nl] pre) = true ->
  search (Seq fence_group r) (pre ++ rest)
  = search_at (Seq fence_group r) (rev pre) rest.
Proof.
  intros Hs Hno. unfold search.
  rewrite search_at_skip; [now rewrite app_nil_r|].
  intros p1 p2 E N. rewrite app_nil_r.
  now apply (no_match_before r pre rest p1 p2).
Qed.

Lemma search_at_here (r : regex) (sn td : str) (c : cursor) :
  rmatch r (Cursor sn td no_captures) Some = Some c ->
  search_at r sn td = Some (Match (length sn) (length (seen c)) (caps c)).
Proof. intros M. destruct td; cbn [search_at]; now rewrite M. Qed.

(** A well-formed region after lines without fences, with no closing
    line in its body: [search] returns that region. *)
Theorem region_found (R : region) :
  well_formed R ->
  forallb (fun l => negb (fence_line l)) (split [nl] (r_pre R)) = true ->
  no_close_inside (r_fence R) (r_code R) ->
  exists m,
    search FENCED_BLOCK_RE (region_text R) = Some m
    /\ m_start m = length (r_pre R)
    /\ m_end m = length (r_pre R ++ region_span R)
    /\ group m Gfence = r_fence R
    /\ group m Glang = r_lang R
    /\ group m Gcode = r_code R.
Proof.
  intros W Hno NC.
  assert (B : at_bound nl (rev (r_pre R)) = true)
    by apply line_start_bound, W.
  destruct (rmatch_region R (rev (r_pre R)) W B NC) as (c & M & S & Cf & Cl & Cc).
  exists (Match (length (rev (r_pre R))) (length (seen c)) (caps c)).
  split.
  - unfold region_text, FENCED_BLOCK_RE.
    rewrite (search_skip _ _ _ (wf_start R W) Hno).
    now apply search_at_here.
  - unfold group, cap_text in *. cbn [m_start m_end m_group].
    rewrite S, Cf, Cc, length_rev, length_region_prefix. auto.
Qed.

(** ** An unclosed fence at the end of a document *)

Lemma fence_intro (sn f sp1 deco lang post : str) :
  at_bound nl sn = true -> fence_string f -> blank sp1 ->
  annotation deco lang -> line_end post ->
  exists b, den FENCE_RE (Cursor sn (f ++ sp1 ++ deco ++ post) no_captures) b.
Proof.
  intros B Hf H1 Hd He. unfold FENCE_RE.
  eexists. eexists. split; [now apply den_fence_group_intro|].
  eexists. split; [now apply den_many_intro; [|lia]|].
  eexists. split; [now apply den_deco_group_intro; eauto|].
  split; [|reflexivity]. cbn [todo]. now apply line_end_bound.
Qed.

(** An opening line after lines without fences is the one
    [FENCE_RE.search] finds. *)
Lemma search_fence_found (pre f sp1 deco lang rest : str) :
  line_start pre ->
  forallb (fun l => negb (fence_line l)) (split [nl] pre) = true ->
  fence_string f -> blank sp1 -> annotation deco lang ->
  exists fence,
    search FENCE_RE (pre ++ (f ++ sp1 ++ deco) ++ nl :: rest) = Some fence
    /\ m_start fence = length pre
    /\ group fence Gfence = f.
Proof.
  intros Hs Hno Hf H1 Hd.
  assert (B : at_bound nl (rev pre) = true) by now apply line_start_bound.
  destruct (fence_intro (rev pre) f sp1 deco lang (nl :: rest) B Hf H1 Hd)
    as (b & D); [right; now exists rest|].
  pose proof (rmatch_complete _ _ _ Some D ltac:(discriminate)) as M.
  destruct (rmatch FENCE_RE _ Some) as [c|] eqn:E in M; [clear M|contradiction].
  exists (Match (length (rev pre)) (length (seen c)) (caps c)).
  split; [|split; [apply length_rev|]].
  - unfold FENCE_RE in *. rewrite (search_skip _ _ _ Hs Hno).
    apply search_at_here. rewrite <- E. now app_norm.
  - apply rmatch_sound in E as (b' & D' & Eb). inversion Eb; subst b'.
    apply fence_elim in D'
      as (f' & sp1' & deco' & lang' & post' & _ & Hf' & H1' & Hd' & He' & T & Cf).
    unfold group, cap_text. cbn [m_group]. rewrite Cf.
    destruct He' as [-> |[q ->]].
    + apply (f_equal nl_free) in T. rewrite !nl_free_app in T.
      rewrite (fence_string_nl_free _ Hf'), (blank_nl_free _ H1'),
        (annotation_nl_free _ _ Hd') in T.
      simpl in T. rewrite !andb_false_r in T. discriminate T.
    + destruct Hf as (x & n & Hx & Hn & ->).
      destruct Hf' as (x' & n' & Hx' & Hn' & ->).
      destruct (fence_run_unique x x' n n' (sp1 ++ deco ++ [] ++ nl :: rest)
                  (sp1' ++ deco' ++ [] ++ nl :: q) Hx Hx'
                  ltac:(lia) ltac:(lia)) as [Ef _]; auto.
      * now apply after_fence_head with (lang := lang).
      * now apply after_fence_head with (lang := lang').
Qed.

Lemma last_n_app (a b : str) : last_n (length b) (a ++ b) = b.
Proof.
  unfold last_n. rewrite length_app, Nat.add_sub, skipn_app, Nat.sub_diag.
  now rewrite skipn_all.
Qed.

Lemma drop_last_n_app (a b : str) : drop_last_n (length b) (a ++ b) = a.
Proof.
  unfold drop_last_n. rewrite length_app, Nat.add_sub, firstn_app, Nat.sub_diag.
  now rewrite firstn_all, app_nil_r.
Qed.

Lemma split_unlines (ls : list str) :
  Forall (fun l => nl_free l = true) ls ->
  split [nl] (unlines ls) = ls ++ [[]].
Proof.
  induction ls as [|l ls IH]; intros H; [reflexivity|].
  inversion H as [|? ? Hl Hls]; subst.
  unfold unlines in *. simpl. rewrite <- app_assoc. simpl.
  now rewrite split_app_nl, (split_nl_free _ Hl), IH.
Qed.

Lemma firstn_length_app (a b : str) : firstn (length a) (a ++ b) = a.
Proof.
  rewrite firstn_app, Nat.sub_diag, firstn_all. simpl. apply app_nil_r.
Qed.

Lemma skipn_length_app (a b : str) : skipn (length a) (a ++ b) = b.
Proof. rewrite skipn_app, Nat.sub_diag, skipn_all. reflexivity. Qed.

(** The repair of [run] where it works: the document ends with a newline
    (and then does not end with a blank-line pair), or with the blank-line
    pair the host appends.  The closing fence lands on a line of its own,
    and the one region rendered has for body all the lines below the
    opening line. *)
Theorem dangling_fence_closed (placeholder : nat -> str) (exts : option config)
    (turns : nat) (self : preprocessor) (above below : list str)
    (f sp1 deco lang : str) (pair : bool) :
  Forall (fun l => nl_free l = true /\ fence_line l = false) above ->
  fence_string f -> blank sp1 -> annotation deco lang ->
  Forall (fun l => nl_free l = true /\ ~ closes f l) below ->
  (pair = false ->
   str_eqb (last_n 2 (dangling_doc above (f ++ sp1 ++ deco) below)) [nl; nl]
   = false) ->
  search FENCED_BLOCK_RE
    (dangling_doc above (f ++ sp1 ++ deco) below ++ if pair then [nl] else [])
  = None ->
  exists m,
    group m Gfence = f /\ group m Glang = lang
    /\ group m Gcode = unlines below
    /\ run placeholder exts turns self
         (split [nl] (dangling_doc above (f ++ sp1 ++ deco) below
                      ++ if pair then [nl] else []))
       = Some (split [nl]
                 (unlines above ++ [nl]
                  ++ fst (format_fence placeholder exts self m) ++ [nl]
                  ++ if pair then [nl; nl] else []),
               snd (format_fence placeholder exts self m)).
Proof.
  intros Ha Hf H1 Hd Hb Hpair S.
  set (pre := unlines above).
  set (doc := dangling_doc above (f ++ sp1 ++ deco) below) in *.
  set (post := if pair then [nl; nl] else [] : str).
  assert (Hs : line_start pre) by apply line_start_unlines.
  assert (Hno : forallb (fun l => negb (fence_line l)) (split [nl] pre) = true).
  { unfold pre. rewrite split_unlines.
    - rewrite forallb_app. simpl. rewrite andb_true_r.
      apply forallb_forall. intros l Hin. rewrite Forall_forall in Ha.
      destruct (Ha l Hin) as [_ E]. now rewrite E.
    - eapply Forall_impl; [|exact Ha]. now intros l [E _]. }
  (* the opening line is found *)
  destruct (search_fence_found pre f sp1 deco lang
              (unlines below ++ if pair then [nl] else []) Hs Hno Hf H1 Hd)
    as (fence & F & _ & Gf).
  assert (Et : pre ++ (f ++ sp1 ++ deco)
                 ++ nl :: unlines below ++ (if pair then [nl] else [])
               = doc ++ if pair then [nl] else [])
    by (unfold doc, dangling_doc; now app_norm).
  rewrite Et in F.
  (* the closing fence is put on a line of its own *)
  pose (R := Region pre f sp1 deco lang [] (unlines below) [] post).
  assert (W : well_formed R).
  { constructor; cbn; auto; try reflexivity.
    - apply line_start_unlines.
    - unfold post. destruct pair; [right; now exists [nl]|now left]. }
  assert (ER : region_text R = doc ++ f ++ post).
  { unfold region_text, region_span, open_line, close_line, doc, dangling_doc.
    cbn. rewrite !app_nil_r. now app_norm. }
  assert (C : (if str_eqb (last_n 2 (doc ++ if pair then [nl] else [])) [nl; nl]
               then drop_last_n 2 (doc ++ if pair then [nl] else [])
                    ++ [nl] ++ f
                    ++ last_n 2 (doc ++ if pair then [nl] else [])
               else (doc ++ if pair then [nl] else []) ++ f)
              = region_text R).
  { rewrite ER. unfold post. destruct pair.
    - assert (exists D, doc = D ++ [nl]) as (D & ED).
      { unfold doc, dangling_doc.
        destruct (line_start_unlines below) as [-> |[p ->]].
        - exists (unlines above ++ f ++ sp1 ++ deco). now app_norm.
        - exists (unlines above ++ (f ++ sp1 ++ deco) ++ [nl] ++ p).
          now app_norm. }
      rewrite ED. replace ((D ++ [nl]) ++ [nl]) with (D ++ [nl; nl])
        by now app_norm.
      pose proof (last_n_app D [nl; nl]) as L1.
      pose proof (drop_last_n_app D [nl; nl]) as L2.
      cbn [length] in L1, L2. rewrite L1, L2.
      simpl. now app_norm.
    - rewrite !app_nil_r, (Hpair eq_refl). reflexivity. }
  (* and closes the region *)
  destruct (region_found R W Hno) as (m & M & Ms & Me & Gf' & Gl & Gc).
  { apply no_close_unlines; auto. }
  exists m. cbn in Gf', Gl, Gc. conj_split; auto.
  unfold run. rewrite join_split, (run_loop_none _ _ _ _ _ S).
  unfold close_dangling. rewrite F, Gf, C, M.
  unfold process_fence.
  destruct (format_fence placeholder exts self m) as [rep self'].
  cbn [fst snd]. rewrite Ms, Me.
  unfold region_text. cbn [r_pre r_post R].
  rewrite firstn_length_app.
  rewrite (app_assoc pre (region_span R) post), skipn_length_app.
  reflexivity.
Qed.

(** The repair at work on a document that ends with the blank-line pair. *)
Example dangling_fence_closed_with_pair :
  exists m,
    group m Gfence = "~~~" /\ group m Glang = [] /\ group m Gcode = "hello" ++ [nl]
    /\ run html_placeholder None 0 init (py_lines ["intro"; "~~~"; "hello"; ""; ""])
       = Some (split [nl]
                 (unlines [list_ascii_of_string "intro"] ++ [nl]
                  ++ fst (format_fence html_placeholder None init m) ++ [nl]
                  ++ [nl; nl]),
               snd (format_fence html_placeholder None init m)).
Proof.
  apply (dangling_fence_closed html_placeholder None 0 init
           [list_ascii_of_string "intro"] [list_ascii_of_string "hello"]
           "~~~" [] [] [] true).
  - repeat constructor.
  - exists tilde, 3. repeat split; try reflexivity; lia.
  - reflexivity.
  - exists [], [], []. unfold opt_char. auto.
  - constructor; [|constructor]. split; [reflexivity|].
    intros (sp & _ & E). discriminate E.
  - discriminate.
  - vm_compute. reflexivity.
Qed.

(** C3: the repair misses an opening line that has a blank after its
    annotation.  The document below ends with an opening fence, has no
    closing fence, and ends with the pair of empty lines the host appends;
    [FENCED_BLOCK_RE] reads its first line as an opening line, but
    [FENCE_RE] allows no blank after the annotation and does not.  So
    [run] sees no dangling fence, adds no closing fence, stores nothing
    and returns the lines as they were.  The same document without the
    blank is repaired and rendered as one block, and with a closing line
    the line with the blank does open a block. *)
Theorem unclosed_fence_with_trailing_blank (turns : nat) :
  run html_placeholder None turns init
      (py_lines ["~~~ python "; "x = 1"; ""; ""])
  = Some (py_lines ["~~~ python "; "x = 1"; ""; ""], init)
  /\ run html_placeholder None turns init
         (py_lines ["~~~ python"; "x = 1"; ""; ""])
     = Some ([[]; html_placeholder 0; []; []; []],
             Preprocessor true None
               ["<pre><code class=" ++ [dquote] ++ "python" ++ [dquote] ++ ">"
                ++ "x = 1" ++ [nl] ++ "</code></pre>"])
  /\ run html_placeholder None (S turns) init
         (py_lines ["~~~ python "; "x = 1"; "~~~"; ""; ""])
     = Some ([[]; html_placeholder 0; []; []; []],
             Preprocessor true None
               ["<pre><code class=" ++ [dquote] ++ "python" ++ [dquote] ++ ">"
                ++ "x = 1" ++ [nl] ++ "</code></pre>"]).
Proof. destruct turns; conj_split; vm_compute; reflexivity. Qed.

(** A direct call with a document whose last line has no newline after
    it (the host always appends the pair of empty lines): the marker is
    appended to the last line, no region is found, nothing is stored, and
    the output keeps the opening fence and ends with the stray marker
    characters. *)
Example unclosed_fence_without_final_newline :
  run html_placeholder None 1 init (py_lines ["~~~"; "hello"])
  = Some (py_lines ["~~~"; "hello~~~"], init).
Proof. vm_compute. reflexivity. Qed.

(** The same document with a newline at its end, or with the blank-line
    pair the host appends, is repaired. *)
Example unclosed_fence_with_final_newline :
  run html_placeholder None 1 init (py_lines ["~~~"; "hello"; ""])
  = Some ([[]; html_placeholder 0; []],
          Preprocessor true None [CODE_WRAP [] ("hello" ++ [nl])]).
Proof. vm_compute. reflexivity. Qed.

Example unclosed_fence_with_blank_pair :
  run html_placeholder None 1 init (py_lines ["~~~"; "hello"; ""; ""])
  = Some ([[]; html_placeholder 0; []; []; []],
          Preprocessor true None [CODE_WRAP [] ("hello" ++ [nl])]).
Proof. vm_compute. reflexivity. Qed.

(** ** The loop stops *)

Lemma fence_lines_app_nl (a b : str) :
  fence_lines (a ++ nl :: b) = fence_lines a + fence_lines b.
Proof.
  unfold fence_lines. now rewrite split_app_nl, filter_app, length_app.
Qed.

Lemma fence_lines_nl (b : str) : fence_lines (nl :: b) = fence_lines b.
Proof. exact (fence_lines_app_nl [] b). Qed.

Lemma fence_lines_line (l : str) :
  nl_free l = true -> fence_lines l = if fence_line l then 1 else 0.
Proof.
  intros H. unfold fence_lines. rewrite (split_nl_free _ H). simpl.
  now destruct (fence_line l).
Qed.

Lemma fence_lines_after (pre X : str) :
  line_start pre -> fence_lines (pre ++ X) = fence_lines pre + fence_lines X.
Proof.
  intros [-> |[p ->]]; [reflexivity|].
  rewrite <- app_assoc. simpl. rewrite fence_lines_app_nl.
  now rewrite (fence_lines_app_nl p []), Nat.add_0_r.
Qed.

Lemma fence_lines_before (X post : str) :
  line_end post -> fence_lines (X ++ post) = fence_lines X + fence_lines post.
Proof.
  intros [-> |[q ->]]; [now rewrite app_nil_r, Nat.add_0_r|].
  rewrite fence_lines_app_nl. now rewrite fence_lines_nl.
Qed.

Lemma fence_lines_region (R : region) :
  well_formed R ->
  fence_lines (region_text R)
  = fence_lines (r_pre R) + fence_lines (region_span R) + fence_lines (r_post R)
    /\ 1 <= fence_lines (region_span R).
Proof.
  intros W. split.
  - unfold region_text.
    rewrite (fence_lines_after _ _ (wf_start R W)),
      (fence_lines_before _ _ (wf_end R W)). lia.
  - unfold region_span. cbn [app]. rewrite fence_lines_app_nl.
    rewrite (fence_lines_line _ (open_line_nl_free R W)).
    assert (E : fence_line (open_line R) = true).
    { apply Nat.leb_le. unfold open_line. apply leading_run_fence, W. }
    rewrite E. lia.
Qed.

Lemma fence_lines_splice (pre rep post : str) :
  line_start pre -> line_end post ->
  fence_lines (pre ++ [nl] ++ rep ++ [nl] ++ post)
  = fence_lines pre + fence_lines rep + fence_lines post.
Proof.
  intros Hs He.
  rewrite (fence_lines_after _ _ Hs). cbn [app].
  rewrite fence_lines_nl, fence_lines_app_nl.
  destruct He as [-> |[q ->]]; [unfold fence_lines; simpl; lia|].
  rewrite fence_lines_nl. lia.
Qed.

Lemma split_lines_nl_free (s : str) :
  Forall (fun l => nl_free l = true) (split [nl] s).
Proof.
  induction s as [|x s IH]; [repeat constructor|].
  rewrite split_nl_cons. destruct (Ascii.eqb x nl) eqn:E.
  - now constructor.
  - destruct (split [nl] s) as [|l ls]; simpl.
    + repeat constructor. simpl. now rewrite E.
    + inversion IH; subst. constructor; [|assumption].
      simpl. now rewrite E.
Qed.

Lemma fence_lines_join (xs : list str) :
  Forall (fun x => fence_lines x = 0) xs -> fence_lines (join [nl] xs) = 0.
Proof.
  induction xs as [|x xs IH]; intros H; [reflexivity|].
  inversion H as [|? ? Hx Hxs]; subst.
  destruct xs as [|y ys]; [exact Hx|].
  rewrite join_cons. cbn [app]. rewrite fence_lines_app_nl, Hx.
  now apply IH.
Qed.

Lemma fence_lines_join2 (xs : list str) :
  Forall (fun x => fence_lines x = 0) xs -> fence_lines (join [nl; nl] xs) = 0.
Proof.
  induction xs as [|x xs IH]; intros H; [reflexivity|].
  inversion H as [|? ? Hx Hxs]; subst.
  destruct xs as [|y ys]; [exact Hx|].
  rewrite join_cons. cbn [app]. rewrite fence_lines_app_nl, Hx.
  rewrite fence_lines_nl. now apply IH.
Qed.

(** The markup of a quote has no line that starts like a fence. *)
Lemma fence_lines_quote (text : str) : fence_lines (format_quote text) = 0.
Proof.
  rewrite format_quote_paragraphs. apply fence_lines_join2.
  apply Forall_map, Forall_forall. intros p _.
  unfold quote_paragraph. apply fence_lines_join.
  apply Forall_map, Forall_forall. intros l Hin.
  apply filter_In in Hin as [Hin _].
  pose proof (split_lines_nl_free p) as N. rewrite Forall_forall in N.
  rewrite fence_lines_line; [reflexivity|].
  simpl. now apply N.
Qed.

Lemma format_fence_fence_lines (placeholder : nat -> str) (exts : option config)
    (self : preprocessor) (m : match_obj) :
  (forall k, fence_lines (placeholder k) = 0) ->
  fence_lines (fst (format_fence placeholder exts self m)) = 0.
Proof.
  intros Hp. unfold format_fence.
  destruct (truthy (group m Glang) && _); [apply fence_lines_quote|].
  destruct (format_code exts self _ _ _) as [code self']. apply Hp.
Qed.

(** One turn of the loop leaves fewer lines that start like a fence. *)
Lemma process_fence_decreases (placeholder : nat -> str) (exts : option config)
    (self : preprocessor) (m : match_obj) (text : str) :
  (forall k, fence_lines (placeholder k) = 0) ->
  search FENCED_BLOCK_RE text = Some m ->
  fence_lines (fst (process_fence placeholder exts self m text))
  < fence_lines text.
Proof.
  intros Hp S.
  destruct (search_block text m S) as (R & W & T & Hs & He & _).
  pose proof (format_fence_fence_lines placeholder exts self m Hp) as Hrep.
  unfold process_fence.
  destruct (format_fence placeholder exts self m) as [rep self'].
  cbn [fst] in *. rewrite Hs, He, T. unfold region_text.
  rewrite firstn_length_app.
  rewrite (app_assoc (r_pre R) (region_span R) (r_post R)), skipn_length_app.
  rewrite fence_lines_splice; [|apply W|apply W].
  rewrite <- (app_assoc (r_pre R) (region_span R) (r_post R)).
  destruct (fence_lines_region R W) as [E L]. unfold region_text in E.
  rewrite E, Hrep. lia.
Qed.

(** With as many turns as the text has lines that start like a fence,
    the loop comes to its end. *)
Theorem run_loop_terminates (placeholder : nat -> str) (exts : option config) :
  (forall k, fence_lines (placeholder k) = 0) ->
  forall (turns : nat) (self : preprocessor) (text : str),
    fence_lines text <= turns ->
    exists r, run_loop placeholder exts turns self text = Some r.
Proof.
  intros Hp. induction turns as [|n IH]; intros self text L; simpl.
  - destruct (search FENCED_BLOCK_RE text) as [m|] eqn:S; [exfalso|eauto].
    pose proof (process_fence_decreases placeholder exts self m text Hp S). lia.
  - destruct (search FENCED_BLOCK_RE text) as [m|] eqn:S; [|eauto].
    pose proof (process_fence_decreases placeholder exts self m text Hp S) as D.
    destruct (process_fence placeholder exts self m text) as [text' self'].
    apply IH. cbn [fst] in D. lia.
Qed.

Corollary run_terminates (placeholder : nat -> str) (exts : option config)
    (self : preprocessor) (lines : list str) :
  (forall k, fence_lines (placeholder k) = 0) ->
  exists r,
    run placeholder exts (fence_lines (join [nl] lines)) self lines = Some r.
Proof.
  intros Hp. unfold run.
  destruct (run_loop_terminates placeholder exts Hp
              (fence_lines (join [nl] lines)) self (join [nl] lines)
              (Nat.le_refl _)) as ([text self'] & E).
  rewrite E. destruct (close_dangling placeholder exts self' text). eauto.
Qed.

(** The placeholders of Python-Markdown are on one line and do not start
    like a fence, so with them the loop always stops. *)
Lemma html_placeholder_fence_lines (k : nat) :
  fence_lines (html_placeholder k) = 0.
Proof.
  assert (N : forall d, nl_free (list_ascii_of_string (NilEmpty.string_of_uint d))
                        = true)
    by (induction d; simpl; auto).
  rewrite fence_lines_line; [reflexivity|].
  unfold html_placeholder. rewrite !nl_free_app, N. reflexivity.
Qed.

Corollary run_html_terminates (exts : option config) (self : preprocessor)
    (lines : list str) :
  exists r,
    run html_placeholder exts (fence_lines (join [nl] lines)) self lines = Some r.
Proof. apply run_terminates, html_placeholder_fence_lines. Qed.

(** ** A shorter run inside a fence *)

Lemma fence_lines_zero (text : str) :
  fence_lines text = 0
  <-> forallb (fun l => negb (fence_line l)) (split [nl] text) = true.
Proof.
  unfold fence_lines. induction (split [nl] text) as [|l ls IH]; [now split|].
  simpl. destruct (fence_line l); simpl; [split; discriminate|exact IH].
Qed.

(** A region after lines without fences, with no closing line in its
    body: the search returns it and [process_fence] puts its markup in
    its place. *)
Lemma found_region_is_replaced (placeholder : nat -> str) (exts : option config)
    (self : preprocessor) (R : region) :
  well_formed R -> fence_lines (r_pre R) = 0 ->
  no_close_inside (r_fence R) (r_code R) ->
  exists m,
    search FENCED_BLOCK_RE (region_text R) = Some m
    /\ group m Gfence = r_fence R /\ group m Glang = r_lang R
    /\ group m Gcode = r_code R
    /\ process_fence placeholder exts self m (region_text R)
       = (r_pre R ++ [nl] ++ fst (format_fence placeholder exts self m)
          ++ [nl] ++ r_post R,
          snd (format_fence placeholder exts self m)).
Proof.
  intros W Hpre NC.
  destruct (region_found R W (proj1 (fence_lines_zero _) Hpre) NC)
    as (m & M & Ms & Me & Gf & Gl & Gc).
  exists m. conj_split; auto.
  unfold process_fence.
  destruct (format_fence placeholder exts self m) as [rep self'].
  cbn [fst snd]. rewrite Ms, Me. unfold region_text.
  rewrite firstn_length_app.
  rewrite (app_assoc (r_pre R) (region_span R) (r_post R)), skipn_length_app.
  reflexivity.
Qed.

(** C2: inside a fence of [n] marker characters, a line that is a run of
    [k < n] of the same character does not close the region.  Whatever
    the other lines of the body, as long as none of them is the marker
    string followed by blanks only, the region found is the one closed by
    the next line that is exactly the marker string (with trailing blanks
    at most).  [run] replaces that region by one placeholder, and the
    block it stores is [<pre><code>], the lines of the body and
    [</code></pre>], with the shorter run among them as it was
    written. *)
Theorem shorter_run_stays_in_body (placeholder : nat -> str)
    (exts : option config) (turns : nat) (self : preprocessor)
    (c : ascii) (n k : nat) (pre sp1 deco lang sp2 : str)
    (above below : list str) (sp3 post : str) :
  is_marker c = true -> 3 <= n -> k < n ->
  line_start pre -> fence_lines pre = 0 ->
  blank sp1 -> annotation deco lang -> blank sp2 ->
  lang <> "quote" -> lang <> "quoted" ->
  Forall (fun l => nl_free l = true /\ ~ closes (repeat c n) l) (above ++ below) ->
  blank sp3 -> line_end post -> fence_lines post = 0 ->
  (forall j, fence_lines (placeholder j) = 0) ->
  codehilite_conf (check_codehilite exts self) = None ->
  exists m,
    search FENCED_BLOCK_RE
      (pre ++ (repeat c n ++ sp1 ++ deco ++ sp2) ++ [nl]
       ++ unlines (above ++ [repeat c k] ++ below)
       ++ (repeat c n ++ sp3) ++ post) = Some m
    /\ m_start m = length pre
    /\ m_end m = length (pre ++ (repeat c n ++ sp1 ++ deco ++ sp2) ++ [nl]
                         ++ unlines (above ++ [repeat c k] ++ below)
                         ++ repeat c n ++ sp3)
    /\ group m Gfence = repeat c n
    /\ group m Gcode = unlines (above ++ [repeat c k] ++ below)
    /\ format_fence placeholder exts self m =
       (placeholder (length (rawHtmlBlocks self)),
        stash_block (check_codehilite exts self)
          ("<pre><code"
           ++ (if truthy lang then " class=" ++ [dquote] ++ lang ++ [dquote]
               else [])
           ++ ">"
           ++ unlines (map _escape above ++ [repeat c k] ++ map _escape below)
           ++ "</code></pre>"))
    /\ run placeholder exts (S turns) self
         (split [nl]
            (pre ++ (repeat c n ++ sp1 ++ deco ++ sp2) ++ [nl]
             ++ unlines (above ++ [repeat c k] ++ below)
             ++ (repeat c n ++ sp3) ++ post))
       = Some (split [nl]
                 (pre ++ [nl] ++ placeholder (length (rawHtmlBlocks self))
                  ++ [nl] ++ post),
               stash_block (check_codehilite exts self)
                 ("<pre><code"
                  ++ (if truthy lang then " class=" ++ [dquote] ++ lang ++ [dquote]
                      else [])
                  ++ ">"
                  ++ unlines (map _escape above ++ [repeat c k]
                              ++ map _escape below)
                  ++ "</code></pre>")).
Proof.
  intros Hc Hn Hk Hs Zpre H1 Hd H2 Hq Hqd HF H3 He Zpost Hp Hconf.
  set (f := repeat c n). set (body := unlines (above ++ [repeat c k] ++ below)).
  assert (Hf : fence_string f) by (exists c, n; auto).
  pose (R := Region pre f sp1 deco lang sp2 body sp3 post).
  assert (W : well_formed R).
  { constructor; simpl; auto. apply line_start_unlines. }
  assert (NC : no_close_inside (r_fence R) (r_code R)).
  { apply no_close_unlines; [exact Hf|].
    apply Forall_app in HF as [Ha Hb].
    apply Forall_app. split; [exact Ha|].
    constructor; [|exact Hb]. split.
    - apply forallb_repeat. now rewrite is_marker_not_nl.
    - now apply shorter_run_not_closing. }
  destruct (region_found R W (proj1 (fence_lines_zero _) Zpre) NC)
    as (m & M & Ms & Me & Gf & Gl & Gc).
  destruct (found_region_is_replaced placeholder exts self R W Zpre NC)
    as (m' & M' & _ & _ & _ & P).
  rewrite M in M'. inversion M'; subst m'; clear M'.
  cbn [r_pre r_fence r_lang r_code r_post R] in Ms, Me, Gf, Gl, Gc, P.
  assert (T : region_text R
              = pre ++ (f ++ sp1 ++ deco ++ sp2) ++ [nl] ++ body
                ++ (f ++ sp3) ++ post).
  { unfold region_text, region_span, open_line, close_line, R. simpl.
    now app_norm. }
  assert (Sp : pre ++ region_span R
               = pre ++ (f ++ sp1 ++ deco ++ sp2) ++ [nl] ++ body ++ f ++ sp3).
  { unfold region_span, open_line, close_line, R. simpl. now app_norm. }
  assert (F : format_fence placeholder exts self m =
              (placeholder (length (rawHtmlBlocks self)),
               stash_block (check_codehilite exts self)
                 ("<pre><code"
                  ++ (if truthy lang then " class=" ++ [dquote] ++ lang ++ [dquote]
                      else [])
                  ++ ">"
                  ++ unlines (map _escape above ++ [repeat c k]
                              ++ map _escape below)
                  ++ "</code></pre>"))).
  { rewrite format_fence_plain; auto; rewrite Gl; auto.
    rewrite Gc, <- escape_each_char. unfold body.
    rewrite escape_unlines, !map_app. cbn [map].
    now rewrite (escape_marker_run c k Hc). }
  rewrite T in M, P. rewrite Sp in Me.
  exists m. conj_split; auto.
  unfold run. rewrite join_split. cbn [run_loop]. rewrite M, P, F.
  cbn [fst snd].
  assert (Z : fence_lines
                (pre ++ [nl] ++ placeholder (length (rawHtmlBlocks self))
                 ++ [nl] ++ post) = 0).
  { rewrite fence_lines_splice; auto. rewrite Zpre, Zpost, Hp. reflexivity. }
  destruct (no_fence_line_no_match _ (proj1 (fence_lines_zero _) Z)) as [S1 S2].
  rewrite (run_loop_none _ _ _ _ _ S1).
  unfold close_dangling. now rewrite S2.
Qed.

(** The docstring's example: an eight-tilde fence around a blank line and
    a four-tilde line. *)
Lemma shorter_run_stays_in_body_witness :
  exists m,
    search FENCED_BLOCK_RE
      ([] ++ (repeat tilde 8 ++ [] ++ [] ++ []) ++ [nl]
       ++ unlines ([[]] ++ [repeat tilde 4] ++ [])
       ++ (repeat tilde 8 ++ []) ++ []) = Some m
    /\ m_start m = length (@nil ascii)
    /\ m_end m = length ([] ++ (repeat tilde 8 ++ [] ++ [] ++ []) ++ [nl]
                         ++ unlines ([[]] ++ [repeat tilde 4] ++ [])
                         ++ repeat tilde 8 ++ [])
    /\ group m Gfence = repeat tilde 8
    /\ group m Gcode = unlines ([[]] ++ [repeat tilde 4] ++ [])
    /\ format_fence html_placeholder None init m =
       (html_placeholder (length (rawHtmlBlocks init)),
        stash_block (check_codehilite None init)
          ("<pre><code"
           ++ (if truthy [] then " class=" ++ [dquote] ++ [] ++ [dquote]
               else [])
           ++ ">"
           ++ unlines (map _escape [[]] ++ [repeat tilde 4] ++ map _escape [])
           ++ "</code></pre>"))
    /\ run html_placeholder None 1 init
         (split [nl]
            ([] ++ (repeat tilde 8 ++ [] ++ [] ++ []) ++ [nl]
             ++ unlines ([[]] ++ [repeat tilde 4] ++ [])
             ++ (repeat tilde 8 ++ []) ++ []))
       = Some (split [nl]
                 ([] ++ [nl] ++ html_placeholder (length (rawHtmlBlocks init))
                  ++ [nl] ++ []),
               stash_block (check_codehilite None init)
                 ("<pre><code"
                  ++ (if truthy [] then " class=" ++ [dquote] ++ [] ++ [dquote]
                      else [])
                  ++ ">"
                  ++ unlines (map _escape [[]] ++ [repeat tilde 4]
                              ++ map _escape [])
                  ++ "</code></pre>")).
Proof.
  apply (shorter_run_stays_in_body html_placeholder None 0 init tilde 8 4
           [] [] [] [] [] [[]] [] [] []).
  - reflexivity.
  - lia.
  - lia.
  - now left.
  - reflexivity.
  - reflexivity.
  - exists [], [], []. unfold opt_char. auto.
  - reflexivity.
  - discriminate.
  - discriminate.
  - constructor; [|constructor]. split; [reflexivity|].
    intros (sp & _ & E). discriminate E.
  - reflexivity.
  - now left.
  - reflexivity.
  - exact html_placeholder_fence_lines.
  - reflexivity.
Defined.

(** * Further properties of the module *)

(** ** What [FENCED_BLOCK_RE.search] finds *)

Lemma search_at_leftmost (r : regex) (pre : str) :
  forall (sn post : str) (b : cursor) (m : match_obj),
    den r (Cursor (rev pre ++ sn) post no_captures) b ->
    search_at r sn (pre ++ post) = Some m ->
    m_start m <= length sn + length pre.
Proof.
  induction pre as [|x pre IH]; intros sn post b m D S; simpl in *.
  - pose proof (rmatch_complete r _ b Some D ltac:(discriminate)) as M.
    destruct (rmatch r (Cursor sn post no_captures) Some) as [c|] eqn:E;
      [|contradiction].
    rewrite (search_at_here r sn post c E) in S. inversion S; subst m.
    simpl. lia.
  - destruct (rmatch r _ Some) as [c|].
    + inversion S; subst m. simpl. lia.
    + rewrite <- app_assoc in D. simpl in D.
      pose proof (IH (x :: sn) post b m D S) as L. simpl in L. lia.
Qed.

(** X1: a text that contains a well-formed fenced region always has a
    match, and the match starts at that region or before it: the search
    is complete and leftmost. *)
Theorem search_finds_leftmost_region (R : region) :
  well_formed R ->
  exists m,
    search FENCED_BLOCK_RE (region_text R) = Some m
    /\ m_start m <= length (r_pre R).
Proof.
  intros W. pose proof (block_found R W) as F.
  destruct (search FENCED_BLOCK_RE (region_text R)) as [m|] eqn:S;
    [|contradiction].
  exists m. split; [reflexivity|].
  destruct W as [Hs Hf H1 Hd H2 Hc H3 He].
  destruct (block_intro (rev (r_pre R)) (r_fence R) (r_sp1 R) (r_deco R)
              (r_lang R) (r_sp2 R) (r_code R) (r_sp3 R) (r_post R))
    as (b & D); auto.
  { now apply line_start_bound. }
  unfold region_text, region_span, open_line, close_line, search in S.
  rewrite <- !app_assoc in *.
  rewrite <- (app_nil_r (rev (r_pre R))) in D.
  exact (search_at_leftmost _ _ _ _ _ _ D S).
Qed.

Lemma two_blocks_well_formed : well_formed two_blocks.
Proof.
  constructor; cbn.
  - right. now exists ("a" ++ [nl] ++ "~~~" ++ [nl] ++ "b" ++ [nl] ++ "~~~").
  - exists backtick, 3. repeat split; try reflexivity; lia.
  - reflexivity.
  - exists [], [], []. unfold opt_char. auto.
  - reflexivity.
  - right. now exists "c".
  - reflexivity.
  - now left.
Qed.

Lemma search_finds_leftmost_region_witness :
  exists m,
    search FENCED_BLOCK_RE (region_text two_blocks) = Some m
    /\ m_start m <= length (r_pre two_blocks).
Proof. exact (search_finds_leftmost_region two_blocks two_blocks_well_formed). Defined.

Lemma search_at_rmatch (r : regex) (td : str) :
  forall (sn : str) (m : match_obj),
    search_at r sn td = Some m ->
    exists pre post c,
      td = pre ++ post
      /\ rmatch r (Cursor (rev pre ++ sn) post no_captures) Some = Some c
      /\ m = Match (length sn + length pre) (length (seen c)) (caps c).
Proof.
  induction td as [|x td IH]; intros sn m H; simpl in H.
  - destruct (rmatch r (Cursor sn [] no_captures) Some) as [c|] eqn:M;
      [|discriminate].
    inversion H; subst m. exists [], [], c. simpl. now rewrite Nat.add_0_r.
  - destruct (rmatch r (Cursor sn (x :: td) no_captures) Some) as [c|] eqn:M.
    + inversion H; subst m. exists [], (x :: td), c. simpl.
      now rewrite Nat.add_0_r.
    + destruct (IH _ _ H) as (pre & post & c & T & R & ->).
      exists (x :: pre), post, c. simpl. rewrite <- app_assoc. simpl.
      repeat split; auto; [now subst td|]. f_equal. lia.
Qed.

(** The body of a match is the shortest one: no line of it reads as a
    closing line for the marker of the match. *)
Lemma match_body_shortest (text : str) (m : match_obj) :
  search FENCED_BLOCK_RE text = Some m ->
  no_close_inside (group m Gfence) (group m Gcode).
Proof.
  intros S. apply search_at_rmatch in S as (pre & post & c & _ & M & ->).
  rewrite app_nil_r, rmatch_block in M.
  apply rmatch_sound in M as (mid & Dh & L).
  apply head_elim in Dh
    as (f & sp1 & deco & lang & sp2 & rest & cp & _ & Hf & _ & _ & _ & _ & -> & Cf & _).
  cbn [seen todo caps] in L.
  apply lazy_first in L as (w & t & -> & K & First).
  unfold capture in K. cbn [seen todo caps] in K.
  rewrite consumed_cursor in K.
  apply rmatch_sound in K as (b' & Dc & Eb). inversion Eb; subst b'; clear Eb.
  apply (close_elim f) in Dc as (sp3 & post' & s & Es & _ & _ & -> & ->);
    [|exact Cf].
  unfold group, cap_text. cbn [m_group caps]. unfold set_capture at 1 2.
  cbn [gname_eqb]. rewrite Cf.
  intros c1 sp c2 E Hc Hsp. subst w.
  specialize (First c1 (f ++ sp ++ nl :: c2) eq_refl).
  assert (N : f ++ sp ++ nl :: c2 <> []).
  { destruct Hf as (x & [|n] & _ & Hn & ->); [lia|discriminate]. }
  specialize (First N). unfold capture in First. cbn [seen todo caps] in First.
  destruct (line_start_seen c1 (rev (f ++ sp1 ++ deco ++ sp2) ++ rev pre) Hc)
    as (s' & Es').
  rewrite Es' in First. revert First.
  replace ((f ++ sp ++ nl :: c2) ++ f ++ sp3 ++ post')
    with (f ++ sp ++ (nl :: c2 ++ f ++ sp3 ++ post')) by now app_norm.
  eapply rmatch_complete; [|discriminate].
  apply close_intro; auto. right. eauto.
Qed.

(** X2: the region a match stands for is the shortest one from its
    opening line: no line of the body is the marker string followed by
    blanks only, so the first closing line below the opening line ends
    the region. *)
Theorem match_stops_at_first_closing_line (text : str) (m : match_obj) :
  search FENCED_BLOCK_RE text = Some m ->
  forall above line below,
    group m Gcode = above ++ line ++ nl :: below ->
    line_start above -> ~ closes (group m Gfence) line.
Proof.
  intros S above line below E Hs (sp & Hsp & ->).
  apply (match_body_shortest text m S above sp below); auto.
  rewrite E. now app_norm.
Qed.

Lemma match_stops_at_first_closing_line_witness :
  ~ closes (group twice_closed_match Gfence) "a".
Proof.
  apply (match_stops_at_first_closing_line twice_closed_text twice_closed_match
           eq_refl [] "a" []).
  - vm_compute. reflexivity.
  - now left.
Defined.

(** ** Marker strings of equal length *)

Lemma count_run_exact (c : ascii) (n : nat) (X : str) :
  is_marker c = true ->
  head_is (fun x => negb (is_marker x)) (X ++ [nl]) = true ->
  count_run c (repeat c n ++ X) = n.
Proof.
  intros Hc HX. induction n as [|n IH]; simpl.
  - destruct X as [|x X]; [reflexivity|]. simpl in *.
    destruct (Ascii.eqb_spec x c) as [-> |N]; [|reflexivity].
    now rewrite Hc in HX.
  - now rewrite Ascii.eqb_refl, IH.
Qed.

Lemma leading_run_exact (f X : str) :
  fence_string f ->
  head_is (fun x => negb (is_marker x)) (X ++ [nl]) = true ->
  leading_run (f ++ X) = length f.
Proof.
  intros (c & n & Hc & Hn & ->) HX. rewrite repeat_length.
  destruct n as [|n]; [lia|]. unfold leading_run. cbn [repeat app].
  rewrite Hc. exact (count_run_exact c (S n) X Hc HX).
Qed.

(** X3: the line at which a match starts and the line at which it ends
    start with runs of the marker character of exactly the same length,
    the length of the [fence] group: the region that spans the text from
    [m.start()] to [m.end()] has its closing marker at the start of a
    line, and a longer run closes a fence no more than a shorter one
    does. *)
Theorem closing_fence_has_the_opening_length (text : str) (m : match_obj) :
  search FENCED_BLOCK_RE text = Some m ->
  exists R,
    well_formed R /\ text = region_text R
    /\ m_start m = length (r_pre R)
    /\ m_end m = length (r_pre R ++ region_span R)
    /\ line_start (r_pre R ++ open_line R ++ [nl] ++ r_code R)
    /\ leading_run (open_line R) = length (group m Gfence)
    /\ leading_run (close_line R) = length (group m Gfence).
Proof.
  intros S.
  destruct (search_block text m S) as (R & W & T & Hs & He & Gf & _ & _).
  exists R. unfold group, cap_text. rewrite Gf.
  destruct W as [Ws Wf W1 Wd W2 Wc W3 We] eqn:EW. clear EW.
  conj_split; auto.
  - destruct Wc as [E|[p E]]; rewrite E.
    + right. exists (r_pre R ++ open_line R). now app_norm.
    + right. exists (r_pre R ++ open_line R ++ [nl] ++ p). now app_norm.
  - unfold open_line. apply leading_run_exact; [exact Wf|].
    pose proof (after_fence_head (r_sp1 R) (r_deco R) (r_lang R) (r_sp2 R) []
                  W1 Wd W2) as H.
    now rewrite <- !app_assoc.
  - unfold close_line. apply leading_run_exact; [exact Wf|].
    assert (A : annotation [] []).
    { exists [], [], []. unfold opt_char. auto. }
    exact (after_fence_head (r_sp3 R) [] [] [] [] W3 A eq_refl).
Qed.

Lemma closing_fence_has_the_opening_length_witness :
  exists R,
    well_formed R /\ twice_closed_text = region_text R
    /\ m_start twice_closed_match = length (r_pre R)
    /\ m_end twice_closed_match = length (r_pre R ++ region_span R)
    /\ line_start (r_pre R ++ open_line R ++ [nl] ++ r_code R)
    /\ leading_run (open_line R) = length (group twice_closed_match Gfence)
    /\ leading_run (close_line R) = length (group twice_closed_match Gfence).
Proof.
  apply (closing_fence_has_the_opening_length twice_closed_text twice_closed_match).
  vm_compute. reflexivity.
Defined.

(** ** One turn of the loop *)

(** X4: [process_fence] keeps the text before the matched region and the
    text after it as they are, and puts the markup of the region between
    them, on lines of its own: the opening line, the body and the closing
    line are gone from the text. *)
Theorem process_fence_replaces_the_region (placeholder : nat -> str)
    (exts : option config) (self : preprocessor) (text : str) (m : match_obj) :
  search FENCED_BLOCK_RE text = Some m ->
  exists R,
    well_formed R /\ text = region_text R
    /\ group m Gcode = r_code R
    /\ process_fence placeholder exts self m text
       = (r_pre R ++ [nl] ++ fst (format_fence placeholder exts self m)
          ++ [nl] ++ r_post R,
          snd (format_fence placeholder exts self m)).
Proof.
  intros S.
  destruct (search_block text m S) as (R & W & T & Hs & He & _ & _ & Gc).
  exists R. conj_split; auto.
  - unfold group, cap_text. now rewrite Gc.
  - unfold process_fence.
    destruct (format_fence placeholder exts self m) as [rep self'].
    cbn [fst snd]. rewrite Hs, He, T. unfold region_text.
    rewrite firstn_length_app.
    rewrite (app_assoc (r_pre R) (region_span R) (r_post R)), skipn_length_app.
    reflexivity.
Qed.

Lemma process_fence_replaces_the_region_witness :
  exists R,
    well_formed R /\ twice_closed_text = region_text R
    /\ group twice_closed_match Gcode = r_code R
    /\ process_fence html_placeholder None init twice_closed_match twice_closed_text
       = (r_pre R ++ [nl]
          ++ fst (format_fence html_placeholder None init twice_closed_match)
          ++ [nl] ++ r_post R,
          snd (format_fence html_placeholder None init twice_closed_match)).
Proof.
  apply (process_fence_replaces_the_region html_placeholder None init
           twice_closed_text twice_closed_match).
  vm_compute. reflexivity.
Defined.

(** ** A document with one fenced block *)

(** A fenced region has an opening line and a closing line. *)
Lemma match_needs_two_fence_lines (text : str) (m : match_obj) :
  search FENCED_BLOCK_RE text = Some m -> 2 <= fence_lines text.
Proof.
  intros S. destruct (search_block text m S) as (R & W & T & _).
  destruct (fence_lines_region R W) as [E _]. rewrite T, E.
  assert (L : 2 <= fence_lines (region_span R)); [|lia].
  unfold region_span. cbn [app]. rewrite fence_lines_app_nl.
  rewrite (fence_lines_line _ (open_line_nl_free R W)).
  assert (Eo : fence_line (open_line R) = true).
  { apply Nat.leb_le. unfold open_line. apply leading_run_fence, W. }
  rewrite Eo. rewrite (fence_lines_after _ _ (wf_code R W)).
  assert (Nc : nl_free (close_line R) = true).
  { unfold close_line. rewrite nl_free_app.
    rewrite (fence_string_nl_free _ (wf_fence R W)), (blank_nl_free _ (wf_sp3 R W)).
    reflexivity. }
  rewrite (fence_lines_line _ Nc).
  assert (Ec : fence_line (close_line R) = true).
  { apply Nat.leb_le. unfold close_line. apply leading_run_fence, W. }
  rewrite Ec. lia.
Qed.

(** X5: a document with one fenced block, the lines around it free of
    fences: [run] replaces the block by its markup, between two empty
    lines, and keeps the text above and below as it is; one turn of the
    loop is enough. *)
Theorem single_block_run (placeholder : nat -> str) (exts : option config)
    (turns : nat) (self : preprocessor) (R : region) :
  well_formed R ->
  fence_lines (r_pre R) = 0 -> fence_lines (r_post R) = 0 ->
  no_close_inside (r_fence R) (r_code R) ->
  (forall k, fence_lines (placeholder k) = 0) ->
  exists m,
    group m Gfence = r_fence R /\ group m Glang = r_lang R
    /\ group m Gcode = r_code R
    /\ run placeholder exts (S turns) self (split [nl] (region_text R))
       = Some (split [nl]
                 (r_pre R ++ [nl] ++ fst (format_fence placeholder exts self m)
                  ++ [nl] ++ r_post R),
               snd (format_fence placeholder exts self m)).
Proof.
  intros W Hpre Hpost NC Hp.
  destruct (region_found R W (proj1 (fence_lines_zero _) Hpre) NC)
    as (m & M & Ms & Me & Gf & Gl & Gc).
  exists m. conj_split; auto.
  pose proof (format_fence_fence_lines placeholder exts self m Hp) as Hrep.
  unfold run. rewrite join_split. cbn [run_loop]. rewrite M.
  unfold process_fence.
  destruct (format_fence placeholder exts self m) as [rep self'].
  cbn [fst snd] in *. rewrite Ms, Me. unfold region_text.
  rewrite firstn_length_app.
  rewrite (app_assoc (r_pre R) (region_span R) (r_post R)), skipn_length_app.
  assert (Z : fence_lines (r_pre R ++ [nl] ++ rep ++ [nl] ++ r_post R) = 0).
  { rewrite fence_lines_splice; [lia|apply W|apply W]. }
  destruct (no_fence_line_no_match _ (proj1 (fence_lines_zero _) Z)) as [S1 S2].
  rewrite (run_loop_none _ _ _ _ _ S1).
  unfold close_dangling. now rewrite S2.
Qed.

Lemma framed_block_well_formed : well_formed framed_block.
Proof.
  constructor; cbn.
  - right. now exists "intro".
  - exists tilde, 3. repeat split; try reflexivity; lia.
  - reflexivity.
  - exists [], [], []. unfold opt_char. auto.
  - reflexivity.
  - right. now exists "x = 1".
  - reflexivity.
  - right. now exists "outro".
Qed.

Lemma single_block_run_witness :
  exists m,
    group m Gfence = r_fence framed_block /\ group m Glang = r_lang framed_block
    /\ group m Gcode = r_code framed_block
    /\ run html_placeholder None 1 init (split [nl] (region_text framed_block))
       = Some (split [nl]
                 (r_pre framed_block ++ [nl]
                  ++ fst (format_fence html_placeholder None init m)
                  ++ [nl] ++ r_post framed_block),
               snd (format_fence html_placeholder None init m)).
Proof.
  apply (single_block_run html_placeholder None 0 init framed_block).
  - exact framed_block_well_formed.
  - reflexivity.
  - reflexivity.
  - apply (no_close_unlines "~~~" [list_ascii_of_string "x = 1"]).
    + exists tilde, 3. repeat split; try reflexivity; lia.
    + constructor; [|constructor]. split; [reflexivity|].
      intros (sp & _ & E). discriminate E.
  - exact html_placeholder_fence_lines.
Defined.

(** ** The text above the first fence *)

Lemma search_start_after (r : regex) (pre rest : str) (m : match_obj) :
  line_start pre -> fence_lines pre = 0 ->
  search (Seq fence_group r) (pre ++ rest) = Some m ->
  length pre <= m_start m.
Proof.
  intros Hs Hno S.
  rewrite (search_skip _ _ _ Hs (proj1 (fence_lines_zero _) Hno)) in S.
  apply search_at_rmatch in S as (p & post & c & _ & _ & ->).
  cbn [m_start]. rewrite length_rev. lia.
Qed.

Lemma firstn_beyond (pre rest : str) (n : nat) :
  length pre <= n -> firstn n (pre ++ rest) = pre ++ firstn (n - length pre) rest.
Proof. intros L. rewrite firstn_app, firstn_all2; auto. Qed.

Lemma process_fence_keeps_prefix (placeholder : nat -> str)
    (exts : option config) (self : preprocessor) (pre rest : str) (m : match_obj) :
  line_start pre -> fence_lines pre = 0 ->
  search FENCED_BLOCK_RE (pre ++ rest) = Some m ->
  exists rest',
    fst (process_fence placeholder exts self m (pre ++ rest)) = pre ++ rest'.
Proof.
  intros Hs Hno S. pose proof (search_start_after _ _ _ _ Hs Hno S) as L.
  unfold process_fence.
  destruct (format_fence placeholder exts self m) as [rep self'].
  cbn [fst]. rewrite (firstn_beyond _ _ _ L), <- app_assoc. eauto.
Qed.

Lemma run_loop_keeps_prefix (placeholder : nat -> str) (exts : option config)
    (pre : str) (turns : nat) :
  line_start pre -> fence_lines pre = 0 ->
  forall (self self' : preprocessor) (rest text' : str),
    run_loop placeholder exts turns self (pre ++ rest) = Some (text', self') ->
    exists rest', text' = pre ++ rest'.
Proof.
  intros Hs Hno.
  induction turns as [|n IH]; intros self self' rest text' H; simpl in H.
  - destruct (search FENCED_BLOCK_RE (pre ++ rest)); [discriminate|].
    inversion H; subst. eauto.
  - destruct (search FENCED_BLOCK_RE (pre ++ rest)) as [m|] eqn:S.
    + destruct (process_fence_keeps_prefix placeholder exts self pre rest m
                  Hs Hno S) as (r1 & E1).
      destruct (process_fence placeholder exts self m (pre ++ rest)) as [t1 s1].
      cbn [fst] in E1. subst t1. exact (IH _ _ _ _ H).
    + inversion H; subst. eauto.
Qed.

Lemma close_dangling_keeps_prefix (placeholder : nat -> str)
    (exts : option config) (self : preprocessor) (pre rest : str) :
  line_start pre -> fence_lines pre = 0 ->
  exists rest',
    fst (close_dangling placeholder exts self (pre ++ rest)) = pre ++ rest'.
Proof.
  intros Hs Hno. unfold close_dangling.
  destruct (search FENCE_RE (pre ++ rest)) as [fence|] eqn:F; [|simpl; eauto].
  assert (E : exists X,
             (if str_eqb (last_n 2 (pre ++ rest)) [nl; nl]
              then drop_last_n 2 (pre ++ rest) ++ [nl] ++ group fence Gfence
                   ++ last_n 2 (pre ++ rest)
              else (pre ++ rest) ++ group fence Gfence) = pre ++ X).
  { destruct (str_eqb _ _); [|rewrite <- app_assoc; eauto].
    pose proof (search_start_after _ _ _ _ Hs Hno F) as L.
    destruct (search_fence _ _ F)
      as (p & f & sp1 & deco & lang & post & T & _ & Hf & _ & _ & _ & Ms & _).
    assert (L2 : 2 <= length rest).
    { apply (f_equal (@length ascii)) in T. rewrite !length_app in T.
      destruct Hf as (c & n & _ & Hn & ->). rewrite repeat_length in T. lia. }
    unfold drop_last_n. rewrite firstn_beyond, <- app_assoc; [eauto|].
    rewrite length_app. lia. }
  destruct E as (X & ->).
  destruct (search FENCED_BLOCK_RE (pre ++ X)) as [m|] eqn:S; [|simpl; eauto].
  now apply process_fence_keeps_prefix.
Qed.

Lemma split_unlines_app (ls : list str) (X : str) :
  Forall (fun l => nl_free l = true) ls ->
  split [nl] (unlines ls ++ X) = ls ++ split [nl] X.
Proof.
  induction ls as [|l ls IH]; intros H; [reflexivity|].
  inversion H as [|? ? Hl Hls]; subst.
  unfold unlines in *. simpl. rewrite <- !app_assoc. simpl.
  now rewrite split_app_nl, (split_nl_free _ Hl), IH.
Qed.

Lemma join_app_unlines (above rest : list str) :
  rest <> [] -> join [nl] (above ++ rest) = unlines above ++ join [nl] rest.
Proof.
  intros N. induction above as [|l ls IH]; [reflexivity|].
  cbn [app]. destruct (ls ++ rest) as [|x xs] eqn:E.
  - apply app_eq_nil in E as [_ E]. contradiction.
  - rewrite join_cons, IH. unfold unlines. cbn [map concat]. now app_norm.
Qed.

Lemma fence_lines_unlines (ls : list str) :
  Forall (fun l => nl_free l = true /\ fence_line l = false) ls ->
  fence_lines (unlines ls) = 0.
Proof.
  intros H. apply fence_lines_zero. rewrite split_unlines.
  - rewrite forallb_app. simpl. rewrite andb_true_r.
    apply forallb_forall. intros l Hin. rewrite Forall_forall in H.
    destruct (H l Hin) as [_ E]. now rewrite E.
  - eapply Forall_impl; [|exact H]. now intros l [E _].
Qed.

(** X6: the lines of a document above its first line that starts like a
    fence come out of [run] as they went in, whatever the rest of the
    document, the placeholders and the highlighter are. *)
Theorem lines_above_the_first_fence_are_kept (placeholder : nat -> str)
    (exts : option config) (turns : nat) (self self' : preprocessor)
    (above rest out : list str) :
  Forall (fun l => nl_free l = true /\ fence_line l = false) above ->
  run placeholder exts turns self (above ++ rest) = Some (out, self') ->
  exists out', out = above ++ out'.
Proof.
  intros Ha H.
  assert (Na : Forall (fun l => nl_free l = true) above)
    by (eapply Forall_impl; [|exact Ha]; now intros l [E _]).
  destruct rest as [|r rest].
  - (* no line below: nothing matches *)
    rewrite app_nil_r in H. destruct above as [|a above]; [now exists out|].
    assert (Z : forallb (fun l => negb (fence_line l))
                  (split [nl] (join [nl] (a :: above))) = true).
    { rewrite split_join_lines; [|discriminate|exact Na].
      apply forallb_forall. intros l Hin. rewrite Forall_forall in Ha.
      destruct (Ha l Hin) as [_ E]. now rewrite E. }
    destruct (no_fence_line_no_match _ Z) as [S1 S2].
    unfold run in H. rewrite (run_loop_none _ _ _ _ _ S1) in H.
    unfold close_dangling in H. rewrite S2 in H.
    rewrite split_join_lines in H; [|discriminate|exact Na].
    inversion H; subst. exists []. now rewrite app_nil_r.
  - unfold run in H.
    rewrite (join_app_unlines above (r :: rest) ltac:(discriminate)) in H.
    pose proof (line_start_unlines above) as Hs.
    pose proof (fence_lines_unlines above Ha) as Hno.
    destruct (run_loop placeholder exts turns self _) as [[t1 s1]|] eqn:L;
      [|discriminate].
    destruct (run_loop_keeps_prefix placeholder exts _ turns Hs Hno _ _ _ _ L)
      as (r1 & ->).
    destruct (close_dangling_keeps_prefix placeholder exts s1 _ r1 Hs Hno)
      as (r2 & E2).
    destruct (close_dangling placeholder exts s1 _) as [t2 s2].
    cbn [fst] in E2. subst t2. inversion H; subst.
    rewrite (split_unlines_app above r2 Na). eauto.
Qed.

Lemma lines_above_the_first_fence_are_kept_witness :
  exists out',
    py_lines ["intro"; ""; "~~~"; "hello~~~"]
    = py_lines ["intro"; ""] ++ out'.
Proof.
  apply (lines_above_the_first_fence_are_kept html_placeholder None 0 init init
           (py_lines ["intro"; ""]) (py_lines ["~~~"; "hello"])).
  - repeat constructor.
  - vm_compute. reflexivity.
Defined.

(** ** The repair of an unclosed fence, line by line *)

Lemma not_fence_line_not_closing (f l : str) :
  fence_string f -> fence_line l = false -> ~ closes f l.
Proof.
  intros Hf H (sp & _ & ->).
  pose proof (leading_run_fence f sp Hf) as L. apply Nat.leb_le in L.
  unfold fence_line in H. congruence.
Qed.

Lemma last_two_of_line (p l : str) :
  l <> [] -> nl_free l = true -> str_eqb (last_n 2 (p ++ l ++ [nl])) [nl; nl] = false.
Proof.
  intros N H. destruct (exists_last N) as (l' & x & ->).
  replace (p ++ (l' ++ [x]) ++ [nl]) with ((p ++ l') ++ [x; nl]) by now app_norm.
  pose proof (last_n_app (p ++ l') [x; nl]) as L. cbn [length] in L. rewrite L.
  apply str_eqb_neq. intros E. inversion E; subst x.
  rewrite nl_free_app in H. simpl in H. rewrite andb_false_r in H. discriminate H.
Qed.

Lemma unlines_app (a b : list str) : unlines (a ++ b) = unlines a ++ unlines b.
Proof. unfold unlines. now rewrite map_app, concat_app. Qed.

Lemma unlines_one (l : str) : unlines [l] = l ++ [nl].
Proof. unfold unlines. simpl. apply app_nil_r. Qed.

Lemma fence_string_not_nil (f : str) : fence_string f -> f <> [].
Proof. intros (c & [|n] & _ & Hn & ->); [lia|discriminate]. Qed.

(** X7: a document that ends with an opening fence line, the lines of the
    body below it and a final newline (or the pair of empty lines the
    host appends): [run] closes the fence on a line of its own and renders
    one region, whose body is all the lines below the opening line. *)
Theorem unclosed_fence_is_closed (placeholder : nat -> str)
    (exts : option config) (turns : nat) (self : preprocessor)
    (above below : list str) (f sp1 deco lang : str) (pair : bool) :
  Forall (fun l => nl_free l = true /\ fence_line l = false) above ->
  fence_string f -> blank sp1 -> annotation deco lang ->
  Forall (fun l => nl_free l = true /\ fence_line l = false) below ->
  (pair = false -> last below (f ++ sp1 ++ deco) <> []) ->
  exists m,
    group m Gfence = f /\ group m Glang = lang
    /\ group m Gcode = unlines below
    /\ run placeholder exts turns self
         (above ++ [f ++ sp1 ++ deco] ++ below
          ++ if pair then [[]; []] else [[]])
       = Some (above ++ [[]]
               ++ split [nl] (fst (format_fence placeholder exts self m))
               ++ (if pair then [[]; []; []] else [[]]),
               snd (format_fence placeholder exts self m)).
Proof.
  intros Ha Hf H1 Hd Hb Hpair.
  set (opening := f ++ sp1 ++ deco) in *.
  assert (No : nl_free opening = true).
  { unfold opening. rewrite !nl_free_app.
    now rewrite (fence_string_nl_free _ Hf), (blank_nl_free _ H1),
      (annotation_nl_free _ _ Hd). }
  assert (Na : Forall (fun l => nl_free l = true) above)
    by (eapply Forall_impl; [|exact Ha]; now intros l [E _]).
  assert (Nb : Forall (fun l => nl_free l = true) below)
    by (eapply Forall_impl; [|exact Hb]; now intros l [E _]).
  assert (Hb' : Forall (fun l => nl_free l = true /\ ~ closes f l) below).
  { eapply Forall_impl; [|exact Hb]. intros l [E F]. split; [exact E|].
    now apply not_fence_line_not_closing. }
  assert (Hlast : pair = false ->
                  str_eqb (last_n 2 (dangling_doc above opening below)) [nl; nl]
                  = false).
  { intros P. specialize (Hpair P). unfold dangling_doc.
    destruct below as [|b0 bs].
    - change (unlines []) with (@nil ascii). rewrite app_nil_r.
      now apply last_two_of_line.
    - destruct (exists_last (l := b0 :: bs) ltac:(discriminate)) as (b' & l & E).
      rewrite E in *. rewrite last_last in Hpair.
      apply Forall_app in Nb as [_ Nl]. inversion Nl as [|? ? Hl _]; subst.
      replace (unlines above ++ opening ++ [nl] ++ unlines (b' ++ [l]))
        with ((unlines above ++ opening ++ [nl] ++ unlines b') ++ l ++ [nl]).
      + now apply last_two_of_line.
      + rewrite unlines_app, unlines_one. now app_norm. }
  destruct (dangling_fence_closed placeholder exts turns self above below
              f sp1 deco lang pair Ha Hf H1 Hd Hb' Hlast)
    as (m & Gf & Gl & Gc & R).
  { (* no complete region: the opening line is the only fence line *)
    destruct (search FENCED_BLOCK_RE _) as [m|] eqn:S; [exfalso|reflexivity].
    apply match_needs_two_fence_lines in S.
    unfold dangling_doc in S. rewrite <- !app_assoc in S.
    rewrite (fence_lines_after _ _ (line_start_unlines above)) in S.
    rewrite (fence_lines_unlines above Ha) in S.
    replace (f ++ sp1 ++ deco ++ [nl] ++ unlines below
             ++ if pair then [nl] else [])
      with (opening ++ nl :: unlines below ++ if pair then [nl] else []) in S
      by (unfold opening; now app_norm).
    rewrite fence_lines_app_nl, (fence_lines_line _ No) in S.
    assert (Z : fence_lines (unlines below ++ if pair then [nl] else []) = 0).
    { destruct pair.
      - rewrite (fence_lines_app_nl (unlines below) []).
        now rewrite (fence_lines_unlines below Hb).
      - rewrite app_nil_r. apply (fence_lines_unlines below Hb). }
    rewrite Z in S. destruct (fence_line opening); lia. }
  exists m. conj_split; auto.
  assert (Ein : split [nl] (dangling_doc above opening below
                            ++ if pair then [nl] else [])
                = above ++ [opening] ++ below ++ if pair then [[]; []] else [[]]).
  { unfold dangling_doc.
    replace ((unlines above ++ opening ++ [nl] ++ unlines below)
             ++ if pair then [nl] else [])
      with (unlines (above ++ [opening] ++ below) ++ if pair then [nl] else []).
    - rewrite split_unlines_app.
      + rewrite <- !app_assoc. now destruct pair.
      + apply Forall_app. split; [exact Na|]. now constructor.
    - rewrite !unlines_app. unfold unlines at 2. cbn [map concat].
      now app_norm. }
  unfold opening in Ein. rewrite Ein in R. unfold opening. rewrite R.
  f_equal. f_equal.
  rewrite (split_unlines_app above _ Na). f_equal.
  cbn [app]. rewrite split_nl_cons, Ascii.eqb_refl.
  rewrite split_app_nl. now destruct pair.
Qed.

Lemma unclosed_fence_is_closed_witness :
  exists m,
    group m Gfence = "~~~" /\ group m Glang = "py"
    /\ group m Gcode = unlines (py_lines ["hello"])
    /\ run html_placeholder None 0 init
         (py_lines ["intro"] ++ [list_ascii_of_string "~~~" ++ " " ++ "{.py}"]
          ++ py_lines ["hello"] ++ [[]; []])
       = Some (py_lines ["intro"] ++ [[]]
               ++ split [nl] (fst (format_fence html_placeholder None init m))
               ++ [[]; []; []],
               snd (format_fence html_placeholder None init m)).
Proof.
  apply (unclosed_fence_is_closed html_placeholder None 0 init
           (py_lines ["intro"]) (py_lines ["hello"]) "~~~" " " "{.py}" "py" true).
  - repeat constructor.
  - exists tilde, 3. repeat split; try reflexivity; lia.
  - reflexivity.
  - exists ["{"%char], ["."%char], ["}"%char]. unfold opt_char. auto 6.
  - repeat constructor.
  - discriminate.
Defined.

(** ** Blanks after the annotation *)

Lemma annotation_no_space (deco lang : str) :
  annotation deco lang -> forallb (fun c => negb (is_space c)) deco = true.
Proof.
  intros (o & d & c & Ho & Hd & Hc & -> & Hl).
  rewrite !forallb_app.
  assert (L : forallb (fun c => negb (is_space c)) lang = true).
  { apply forallb_forall. intros x Hin. rewrite forallb_forall in Hl.
    destruct (lang_char_cases x (Hl x Hin)) as (_ & E & _). now rewrite E. }
  rewrite L. now destruct Ho as [-> | ->], Hd as [-> | ->], Hc as [-> | ->].
Qed.

Lemma skip_while_blank (sp X : str) :
  blank sp -> forallb (fun c => negb (is_space c)) X = true ->
  skip_while is_space (sp ++ X) = X.
Proof.
  intros Hs HX. induction sp as [|x sp IH]; cbn [app skip_while].
  - destruct X as [|y X]; [reflexivity|]. cbn [forallb] in HX.
    apply andb_prop in HX as [Hy _]. apply negb_true_iff in Hy.
    cbn [skip_while]. now rewrite Hy.
  - unfold blank in Hs. cbn [forallb] in Hs. apply andb_prop in Hs as [Hx Hs].
    rewrite Hx. now apply IH.
Qed.

(** An opening line with blanks after a non-empty annotation is not of
    the form [FENCE_RE] asks for. *)
Lemma trailing_blanks_not_fence (f sp1 deco lang sp2 f' sp1' deco' lang' : str) :
  fence_string f -> blank sp1 -> annotation deco lang -> deco <> [] ->
  blank sp2 -> sp2 <> [] ->
  fence_string f' -> blank sp1' -> annotation deco' lang' ->
  f' ++ sp1' ++ deco' <> f ++ sp1 ++ deco ++ sp2.
Proof.
  intros Hf H1 Hd Nd H2 N2 Hf' H1' Hd' E.
  assert (A0 : annotation [] []).
  { exists [], [], []. unfold opt_char. auto. }
  assert (E' : f' ++ sp1' ++ deco' ++ [] ++ [nl] = f ++ sp1 ++ deco ++ sp2 ++ [nl]).
  { cbn [app]. apply (f_equal (fun s => s ++ [nl])) in E.
    rewrite <- !app_assoc in E. exact E. }
  destruct Hf as (c & n & Hc & Hn & ->), Hf' as (c' & n' & Hc' & Hn' & ->).
  apply fence_run_unique in E' as [_ E']; auto; try lia;
    [|exact (after_fence_head sp1' deco' lang' [] [] H1' Hd' eq_refl)
     |exact (after_fence_head sp1 deco lang sp2 [] H1 Hd H2)].
  cbn [app] in E'.
  replace (sp1' ++ deco' ++ [nl]) with ((sp1' ++ deco') ++ [nl]) in E'
    by now app_norm.
  replace (sp1 ++ deco ++ sp2 ++ [nl]) with ((sp1 ++ deco ++ sp2) ++ [nl]) in E'
    by now app_norm.
  apply app_inv_tail in E'.
  pose proof (annotation_no_space _ _ Hd) as D.
  pose proof (annotation_no_space _ _ Hd') as D'.
  apply (f_equal (skip_while is_space)) in E'.
  rewrite (skip_while_blank _ _ H1' D') in E'.
  assert (K : skip_while is_space (sp1 ++ deco ++ sp2) = deco ++ sp2).
  { destruct deco as [|x deco]; [contradiction|].
    cbn [forallb] in D. apply andb_prop in D as [Dx _].
    apply negb_true_iff in Dx.
    clear -H1 Dx. induction sp1 as [|y sp1 IH]; cbn [app skip_while].
    - now rewrite Dx.
    - unfold blank in H1. cbn [forallb] in H1. apply andb_prop in H1 as [Hy H1].
      rewrite Hy. now apply IH. }
  rewrite K in E'. rewrite E', forallb_app in D'.
  apply andb_prop in D' as [_ D'].
  destruct sp2 as [|y sp2]; [contradiction|].
  unfold blank in H2. cbn [forallb] in H2, D'.
  apply andb_prop in H2 as [Hy _]. rewrite Hy in D'. discriminate D'.
Qed.

Lemma line_in_split (pre l post : str) :
  line_start pre -> nl_free l = true -> line_end post ->
  In l (split [nl] (pre ++ l ++ post)).
Proof.
  intros Hs Hl He.
  assert (I : In l (split [nl] (l ++ post))).
  { destruct He as [-> |[q ->]].
    - rewrite app_nil_r, (split_nl_free _ Hl). now left.
    - rewrite split_app_nl, (split_nl_free _ Hl). now left. }
  destruct Hs as [-> |[p ->]]; [exact I|].
  rewrite <- app_assoc. cbn [app]. rewrite split_app_nl.
  apply in_or_app. now right.
Qed.

(** X8: the two patterns disagree on blanks after the annotation:
    [FENCED_BLOCK_RE] allows them on an opening line, [FENCE_RE] does
    not.  So an opening line such as [~~~ python ] with a blank at its end
    and no closing line below is not seen as a dangling fence: [run]
    neither closes nor renders it and returns the document as it was,
    although the same line does open a region once a closing line
    follows. *)
Theorem blanks_after_annotation_leave_fence_open (placeholder : nat -> str)
    (exts : option config) (turns : nat) (self : preprocessor)
    (above below : list str) (f sp1 deco lang sp2 : str) :
  Forall (fun l => nl_free l = true /\ fence_line l = false) above ->
  fence_string f -> blank sp1 -> annotation deco lang -> deco <> [] ->
  blank sp2 -> sp2 <> [] ->
  Forall (fun l => nl_free l = true /\ fence_line l = false) below ->
  run placeholder exts turns self (above ++ [f ++ sp1 ++ deco ++ sp2] ++ below)
  = Some (above ++ [f ++ sp1 ++ deco ++ sp2] ++ below, self)
  /\ search FENCED_BLOCK_RE ((f ++ sp1 ++ deco ++ sp2) ++ [nl] ++ f) <> None.
Proof.
  intros Ha Hf H1 Hd Nd H2 N2 Hb.
  set (opening := f ++ sp1 ++ deco ++ sp2).
  set (lines := above ++ [opening] ++ below).
  assert (No : nl_free opening = true).
  { unfold opening. rewrite !nl_free_app.
    now rewrite (fence_string_nl_free _ Hf), (blank_nl_free _ H1),
      (annotation_nl_free _ _ Hd), (blank_nl_free _ H2). }
  assert (Nl : Forall (fun l => nl_free l = true) lines).
  { unfold lines. apply Forall_app. split.
    - eapply Forall_impl; [|exact Ha]. now intros l [E _].
    - constructor; [exact No|].
      eapply Forall_impl; [|exact Hb]. now intros l [E _]. }
  assert (Ne : lines <> []) by (unfold lines; now destruct above).
  assert (Sp : split [nl] (join [nl] lines) = lines)
    by now apply split_join_lines.
  assert (Cnt : fence_lines (join [nl] lines) <= 1).
  { unfold fence_lines. rewrite Sp. unfold lines.
    rewrite !filter_app, !length_app.
    assert (Z : forall ls,
               Forall (fun l => nl_free l = true /\ fence_line l = false) ls ->
               length (filter fence_line ls) = 0).
    { induction ls as [|l ls IH]; intros H; [reflexivity|].
      inversion H as [|? ? [_ El] Hls]; subst. simpl. rewrite El. now apply IH. }
    assert (O1 : length (filter fence_line [opening]) <= 1)
      by (simpl; destruct (fence_line opening); simpl; lia).
    pose proof (Z above Ha) as Za. pose proof (Z below Hb) as Zb.
    unfold str in *. lia. }
  assert (S1 : search FENCED_BLOCK_RE (join [nl] lines) = None).
  { destruct (search FENCED_BLOCK_RE _) as [m|] eqn:S; [|reflexivity].
    apply match_needs_two_fence_lines in S. lia. }
  assert (S2 : search FENCE_RE (join [nl] lines) = None).
  { destruct (search FENCE_RE _) as [m|] eqn:S; [exfalso|reflexivity].
    destruct (search_fence _ _ S)
      as (pre & f' & sp1' & deco' & lang' & post & T & Hs & Hf' & H1' & Hd' & He & _).
    assert (Nl' : nl_free (f' ++ sp1' ++ deco') = true).
    { rewrite !nl_free_app.
      now rewrite (fence_string_nl_free _ Hf'), (blank_nl_free _ H1'),
        (annotation_nl_free _ _ Hd'). }
    pose proof (line_in_split pre (f' ++ sp1' ++ deco') post Hs Nl' He) as I.
    replace (pre ++ (f' ++ sp1' ++ deco') ++ post)
      with (join [nl] lines) in I by (rewrite T; now app_norm).
    rewrite Sp in I. unfold lines in I.
    assert (Fl : fence_line (f' ++ sp1' ++ deco') = true)
      by (apply Nat.leb_le; now apply leading_run_fence).
    apply in_app_or in I as [I|[I|I]].
    - rewrite Forall_forall in Ha. destruct (Ha _ I) as [_ E]. congruence.
    - symmetry in I. revert I.
      now apply (trailing_blanks_not_fence f sp1 deco lang sp2 f' sp1' deco' lang').
    - rewrite Forall_forall in Hb. destruct (Hb _ I) as [_ E]. congruence. }
  split.
  - unfold run. fold opening. fold lines.
    rewrite (run_loop_none _ _ _ _ _ S1).
    unfold close_dangling. now rewrite S2, Sp.
  - pose (R := Region [] f sp1 deco lang sp2 [] [] []).
    assert (W : well_formed R).
    { constructor; cbn; auto; try reflexivity; now left. }
    pose proof (block_found R W) as F.
    unfold region_text, region_span, open_line, close_line in F. cbn in F.
    rewrite !app_nil_r in F. intros E. apply F. rewrite <- E. f_equal.
    now app_norm.
Qed.

Lemma blanks_after_annotation_leave_fence_open_witness :
  run html_placeholder None 0 init
      (py_lines ["intro"] ++ [list_ascii_of_string "~~~" ++ " " ++ "python" ++ " "]
       ++ py_lines ["x = 1"; ""])
  = Some (py_lines ["intro"]
          ++ [list_ascii_of_string "~~~" ++ " " ++ "python" ++ " "]
          ++ py_lines ["x = 1"; ""], init)
  /\ search FENCED_BLOCK_RE
       ((list_ascii_of_string "~~~" ++ " " ++ "python" ++ " ") ++ [nl] ++ "~~~")
     <> None.
Proof.
  apply (blanks_after_annotation_leave_fence_open html_placeholder None 0 init
           (py_lines ["intro"]) (py_lines ["x = 1"; ""])
           "~~~" " " "python" "python" " ").
  - repeat constructor.
  - exists tilde, 3. repeat split; try reflexivity; lia.
  - reflexivity.
  - exists [], [], []. unfold opt_char. auto.
  - discriminate.
  - reflexivity.
  - discriminate.
  - repeat constructor.
Defined.

(** ** When the loop stops, and when it does not *)

(** X9: when no placeholder of the stash has a line that starts like a
    fence (those of Python-Markdown do not), the loop of [run] stops: as
    many turns as the document has lines that start like a fence are
    enough, and [run] returns a result. *)
Theorem run_stops (placeholder : nat -> str) (exts : option config)
    (turns : nat) (self : preprocessor) (lines : list str) :
  (forall k, fence_lines (placeholder k) = 0) ->
  fence_lines (join [nl] lines) <= turns ->
  exists out self', run placeholder exts turns self lines = Some (out, self').
Proof.
  intros Hp L. unfold run.
  destruct (run_loop_terminates placeholder exts Hp turns self
              (join [nl] lines) L) as ([text self'] & E).
  rewrite E. destruct (close_dangling placeholder exts self' text). eauto.
Qed.

Lemma run_stops_witness :
  exists out self',
    run html_placeholder None 4 init
        (py_lines ["~~~"; "a"; "~~~"; "```"; "b"; "```"])
    = Some (out, self').
Proof.
  apply (run_stops html_placeholder None 4 init
           (py_lines ["~~~"; "a"; "~~~"; "```"; "b"; "```"])).
  - exact html_placeholder_fence_lines.
  - vm_compute. lia.
Defined.

Lemma repeat_nl_line_start (n : nat) : line_start (repeat nl n).
Proof.
  destruct n as [|n]; [now left|]. right. exists (repeat nl n).
  now rewrite <- repeat_cons.
Qed.

Lemma repeat_nl_line_end (n : nat) : line_end (repeat nl n).
Proof. destruct n as [|n]; [now left|]. right. now exists (repeat nl n). Qed.

Lemma repeat_nl_fence_lines (n : nat) : fence_lines (repeat nl n) = 0.
Proof.
  induction n as [|n IH]; [reflexivity|]. simpl. now rewrite fence_lines_nl.
Qed.

Lemma format_fence_code (placeholder : nat -> str) (exts : option config)
    (self : preprocessor) (m : match_obj) :
  group m Glang <> "quote" -> group m Glang <> "quoted" ->
  exists k, fst (format_fence placeholder exts self m) = placeholder k.
Proof.
  intros Hq Hqd. unfold format_fence.
  rewrite (str_eqb_neq _ _ Hq), (str_eqb_neq _ _ Hqd), andb_false_r.
  destruct (format_code exts self _ _ _) as [code self']. simpl. eauto.
Qed.

Lemma run_loop_spins (placeholder : nat -> str) (exts : option config) :
  (forall k, exists P, code_span P /\ placeholder k = region_span P) ->
  forall (turns n : nat) (self : preprocessor) (P : region),
    code_span P ->
    run_loop placeholder exts turns self
      (repeat nl n ++ region_span P ++ repeat nl n) = None.
Proof.
  intros Hp. induction turns as [|t IH]; intros n self P (W & Epre & Epost & NC & Hq & Hqd).
  - pose (R := Region (repeat nl n) (r_fence P) (r_sp1 P) (r_deco P) (r_lang P)
                      (r_sp2 P) (r_code P) (r_sp3 P) (repeat nl n)).
    assert (WR : well_formed R).
    { destruct W. constructor; cbn; auto.
      - apply repeat_nl_line_start.
      - apply repeat_nl_line_end. }
    destruct (region_found R WR) as (m & M & _).
    { apply fence_lines_zero, repeat_nl_fence_lines. }
    { exact NC. }
    change (region_text R) with (repeat nl n ++ region_span P ++ repeat nl n) in M.
    cbn [run_loop]. now rewrite M.
  - pose (R := Region (repeat nl n) (r_fence P) (r_sp1 P) (r_deco P) (r_lang P)
                      (r_sp2 P) (r_code P) (r_sp3 P) (repeat nl n)).
    assert (WR : well_formed R).
    { destruct W. constructor; cbn; auto.
      - apply repeat_nl_line_start.
      - apply repeat_nl_line_end. }
    destruct (region_found R WR) as (m & M & Ms & Me & _ & Gl & _).
    { apply fence_lines_zero, repeat_nl_fence_lines. }
    { exact NC. }
    cbn [r_lang R] in Gl.
    destruct (format_fence_code placeholder exts self m) as (k & Ek);
      [now rewrite Gl|now rewrite Gl|].
    destruct (Hp k) as (P' & CP' & EP').
    change (region_text R) with (repeat nl n ++ region_span P ++ repeat nl n) in M.
    cbn [run_loop]. rewrite M. unfold process_fence.
    destruct (format_fence placeholder exts self m) as [rep self'].
    cbn [fst] in Ek. subst rep. rewrite Ms, Me. cbn [r_pre R].
    change (region_span R) with (region_span P).
    rewrite firstn_length_app.
    rewrite (app_assoc (repeat nl n) (region_span P) (repeat nl n)),
      skipn_length_app.
    rewrite EP'.
    replace (repeat nl n ++ [nl] ++ region_span P' ++ [nl] ++ repeat nl n)
      with (repeat nl (S n) ++ region_span P' ++ repeat nl (S n)).
    + now apply IH.
    + rewrite (repeat_cons n nl) at 1. cbn [repeat]. now app_norm.
Qed.

(** X10: the loop of [run] relies on the stash for its end: were every
    placeholder itself a fenced code block, each turn would put a new
    block into the text, and on a document that is one code block the
    loop would never stop: no number of turns gives a result. *)
Theorem loop_spins_on_fence_like_placeholders (placeholder : nat -> str)
    (exts : option config) (turns : nat) (self : preprocessor) (P : region) :
  (forall k, exists Q, code_span Q /\ placeholder k = region_span Q) ->
  code_span P ->
  run placeholder exts turns self (split [nl] (region_span P)) = None.
Proof.
  intros Hp CP. unfold run. rewrite join_split.
  pose proof (run_loop_spins placeholder exts Hp turns 0 self P CP) as L.
  cbn [repeat app] in L. rewrite app_nil_r in L. now rewrite L.
Qed.

Lemma empty_block_code_span : code_span empty_block.
Proof.
  unfold code_span. conj_split; try reflexivity; try discriminate.
  - constructor; cbn; try reflexivity; try now left.
    + exists tilde, 3. repeat split; try reflexivity; lia.
    + exists [], [], []. unfold opt_char. auto.
  - apply no_close_inside_short. simpl. lia.
Qed.

Lemma loop_spins_on_fence_like_placeholders_witness :
  run fence_like_placeholder None 1000 init (py_lines ["~~~"; "~~~"]) = None.
Proof.
  apply (loop_spins_on_fence_like_placeholders fence_like_placeholder None 1000
           init empty_block).
  - intros k. exists empty_block. split; [exact empty_block_code_span|reflexivity].
  - exact empty_block_code_span.
Defined.

(** ** Documents without fences, and with several *)

(** X11: a document none of whose lines starts like a fence goes through
    [run] unchanged: the lines come back as they were, nothing is stored
    and the configuration is not even looked up. *)
Theorem plain_document_is_unchanged (placeholder : nat -> str)
    (exts : option config) (turns : nat) (self : preprocessor)
    (lines : list str) :
  lines <> [] ->
  Forall (fun l => nl_free l = true /\ fence_line l = false) lines ->
  run placeholder exts turns self lines = Some (lines, self).
Proof.
  intros N H.
  assert (Nl : Forall (fun l => nl_free l = true) lines)
    by (eapply Forall_impl; [|exact H]; now intros l [E _]).
  assert (Z : forallb (fun l => negb (fence_line l))
                (split [nl] (join [nl] lines)) = true).
  { rewrite split_join_lines; auto.
    apply forallb_forall. intros l Hin. rewrite Forall_forall in H.
    destruct (H l Hin) as [_ E]. now rewrite E. }
  destruct (no_fence_line_no_match _ Z) as [S1 S2].
  unfold run. rewrite (run_loop_none _ _ _ _ _ S1).
  unfold close_dangling. rewrite S2. now rewrite split_join_lines.
Qed.

Lemma plain_document_is_unchanged_witness :
  run html_placeholder None 0 init (py_lines ["a ~~~ b"; ""; "~~ c"; "``"])
  = Some (py_lines ["a ~~~ b"; ""; "~~ c"; "``"], init).
Proof.
  apply (plain_document_is_unchanged html_placeholder None 0 init
           (py_lines ["a ~~~ b"; ""; "~~ c"; "``"])).
  - discriminate.
  - repeat constructor.
Defined.

(** X12: a document with two fenced blocks, the lines around them free of
    fences: the loop renders the upper block first and the lower block
    second, each with the state the one before left, so the stash holds
    their markup in the order of the document. *)
Theorem blocks_are_rendered_in_order (placeholder : nat -> str)
    (exts : option config) (turns : nat) (self : preprocessor)
    (R1 R2 : region) :
  well_formed R1 -> well_formed R2 ->
  r_post R1 = region_text R2 ->
  fence_lines (r_pre R1) = 0 -> fence_lines (r_pre R2) = 0 ->
  fence_lines (r_post R2) = 0 ->
  no_close_inside (r_fence R1) (r_code R1) ->
  no_close_inside (r_fence R2) (r_code R2) ->
  (forall k, fence_lines (placeholder k) = 0) ->
  exists m1 m2,
    group m1 Gcode = r_code R1 /\ group m1 Glang = r_lang R1
    /\ group m2 Gcode = r_code R2 /\ group m2 Glang = r_lang R2
    /\ run placeholder exts (S (S turns)) self (split [nl] (region_text R1))
       = Some (split [nl]
                 (r_pre R1 ++ [nl]
                  ++ fst (format_fence placeholder exts self m1) ++ [nl]
                  ++ r_pre R2 ++ [nl]
                  ++ fst (format_fence placeholder exts
                            (snd (format_fence placeholder exts self m1)) m2)
                  ++ [nl] ++ r_post R2),
               snd (format_fence placeholder exts
                      (snd (format_fence placeholder exts self m1)) m2)).
Proof.
  intros W1 W2 E12 Z1 Z2 Z3 NC1 NC2 Hp.
  destruct (found_region_is_replaced placeholder exts self R1 W1 Z1 NC1)
    as (m1 & M1 & _ & Gl1 & Gc1 & P1).
  pose proof (format_fence_fence_lines placeholder exts self m1 Hp) as Hrep1.
  destruct (format_fence placeholder exts self m1) as [rep1 self1] eqn:F1.
  cbn [fst snd] in *.
  (* the second region, after the markup of the first *)
  pose (R := Region (r_pre R1 ++ [nl] ++ rep1 ++ [nl] ++ r_pre R2)
                    (r_fence R2) (r_sp1 R2) (r_deco R2) (r_lang R2) (r_sp2 R2)
                    (r_code R2) (r_sp3 R2) (r_post R2)).
  assert (L2 : line_end (r_pre R2)).
  { pose proof (wf_end R1 W1) as He. rewrite E12 in He.
    destruct He as [He|[q He]].
    - apply (f_equal (@length ascii)) in He. unfold region_text, region_span in He.
      rewrite !length_app in He. simpl in He. lia.
    - unfold region_text in He. destruct (r_pre R2) as [|x p]; [now left|].
      inversion He; subst. right. now exists p. }
  assert (ZR : fence_lines (r_pre R) = 0).
  { cbn [r_pre R]. rewrite fence_lines_splice; [lia|apply W1|exact L2]. }
  assert (WR : well_formed R).
  { destruct W2 as [Ws2 ? ? ? ? ? ? ?]. constructor; cbn; auto.
    destruct Ws2 as [-> |[p ->]].
    - right. exists (r_pre R1 ++ [nl] ++ rep1). now app_norm.
    - right. exists (r_pre R1 ++ [nl] ++ rep1 ++ [nl] ++ p). now app_norm. }
  destruct (found_region_is_replaced placeholder exts self1 R WR ZR NC2)
    as (m2 & M2 & _ & Gl2 & Gc2 & P2).
  pose proof (format_fence_fence_lines placeholder exts self1 m2 Hp) as Hrep2.
  destruct (format_fence placeholder exts self1 m2) as [rep2 self2] eqn:F2.
  cbn [fst snd r_pre r_post r_lang r_code R] in *.
  assert (ER : region_text R
               = r_pre R1 ++ [nl] ++ rep1 ++ [nl] ++ r_post R1).
  { rewrite E12. unfold region_text. cbn [r_pre r_post R].
    change (region_span R) with (region_span R2). now app_norm. }
  exists m1, m2. rewrite F1. cbn [fst snd]. rewrite F2. cbn [fst snd].
  conj_split; auto.
  unfold run. rewrite join_split. cbn [run_loop].
  rewrite M1, P1, <- ER, M2, P2.
  assert (Z : fence_lines
                ((r_pre R1 ++ [nl] ++ rep1 ++ [nl] ++ r_pre R2)
                 ++ [nl] ++ rep2 ++ [nl] ++ r_post R2) = 0).
  { rewrite fence_lines_splice; [lia|apply WR|apply W2]. }
  destruct (no_fence_line_no_match _ (proj1 (fence_lines_zero _) Z)) as [S1 S2].
  rewrite (run_loop_none _ _ _ _ _ S1).
  unfold close_dangling. rewrite S2. now app_norm.
Qed.

(** ** With a highlighter *)



Lemma tilde_fence : fence_string "~~~".
Proof. exists tilde, 3. repeat split; try reflexivity; lia. Qed.

Lemma backtick_fence : fence_string "```".
Proof. exists backtick, 3. repeat split; try reflexivity; lia. Qed.

Lemma one_line_body (f l : str) :
  fence_string f -> nl_free l = true -> ~ closes f l ->
  no_close_inside f (l ++ [nl]).
Proof.
  intros Hf Hl Hc. rewrite <- unlines_one. apply no_close_unlines; auto.
Qed.

Lemma blocks_are_rendered_in_order_witness :
  exists m1 m2,
    group m1 Gcode = r_code upper_block /\ group m1 Glang = r_lang upper_block
    /\ group m2 Gcode = r_code lower_block /\ group m2 Glang = r_lang lower_block
    /\ run html_placeholder None 2 init (split [nl] (region_text upper_block))
       = Some (split [nl]
                 (r_pre upper_block ++ [nl]
                  ++ fst (format_fence html_placeholder None init m1) ++ [nl]
                  ++ r_pre lower_block ++ [nl]
                  ++ fst (format_fence html_placeholder None
                            (snd (format_fence html_placeholder None init m1)) m2)
                  ++ [nl] ++ r_post lower_block),
               snd (format_fence html_placeholder None
                      (snd (format_fence html_placeholder None init m1)) m2)).
Proof.
  apply (blocks_are_rendered_in_order html_placeholder None 0 init
           upper_block lower_block).
  - constructor; cbn; try reflexivity; try now left.
    + exact tilde_fence.
    + exists [], [], []. unfold opt_char. auto.
    + right. now exists "a".
    + right. eexists. reflexivity.
  - constructor; cbn; try reflexivity; try now left.
    + right. now exists [].
    + exact backtick_fence.
    + exists [], [], []. unfold opt_char. auto.
    + right. now exists "b".
  - reflexivity.
  - reflexivity.
  - reflexivity.
  - reflexivity.
  - apply (one_line_body "~~~" "a" tilde_fence eq_refl).
    intros (sp & _ & E). discriminate E.
  - apply (one_line_body "```" "b" backtick_fence eq_refl).
    intros (sp & _ & E). discriminate E.
  - exact html_placeholder_fence_lines.
Defined.

(** ** Escaping *)

Lemma escape_cons (x : ascii) (txt : str) :
  _escape (x :: txt) = escape_char x ++ _escape txt.
Proof. now rewrite !escape_each_char. Qed.

Lemma escape_char_cases (x : ascii) :
  (markup_char x = true /\ 4 <= length (escape_char x))
  \/ (markup_char x = false /\ escape_char x = [x]).
Proof.
  unfold markup_char, escape_char.
  destruct (Ascii.eqb x "&"); [left; split; [reflexivity|simpl; lia]|].
  destruct (Ascii.eqb x "<"); [left; split; [reflexivity|simpl; lia]|].
  destruct (Ascii.eqb x ">"); [left; split; [reflexivity|simpl; lia]|].
  destruct (Ascii.eqb x dquote); [left; split; [reflexivity|simpl; lia]|].
  now right.
Qed.

(** X14: the text [_escape] returns has no [<], no [>] and no double
    quote, whatever the text it is given. *)
Theorem escape_leaves_no_markup (txt : str) :
  forallb (fun c => negb (Ascii.eqb c "<" || Ascii.eqb c ">" || Ascii.eqb c dquote))
          (_escape txt) = true.
Proof.
  rewrite escape_each_char. induction txt as [|x txt IH]; [reflexivity|].
  simpl. rewrite forallb_app, IH, andb_true_r.
  unfold escape_char.
  destruct (Ascii.eqb x "&"); [reflexivity|].
  destruct (Ascii.eqb x "<") eqn:E1; [reflexivity|].
  destruct (Ascii.eqb x ">") eqn:E2; [reflexivity|].
  destruct (Ascii.eqb x dquote) eqn:E3; [reflexivity|].
  simpl. now rewrite E1, E2, E3.
Qed.

Lemma escape_length (txt : str) : length txt <= length (_escape txt).
Proof.
  induction txt as [|x txt IH]; [simpl; lia|].
  rewrite escape_cons, length_app. simpl.
  destruct (escape_char_cases x) as [[_ L]|[_ ->]]; simpl; lia.
Qed.

(** X15: [_escape] returns its argument unchanged exactly when the text
    has none of the four characters [&], [<], [>] and the double
    quote. *)
Theorem escape_unchanged_iff (txt : str) :
  _escape txt = txt <-> forallb (fun c => negb (markup_char c)) txt = true.
Proof.
  induction txt as [|x txt IH]; [now split|].
  rewrite escape_cons. cbn [forallb].
  destruct (escape_char_cases x) as [[M L]|[M E]]; rewrite M; cbn [negb andb].
  - split; [|discriminate]. intros H.
    apply (f_equal (@length ascii)) in H. rewrite length_app in H. simpl in H.
    pose proof (escape_length txt). lia.
  - rewrite E. cbn [app]. rewrite <- IH. split; intros H.
    + now injection H.
    + now rewrite H.
Qed.

Lemma unescape_skip (k : nat) (w rest : str) :
  length w = k -> unescape_go k (w ++ rest) = unescape_go 0 rest.
Proof.
  revert w. induction k as [|k IH]; intros [|x w] L; try discriminate; simpl.
  - reflexivity.
  - apply IH. now inversion L.
Qed.

Lemma unescape_escape_char (x : ascii) (rest : str) :
  unescape_go 0 (escape_char x ++ rest) = x :: unescape_go 0 rest.
Proof.
  unfold escape_char.
  destruct (Ascii.eqb x "&") eqn:E0.
  { apply Ascii.eqb_eq in E0. subst x.
    exact (f_equal (cons "&"%char) (unescape_skip 4 "amp;" rest eq_refl)). }
  destruct (Ascii.eqb x "<") eqn:E1.
  { apply Ascii.eqb_eq in E1. subst x.
    exact (f_equal (cons "<"%char) (unescape_skip 3 "lt;" rest eq_refl)). }
  destruct (Ascii.eqb x ">") eqn:E2.
  { apply Ascii.eqb_eq in E2. subst x.
    exact (f_equal (cons ">"%char) (unescape_skip 3 "gt;" rest eq_refl)). }
  destruct (Ascii.eqb x dquote) eqn:E3.
  { apply Ascii.eqb_eq in E3. subst x.
    exact (f_equal (cons dquote) (unescape_skip 5 "quot;" rest eq_refl)). }
  cbn [app unescape_go].
  assert (A : forall p r, strip_prefix ("&"%char :: p) (x :: r) = None).
  { intros p r. cbn [strip_prefix]. rewrite (Ascii.eqb_sym "&" x), E0. reflexivity. }
  change (list_ascii_of_string "&amp;") with ("&"%char :: list_ascii_of_string "amp;").
  change (list_ascii_of_string "&lt;") with ("&"%char :: list_ascii_of_string "lt;").
  change (list_ascii_of_string "&gt;") with ("&"%char :: list_ascii_of_string "gt;").
  change (list_ascii_of_string "&quot;") with ("&"%char :: list_ascii_of_string "quot;").
  now rewrite !A.
Qed.

Lemma unescape_escape (txt : str) : unescape (_escape txt) = txt.
Proof.
  unfold unescape. induction txt as [|x txt IH]; [reflexivity|].
  rewrite escape_cons, unescape_escape_char. now rewrite IH.
Qed.

(** X16: [_escape] loses nothing: two texts with the same escaped form are
    the same text. *)
Theorem escape_injective (a b : str) : _escape a = _escape b -> a = b.
Proof.
  intros H. rewrite <- (unescape_escape a), <- (unescape_escape b).
  now rewrite H.
Qed.

Lemma escape_injective_witness :
  list_ascii_of_string "a <" ++ " b" = list_ascii_of_string "a < b".
Proof.
  apply (escape_injective ("a <" ++ " b") "a < b"). vm_compute. reflexivity.
Defined.

(** ** Quotes, whatever the body *)

Lemma split2_cons (x : ascii) (s : str) :
  split [nl; nl] (x :: s) =
  match s with
  | y :: s' =>
      if Ascii.eqb x nl && Ascii.eqb y nl then [] :: split [nl; nl] s'
      else cons_head x (split [nl; nl] s)
  | [] => [[x]]
  end.
Proof.
  unfold split. cbn [split_go strip_prefix length Nat.sub].
  rewrite (Ascii.eqb_sym nl x). destruct s as [|y s'].
  - now destruct (Ascii.eqb x nl).
  - rewrite (Ascii.eqb_sym nl y).
    destruct (Ascii.eqb x nl); [|reflexivity].
    now destruct (Ascii.eqb y nl).
Qed.

Lemma split2_nonempty (n : nat) :
  forall s, length s <= n -> exists l ls, split [nl; nl] s = l :: ls.
Proof.
  induction n as [|n IH]; intros [|x s] L; simpl in L;
    try (now exists [], []); try lia.
  rewrite split2_cons. destruct s as [|y s']; [eauto|].
  destruct (Ascii.eqb x nl && Ascii.eqb y nl); [eauto|].
  destruct (IH (y :: s') ltac:(lia)) as (l & ls & ->). simpl. eauto.
Qed.

(** Splitting into paragraphs and joining them again gives the text
    back. *)
Lemma join_split2 (n : nat) :
  forall s, length s <= n -> join [nl; nl] (split [nl; nl] s) = s.
Proof.
  induction n as [|n IH]; intros [|x s] L; simpl in L; try reflexivity; try lia.
  rewrite split2_cons. destruct s as [|y s']; [reflexivity|].
  destruct (Ascii.eqb_spec x nl) as [-> |Nx]; cbn [andb].
  - destruct (Ascii.eqb_spec y nl) as [-> |Ny].
    + destruct (split2_nonempty (length s') s' (Nat.le_refl _)) as (l & ls & E).
      pose proof (IH s' ltac:(simpl in L; lia)) as J. rewrite E in *.
      rewrite join_cons, J. reflexivity.
    + destruct (split2_nonempty _ (y :: s') (Nat.le_refl _)) as (l & ls & E).
      pose proof (IH (y :: s') ltac:(lia)) as J. rewrite E in *.
      now rewrite join_cons_head, J.
  - destruct (split2_nonempty _ (y :: s') (Nat.le_refl _)) as (l & ls & E).
    pose proof (IH (y :: s') ltac:(lia)) as J. rewrite E in *.
    now rewrite join_cons_head, J.
Qed.

(** The non-empty lines of paragraphs joined by a blank line are those
    of the paragraphs. *)
Lemma lines_join2 (qs : list str) :
  filter truthy (split [nl] (join [nl; nl] qs))
  = concat (map (fun q => filter truthy (split [nl] q)) qs).
Proof.
  induction qs as [|q qs IH]; [reflexivity|].
  destruct qs as [|q' qs].
  - simpl. now rewrite app_nil_r.
  - rewrite join_cons. cbn [app]. rewrite split_app_nl, split_nl_cons.
    rewrite Ascii.eqb_refl, filter_app. cbn [filter truthy].
    rewrite IH. reflexivity.
Qed.

Lemma lines_quote_paragraph (p : str) :
  filter truthy (split [nl] (quote_paragraph p))
  = map (fun line => "> " ++ line) (filter truthy (split [nl] p)).
Proof.
  unfold quote_paragraph.
  assert (H : Forall (fun l => nl_free l = true) (filter truthy (split [nl] p))).
  { apply Forall_forall. intros l Hin. apply filter_In in Hin as [Hin _].
    pose proof (split_lines_nl_free p) as N. rewrite Forall_forall in N.
    now apply N. }
  destruct (filter truthy (split [nl] p)) as [|l ls] eqn:E; [reflexivity|].
  rewrite split_join_lines.
  - clear. generalize (l :: ls). intros xs.
    induction xs as [|x xs IH]; [reflexivity|]. cbn [map filter].
    now rewrite IH.
  - discriminate.
  - apply Forall_map. eapply Forall_impl; [|exact H]. intros a Ha. exact Ha.
Qed.

(** X17: [format_quote] keeps the non-empty lines of the body, in their
    order, and writes [> ] before each of them; all the other lines of
    its result are empty.  This holds for every body, blank lines and
    missing final newline included. *)
Theorem format_quote_lines (text : str) :
  filter truthy (split [nl] (format_quote text))
  = map (fun line => "> " ++ line) (filter truthy (split [nl] text)).
Proof.
  rewrite format_quote_paragraphs, lines_join2, map_map.
  rewrite <- (join_split2 (length text) text (Nat.le_refl _)) at 2.
  rewrite lines_join2.
  induction (split [nl; nl] text) as [|p ps IH]; [reflexivity|].
  simpl. now rewrite map_app, lines_quote_paragraph, IH.
Qed.

(** ** The lines [run] returns *)

(** X18: whatever [run] returns is a list of at least one line, and no
    line holds a newline, also when the markup of a quote or a
    placeholder does. *)
Theorem run_returns_lines (placeholder : nat -> str) (exts : option config)
    (turns : nat) (self self' : preprocessor) (lines out : list str) :
  run placeholder exts turns self lines = Some (out, self') ->
  out <> [] /\ Forall (fun l => nl_free l = true) out.
Proof.
  unfold run. intros H.
  destruct (run_loop placeholder exts turns self (join [nl] lines))
    as [[t1 s1]|]; [|discriminate].
  destruct (close_dangling placeholder exts s1 t1) as [t2 s2].
  inversion H; subst out self'; clear H. split.
  - destruct (split_nonempty t2) as (l & ls & ->). discriminate.
  - apply split_lines_nl_free.
Qed.

Lemma run_returns_lines_witness :
  [[]; html_placeholder 0; []] <> []
  /\ Forall (fun l => nl_free l = true) [[]; html_placeholder 0; []].
Proof.
  apply (run_returns_lines html_placeholder None 1 init
           (Preprocessor true None [CODE_WRAP [] ("hello" ++ [nl])])
           (py_lines ["~~~"; "hello"; "~~~"])).
  vm_compute. reflexivity.
Defined.

(** ** The stash and the configuration *)

Lemma format_fence_stash (placeholder : nat -> str) (exts : option config)
    (self : preprocessor) (m : match_obj) :
  exists added,
    rawHtmlBlocks (snd (format_fence placeholder exts self m))
    = rawHtmlBlocks self ++ added.
Proof.
  unfold format_fence.
  destruct (truthy (group m Glang) && _).
  - exists []. simpl. now rewrite app_nil_r.
  - unfold format_code.
    destruct (codehilite_conf (check_codehilite exts self)) as [h|];
      eexists; simpl; rewrite check_codehilite_blocks; reflexivity.
Qed.

Lemma process_fence_stash (placeholder : nat -> str) (exts : option config)
    (self : preprocessor) (m : match_obj) (text : str) :
  exists added,
    rawHtmlBlocks (snd (process_fence placeholder exts self m text))
    = rawHtmlBlocks self ++ added.
Proof.
  destruct (format_fence_stash placeholder exts self m) as (added & E).
  exists added. unfold process_fence.
  now destruct (format_fence placeholder exts self m).
Qed.

Lemma run_loop_stash (placeholder : nat -> str) (exts : option config)
    (turns : nat) :
  forall (self self' : preprocessor) (text text' : str),
    run_loop placeholder exts turns self text = Some (text', self') ->
    exists added, rawHtmlBlocks self' = rawHtmlBlocks self ++ added.
Proof.
  induction turns as [|n IH]; intros self self' text text' H; simpl in H.
  - destruct (search FENCED_BLOCK_RE text); [discriminate|].
    inversion H; subst. exists []. now rewrite app_nil_r.
  - destruct (search FENCED_BLOCK_RE text) as [m|].
    + destruct (process_fence_stash placeholder exts self m text) as (a1 & E1).
      destruct (process_fence placeholder exts self m text) as [t1 s1].
      destruct (IH _ _ _ _ H) as (a2 & E2). simpl in E1.
      exists (a1 ++ a2). now rewrite E2, E1, app_assoc.
    + inversion H; subst. exists []. now rewrite app_nil_r.
Qed.

(** X19: [run] only appends to the stash: the blocks stored before the
    call are still there afterwards, at the same indices, so the
    placeholders handed out earlier keep their meaning. *)
Theorem run_extends_stash (placeholder : nat -> str) (exts : option config)
    (turns : nat) (self self' : preprocessor) (lines out : list str) :
  run placeholder exts turns self lines = Some (out, self') ->
  exists added, rawHtmlBlocks self' = rawHtmlBlocks self ++ added.
Proof.
  unfold run. intros H.
  destruct (run_loop placeholder exts turns self (join [nl] lines))
    as [[t1 s1]|] eqn:L; [|discriminate].
  destruct (run_loop_stash _ _ _ _ _ _ _ L) as (a1 & E1).
  assert (C : exists a2,
             rawHtmlBlocks (snd (close_dangling placeholder exts s1 t1))
             = rawHtmlBlocks s1 ++ a2).
  { unfold close_dangling.
    destruct (search FENCE_RE t1) as [fence|];
      [|exists []; simpl; now rewrite app_nil_r].
    destruct (search FENCED_BLOCK_RE _) as [m|];
      [apply process_fence_stash|exists []; simpl; now rewrite app_nil_r]. }
  destruct C as (a2 & E2).
  destruct (close_dangling placeholder exts s1 t1) as [t2 s2].
  inversion H; subst out self'; clear H. simpl in E2.
  exists (a1 ++ a2). now rewrite E2, E1, app_assoc.
Qed.

Lemma run_extends_stash_witness :
  exists added,
    rawHtmlBlocks (Preprocessor true None [list_ascii_of_string "<b>"; CODE_WRAP [] ("hello" ++ [nl])])
    = rawHtmlBlocks (Preprocessor false None [list_ascii_of_string "<b>"]) ++ added.
Proof.
  apply (run_extends_stash html_placeholder None 1
           (Preprocessor false None [list_ascii_of_string "<b>"])
           (Preprocessor true None [list_ascii_of_string "<b>"; CODE_WRAP [] ("hello" ++ [nl])])
           (py_lines ["~~~"; "hello"; "~~~"])
           [[]; html_placeholder 1; []]).
  vm_compute. reflexivity.
Defined.

Lemma format_fence_checked (placeholder : nat -> str) (exts exts' : option config)
    (self : preprocessor) (m : match_obj) :
  checked_for_codehilite self = true ->
  format_fence placeholder exts self m = format_fence placeholder exts' self m
  /\ checked_for_codehilite (snd (format_fence placeholder exts self m)) = true
  /\ codehilite_conf (snd (format_fence placeholder exts self m))
     = codehilite_conf self.
Proof.
  intros H. unfold format_fence, format_code, check_codehilite. rewrite H.
  destruct (truthy (group m Glang) && _); [auto|].
  destruct (codehilite_conf self) as [h|] eqn:E; simpl; auto.
Qed.

Lemma process_fence_checked (placeholder : nat -> str)
    (exts exts' : option config) (self : preprocessor) (m : match_obj)
    (text : str) :
  checked_for_codehilite self = true ->
  process_fence placeholder exts self m text
  = process_fence placeholder exts' self m text
  /\ checked_for_codehilite (snd (process_fence placeholder exts self m text))
     = true
  /\ codehilite_conf (snd (process_fence placeholder exts self m text))
     = codehilite_conf self.
Proof.
  intros H.
  destruct (format_fence_checked placeholder exts exts' self m H) as (E & C & K).
  unfold process_fence. rewrite <- E.
  now destruct (format_fence placeholder exts self m).
Qed.

Lemma run_loop_checked (placeholder : nat -> str) (exts exts' : option config)
    (turns : nat) :
  forall (self : preprocessor) (text : str),
    checked_for_codehilite self = true ->
    run_loop placeholder exts turns self text
    = run_loop placeholder exts' turns self text
    /\ forall text' self',
         run_loop placeholder exts turns self text = Some (text', self') ->
         checked_for_codehilite self' = true
         /\ codehilite_conf self' = codehilite_conf self.
Proof.
  induction turns as [|n IH]; intros self text H; simpl.
  - destruct (search FENCED_BLOCK_RE text); split; auto; try discriminate.
    intros t s E. inversion E; subst. auto.
  - destruct (search FENCED_BLOCK_RE text) as [m|].
    + destruct (process_fence_checked placeholder exts exts' self m text H)
        as (E & C & K).
      rewrite <- E.
      destruct (process_fence placeholder exts self m text) as [t1 s1].
      simpl in C, K. destruct (IH s1 t1 C) as (E1 & P1). split; [exact E1|].
      intros t s R. destruct (P1 t s R) as (C2 & K2). split; congruence.
    + split; auto. intros t s E. inversion E; subst. auto.
Qed.

(** X20: the look-up of the highlighter's configuration is done once and
    kept: on a preprocessor that has already looked, [run] gives the same
    result whatever extensions are registered by then, and it leaves the
    configuration it holds as it is. *)
Theorem configuration_is_looked_up_once (placeholder : nat -> str)
    (exts exts' : option config) (turns : nat) (self : preprocessor)
    (lines : list str) :
  checked_for_codehilite self = true ->
  run placeholder exts turns self lines = run placeholder exts' turns self lines
  /\ forall out self',
       run placeholder exts turns self lines = Some (out, self') ->
       codehilite_conf self' = codehilite_conf self.
Proof.
  intros H. unfold run.
  destruct (run_loop_checked placeholder exts exts' turns self
              (join [nl] lines) H) as (E & P).
  rewrite <- E.
  destruct (run_loop placeholder exts turns self (join [nl] lines))
    as [[t1 s1]|]; [|split; [reflexivity|discriminate]].
  destruct (P t1 s1 eq_refl) as (C1 & K1).
  assert (D : close_dangling placeholder exts s1 t1
              = close_dangling placeholder exts' s1 t1
              /\ codehilite_conf (snd (close_dangling placeholder exts s1 t1))
                 = codehilite_conf s1).
  { unfold close_dangling. destruct (search FENCE_RE t1) as [fence|]; [|auto].
    destruct (search FENCED_BLOCK_RE _) as [m|]; [|auto].
    destruct (process_fence_checked placeholder exts exts' s1 m
                (if str_eqb (last_n 2 t1) [nl; nl]
                 then drop_last_n 2 t1 ++ [nl] ++ group fence Gfence ++ last_n 2 t1
                 else t1 ++ group fence Gfence) C1) as (E2 & _ & K2).
    auto. }
  destruct D as (E2 & K2). rewrite <- E2.
  destruct (close_dangling placeholder exts s1 t1) as [t2 s2].
  split; [reflexivity|]. intros out self' R. inversion R; subst.
  simpl in K2. congruence.
Qed.

Lemma configuration_is_looked_up_once_witness :
  run html_placeholder (Some (Some (fun text _ => "<div>" ++ text ++ "</div>")))
      1 (Preprocessor true None []) (py_lines ["~~~"; "a < b"; "~~~"])
  = run html_placeholder None 1 (Preprocessor true None [])
        (py_lines ["~~~"; "a < b"; "~~~"])
  /\ forall out self',
       run html_placeholder
           (Some (Some (fun text _ => "<div>" ++ text ++ "</div>")))
           1 (Preprocessor true None []) (py_lines ["~~~"; "a < b"; "~~~"])
       = Some (out, self') ->
       codehilite_conf self' = codehilite_conf (Preprocessor true None []).
Proof.
  apply (configuration_is_looked_up_once html_placeholder
           (Some (Some (fun text _ => "<div>" ++ text ++ "</div>"))) None 1
           (Preprocessor true None []) (py_lines ["~~~"; "a < b"; "~~~"])).
  reflexivity.
Defined.
